(** * SVRG solver of tick: a shallow embedding of
      [tick/optim/solver/src/svrg.cpp] and the properties of its epoch.

    The C++ class [SVRG] (a [StoSolver]) becomes a record of its members and
    every method a function on that record.  Arrays are lists read and
    written by index, [ulong] values are integers with the wrap-around of
    the additions written out, and a [double] is idealised as an exact
    rational (type [Qc]): the statements below are about the arithmetic the
    code asks for, not about rounding. *)

From stdpp Require Import base decidable option numbers list strings.
From Stdlib Require Import ZArith QArith Qcanon Lia.

Local Open Scope Z_scope.

(** ** Machine integers and doubles *)

(** [ulong]: an unsigned 64-bit integer, kept in [Z]. *)
Definition ulong := Z.

Definition ulong_modulus : Z := 2 ^ 64.

(** The value an unsigned addition stores. *)
Definition wrap (z : Z) : ulong := z mod ulong_modulus.

(** [static_cast<double>(n)] and the implicit conversion of a [ulong]
    operand of a [double] operation. *)
Definition of_ulong (n : ulong) : Qc := Qc_of_Z n.
Arguments of_ulong n%_Z.

(** What a C++ call can do: return, throw to its caller, or have no defined
    behaviour at all (the only such case modelled is the integer division by
    zero of [compute_step_corrections]). *)
Inductive outcome (A : Type) : Type :=
  | Returns (a : A)
  | Throws (what : string)
  | Undefined.
Arguments Returns {A} a.
Arguments Throws {A} what.
Arguments Undefined {A}.

#[global] Instance outcome_ret : MRet outcome := fun A a => Returns a.
#[global] Instance outcome_bind : MBind outcome := fun A B f o =>
  match o with
  | Returns a => f a
  | Throws w => Throws w
  | Undefined => Undefined
  end.

#[global] Instance outcome_fmap : FMap outcome := fun A B f o =>
  match o with
  | Returns a => Returns (f a)
  | Throws w => Throws w
  | Undefined => Undefined
  end.

#[global] Instance outcome_eq_dec {A} `{EqDecision A} :
  EqDecision (outcome A).
Proof. solve_decision. Defined.

(** [n / d] on [ulong]: undefined when the divisor is zero. *)
Definition udiv (n d : ulong) : outcome ulong :=
  if decide (d = 0) then Undefined else Returns (n / d).

(** ** Arrays *)

(** [a[j]] and [a[j] = v] for an index [j] of type [ulong].  The source
    does not check bounds; the model reads the default value and writes
    nothing outside the array, and the statements below say so when they
    need an index to be inside. *)
Definition get {A} `{Inhabited A} (a : list A) (j : ulong) : A :=
  a !!! Z.to_nat j.
Definition set {A} (a : list A) (j : ulong) (v : A) : list A :=
  <[Z.to_nat j := v]> a.
Definition size {A} (a : list A) : ulong := Z.of_nat (length a).

#[global] Instance Qc_inhabited : Inhabited Qc := populate 0%Qc.

(** [for (ulong k = k0; k < k0 + n; ++k) s = body(k, s)]. *)
Fixpoint for_loop {St : Type} (n : nat) (k : ulong) (body : ulong -> St -> St)
    (s : St) : St :=
  match n with
  | O => s
  | S n' => for_loop n' (k + 1) body (body k s)
  end.

(** [for (ulong k = 0; k < n; ++k)]. *)
Definition for_range {St : Type} (n : ulong) (body : ulong -> St -> St)
    (s : St) : St :=
  for_loop (Z.to_nat n) 0 body s.

(** The same loop when its body can fail. *)
Fixpoint for_loopM {St : Type} (n : nat) (k : ulong)
    (body : ulong -> St -> outcome St) (s : St) : outcome St :=
  match n with
  | O => Returns s
  | S n' => s' ← body k s; for_loopM n' (k + 1) body s'
  end.

(** Modelled from the spec: the array classes are not part of svrg.cpp.
    [zeros n] stands for a fresh [ArrayDouble(n)], whose content the code
    never reads before writing it; [init_to_zero] zeroes an array in
    place. *)
Definition zeros (n : ulong) : list Qc := replicate (Z.to_nat n) 0%Qc.
Definition init_to_zero (a : list Qc) : list Qc := replicate (length a) 0%Qc.

(** Modelled from the spec: [y.mult_incr(x, a)] is [y[k] += x[k] * a], the
    accumulation [next_iterate += iterate / epoch_size] of the policy
    [Average]. *)
Definition mult_incr (y x : list Qc) (a : Qc) : list Qc :=
  zip_with (fun yk xk => (yk + xk * a)%Qc) y x.

(** ** Collaborators *)

(** [BaseArrayDouble] holding a sparse row: [size_sparse()] stored entries,
    entry [k] being the value [data()[k]] at coordinate [indices()[k]]. *)
Record SparseArray := {
  indices : list ulong;
  data : list Qc
}.
Definition size_sparse (x : SparseArray) : ulong := size (indices x).

(** The model interface the solver calls ([ModelPtr]); the models
    themselves are not part of svrg.cpp, so every method is a field.
    [grad] and [grad_i] return the array they fill;
    [compute_columns_non_zeros] gives, for column [j], the count the model
    writes at position [j]. *)
Module Model.
Record t := {
  is_sparse : bool;
  get_n_features : ulong;
  get_n_samples : ulong;
  use_intercept : bool;
  grad : list Qc -> list Qc;
  grad_i : ulong -> list Qc -> list Qc;
  grad_i_factor : ulong -> list Qc -> Qc;
  get_features : ulong -> SparseArray;
  compute_columns_non_zeros : ulong -> ulong
}.
End Model.

(** The proximal operator interface ([ProxPtr], and [ProxSeparable] for the
    two [call_single] overloads, [call_single_n] being the one that takes
    a number of steps); the operators are not part of svrg.cpp. *)
Module Prox.
Record t := {
  is_separable : bool;
  call : list Qc -> Qc -> list Qc;
  call_single : Qc -> Qc -> Qc;
  call_single_n : Qc -> Qc -> ulong -> Qc
}.
End Prox.

(** Modelled from the spec: [StoSolver::get_next_i] and
    [StoSolver::rand_unif] are not part of svrg.cpp.  The generator is a
    tape: the [k]-th draw of the solver is [draw_i k] when it asks for a
    sample index and [draw_unif k max] when it asks for [rand_unif(max)]. *)
Record Sampler := {
  draw_i : nat -> ulong;
  draw_unif : nat -> ulong -> ulong;
  n_draws : nat
}.

Definition advance (r : Sampler) : Sampler :=
  {| draw_i := draw_i r; draw_unif := draw_unif r; n_draws := S (n_draws r) |}.

Definition get_next_i (r : Sampler) : ulong * Sampler :=
  (draw_i r (n_draws r), advance r).

Definition rand_unif (max : ulong) (r : Sampler) : ulong * Sampler :=
  (draw_unif r (n_draws r) max, advance r).

(** Modelled from the spec: the index drawn by [rand_unif(max)] lies in
    [[0, max)]. *)
Definition rand_unif_in_range (r : Sampler) : Prop :=
  forall k max, 0 < max -> 0 <= draw_unif r k max < max.

(** ** The solver *)

(** The two scoped enumerations of svrg.h.  A value of a scoped enumeration
    is any value of its underlying integer type: [Unlisted_ c] stands for a
    value [c] that is none of the enumerators. *)
Inductive VarianceReductionMethod :=
  | Last
  | Average
  | Random
  | UnlistedVarianceReduction (code : Z).

Inductive DelayedUpdatesMethod :=
  | Exact
  | Proba
  | UnlistedDelayedUpdates (code : Z).

#[global] Instance VarianceReductionMethod_eq_dec :
  EqDecision VarianceReductionMethod.
Proof. solve_decision. Defined.

#[global] Instance DelayedUpdatesMethod_eq_dec :
  EqDecision DelayedUpdatesMethod.
Proof. solve_decision. Defined.

(** The members of [SVRG], those inherited from [StoSolver] first.
    [columns_non_zeros_calls] is not a member: it counts the calls made to
    the model's [compute_columns_non_zeros]. *)
Record SVRG := {
  epoch_size : ulong;
  t : ulong;
  model : Model.t;
  prox : Prox.t;
  iterate : list Qc;
  rand : Sampler;
  step : Qc;
  variance_reduction : VarianceReductionMethod;
  delayed_updates : DelayedUpdatesMethod;
  ready_step_corrections : bool;
  is_model_sparse : bool;
  is_prox_separable : bool;
  n_features : ulong;
  use_intercept : bool;
  fixed_w : list Qc;
  full_gradient : list Qc;
  next_iterate : list Qc;
  grad_i : list Qc;
  grad_i_fixed_w : list Qc;
  last_time : list ulong;
  steps_correction : list Qc;
  casted_prox : Prox.t;
  rand_index : ulong;
  columns_non_zeros_calls : nat
}.

(** Assignment to one member. *)
Definition with_t (v : ulong) (s : SVRG) : SVRG :=
  Build_SVRG (epoch_size s) v (model s) (prox s) (iterate s) (rand s) (step s)
    (variance_reduction s) (delayed_updates s) (ready_step_corrections s)
    (is_model_sparse s) (is_prox_separable s) (n_features s) (use_intercept s)
    (fixed_w s) (full_gradient s) (next_iterate s) (grad_i s)
    (grad_i_fixed_w s) (last_time s) (steps_correction s) (casted_prox s)
    (rand_index s) (columns_non_zeros_calls s).

Definition with_model (v : Model.t) (s : SVRG) : SVRG :=
  Build_SVRG (epoch_size s) (t s) v (prox s) (iterate s) (rand s) (step s)
    (variance_reduction s) (delayed_updates s) (ready_step_corrections s)
    (is_model_sparse s) (is_prox_separable s) (n_features s) (use_intercept s)
    (fixed_w s) (full_gradient s) (next_iterate s) (grad_i s)
    (grad_i_fixed_w s) (last_time s) (steps_correction s) (casted_prox s)
    (rand_index s) (columns_non_zeros_calls s).

Definition with_prox (v : Prox.t) (s : SVRG) : SVRG :=
  Build_SVRG (epoch_size s) (t s) (model s) v (iterate s) (rand s) (step s)
    (variance_reduction s) (delayed_updates s) (ready_step_corrections s)
    (is_model_sparse s) (is_prox_separable s) (n_features s) (use_intercept s)
    (fixed_w s) (full_gradient s) (next_iterate s) (grad_i s)
    (grad_i_fixed_w s) (last_time s) (steps_correction s) (casted_prox s)
    (rand_index s) (columns_non_zeros_calls s).

Definition with_iterate (v : list Qc) (s : SVRG) : SVRG :=
  Build_SVRG (epoch_size s) (t s) (model s) (prox s) v (rand s) (step s)
    (variance_reduction s) (delayed_updates s) (ready_step_corrections s)
    (is_model_sparse s) (is_prox_separable s) (n_features s) (use_intercept s)
    (fixed_w s) (full_gradient s) (next_iterate s) (grad_i s)
    (grad_i_fixed_w s) (last_time s) (steps_correction s) (casted_prox s)
    (rand_index s) (columns_non_zeros_calls s).

Definition with_rand (v : Sampler) (s : SVRG) : SVRG :=
  Build_SVRG (epoch_size s) (t s) (model s) (prox s) (iterate s) v (step s)
    (variance_reduction s) (delayed_updates s) (ready_step_corrections s)
    (is_model_sparse s) (is_prox_separable s) (n_features s) (use_intercept s)
    (fixed_w s) (full_gradient s) (next_iterate s) (grad_i s)
    (grad_i_fixed_w s) (last_time s) (steps_correction s) (casted_prox s)
    (rand_index s) (columns_non_zeros_calls s).

Definition with_ready_step_corrections (v : bool) (s : SVRG) : SVRG :=
  Build_SVRG (epoch_size s) (t s) (model s) (prox s) (iterate s) (rand s)
    (step s) (variance_reduction s) (delayed_updates s) v (is_model_sparse s)
    (is_prox_separable s) (n_features s) (use_intercept s) (fixed_w s)
    (full_gradient s) (next_iterate s) (grad_i s) (grad_i_fixed_w s)
    (last_time s) (steps_correction s) (casted_prox s) (rand_index s)
    (columns_non_zeros_calls s).

Definition with_is_model_sparse (v : bool) (s : SVRG) : SVRG :=
  Build_SVRG (epoch_size s) (t s) (model s) (prox s) (iterate s) (rand s)
    (step s) (variance_reduction s) (delayed_updates s)
    (ready_step_corrections s) v (is_prox_separable s) (n_features s)
    (use_intercept s) (fixed_w s) (full_gradient s) (next_iterate s)
    (grad_i s) (grad_i_fixed_w s) (last_time s) (steps_correction s)
    (casted_prox s) (rand_index s) (columns_non_zeros_calls s).

Definition with_is_prox_separable (v : bool) (s : SVRG) : SVRG :=
  Build_SVRG (epoch_size s) (t s) (model s) (prox s) (iterate s) (rand s)
    (step s) (variance_reduction s) (delayed_updates s)
    (ready_step_corrections s) (is_model_sparse s) v (n_features s)
    (use_intercept s) (fixed_w s) (full_gradient s) (next_iterate s)
    (grad_i s) (grad_i_fixed_w s) (last_time s) (steps_correction s)
    (casted_prox s) (rand_index s) (columns_non_zeros_calls s).

Definition with_n_features (v : ulong) (s : SVRG) : SVRG :=
  Build_SVRG (epoch_size s) (t s) (model s) (prox s) (iterate s) (rand s)
    (step s) (variance_reduction s) (delayed_updates s)
    (ready_step_corrections s) (is_model_sparse s) (is_prox_separable s) v
    (use_intercept s) (fixed_w s) (full_gradient s) (next_iterate s)
    (grad_i s) (grad_i_fixed_w s) (last_time s) (steps_correction s)
    (casted_prox s) (rand_index s) (columns_non_zeros_calls s).

Definition with_use_intercept (v : bool) (s : SVRG) : SVRG :=
  Build_SVRG (epoch_size s) (t s) (model s) (prox s) (iterate s) (rand s)
    (step s) (variance_reduction s) (delayed_updates s)
    (ready_step_corrections s) (is_model_sparse s) (is_prox_separable s)
    (n_features s) v (fixed_w s) (full_gradient s) (next_iterate s) (grad_i s)
    (grad_i_fixed_w s) (last_time s) (steps_correction s) (casted_prox s)
    (rand_index s) (columns_non_zeros_calls s).

Definition with_fixed_w (v : list Qc) (s : SVRG) : SVRG :=
  Build_SVRG (epoch_size s) (t s) (model s) (prox s) (iterate s) (rand s)
    (step s) (variance_reduction s) (delayed_updates s)
    (ready_step_corrections s) (is_model_sparse s) (is_prox_separable s)
    (n_features s) (use_intercept s) v (full_gradient s) (next_iterate s)
    (grad_i s) (grad_i_fixed_w s) (last_time s) (steps_correction s)
    (casted_prox s) (rand_index s) (columns_non_zeros_calls s).

Definition with_full_gradient (v : list Qc) (s : SVRG) : SVRG :=
  Build_SVRG (epoch_size s) (t s) (model s) (prox s) (iterate s) (rand s)
    (step s) (variance_reduction s) (delayed_updates s)
    (ready_step_corrections s) (is_model_sparse s) (is_prox_separable s)
    (n_features s) (use_intercept s) (fixed_w s) v (next_iterate s) (grad_i s)
    (grad_i_fixed_w s) (last_time s) (steps_correction s) (casted_prox s)
    (rand_index s) (columns_non_zeros_calls s).

Definition with_next_iterate (v : list Qc) (s : SVRG) : SVRG :=
  Build_SVRG (epoch_size s) (t s) (model s) (prox s) (iterate s) (rand s)
    (step s) (variance_reduction s) (delayed_updates s)
    (ready_step_corrections s) (is_model_sparse s) (is_prox_separable s)
    (n_features s) (use_intercept s) (fixed_w s) (full_gradient s) v
    (grad_i s) (grad_i_fixed_w s) (last_time s) (steps_correction s)
    (casted_prox s) (rand_index s) (columns_non_zeros_calls s).

Definition with_grad_i (v : list Qc) (s : SVRG) : SVRG :=
  Build_SVRG (epoch_size s) (t s) (model s) (prox s) (iterate s) (rand s)
    (step s) (variance_reduction s) (delayed_updates s)
    (ready_step_corrections s) (is_model_sparse s) (is_prox_separable s)
    (n_features s) (use_intercept s) (fixed_w s) (full_gradient s)
    (next_iterate s) v (grad_i_fixed_w s) (last_time s) (steps_correction s)
    (casted_prox s) (rand_index s) (columns_non_zeros_calls s).

Definition with_grad_i_fixed_w (v : list Qc) (s : SVRG) : SVRG :=
  Build_SVRG (epoch_size s) (t s) (model s) (prox s) (iterate s) (rand s)
    (step s) (variance_reduction s) (delayed_updates s)
    (ready_step_corrections s) (is_model_sparse s) (is_prox_separable s)
    (n_features s) (use_intercept s) (fixed_w s) (full_gradient s)
    (next_iterate s) (grad_i s) v (last_time s) (steps_correction s)
    (casted_prox s) (rand_index s) (columns_non_zeros_calls s).

Definition with_last_time (v : list ulong) (s : SVRG) : SVRG :=
  Build_SVRG (epoch_size s) (t s) (model s) (prox s) (iterate s) (rand s)
    (step s) (variance_reduction s) (delayed_updates s)
    (ready_step_corrections s) (is_model_sparse s) (is_prox_separable s)
    (n_features s) (use_intercept s) (fixed_w s) (full_gradient s)
    (next_iterate s) (grad_i s) (grad_i_fixed_w s) v (steps_correction s)
    (casted_prox s) (rand_index s) (columns_non_zeros_calls s).

Definition with_steps_correction (v : list Qc) (s : SVRG) : SVRG :=
  Build_SVRG (epoch_size s) (t s) (model s) (prox s) (iterate s) (rand s)
    (step s) (variance_reduction s) (delayed_updates s)
    (ready_step_corrections s) (is_model_sparse s) (is_prox_separable s)
    (n_features s) (use_intercept s) (fixed_w s) (full_gradient s)
    (next_iterate s) (grad_i s) (grad_i_fixed_w s) (last_time s) v
    (casted_prox s) (rand_index s) (columns_non_zeros_calls s).

Definition with_casted_prox (v : Prox.t) (s : SVRG) : SVRG :=
  Build_SVRG (epoch_size s) (t s) (model s) (prox s) (iterate s) (rand s)
    (step s) (variance_reduction s) (delayed_updates s)
    (ready_step_corrections s) (is_model_sparse s) (is_prox_separable s)
    (n_features s) (use_intercept s) (fixed_w s) (full_gradient s)
    (next_iterate s) (grad_i s) (grad_i_fixed_w s) (last_time s)
    (steps_correction s) v (rand_index s) (columns_non_zeros_calls s).

Definition with_rand_index (v : ulong) (s : SVRG) : SVRG :=
  Build_SVRG (epoch_size s) (t s) (model s) (prox s) (iterate s) (rand s)
    (step s) (variance_reduction s) (delayed_updates s)
    (ready_step_corrections s) (is_model_sparse s) (is_prox_separable s)
    (n_features s) (use_intercept s) (fixed_w s) (full_gradient s)
    (next_iterate s) (grad_i s) (grad_i_fixed_w s) (last_time s)
    (steps_correction s) (casted_prox s) v (columns_non_zeros_calls s).

Definition with_columns_non_zeros_calls (v : nat) (s : SVRG) : SVRG :=
  Build_SVRG (epoch_size s) (t s) (model s) (prox s) (iterate s) (rand s)
    (step s) (variance_reduction s) (delayed_updates s)
    (ready_step_corrections s) (is_model_sparse s) (is_prox_separable s)
    (n_features s) (use_intercept s) (fixed_w s) (full_gradient s)
    (next_iterate s) (grad_i s) (grad_i_fixed_w s) (last_time s)
    (steps_correction s) (casted_prox s) (rand_index s) v.

(** ** Methods *)

(** What stands for the model and prox pointers before [set_model] and
    [set_prox]. *)
Definition no_model : Model.t :=
  {| Model.is_sparse := false; Model.get_n_features := 0;
     Model.get_n_samples := 0; Model.use_intercept := false;
     Model.grad := fun w => w; Model.grad_i := fun _ w => w;
     Model.grad_i_factor := fun _ _ => 0%Qc;
     Model.get_features := fun _ => {| indices := []; data := [] |};
     Model.compute_columns_non_zeros := fun _ => 0 |}.

Definition no_prox : Prox.t :=
  {| Prox.is_separable := false; Prox.call := fun w _ => w;
     Prox.call_single := fun x _ => x; Prox.call_single_n := fun x _ _ => x |}.

(** [SVRG::SVRG]: the constructor arguments and the cache flag cleared.
    What [StoSolver] does with its own members is not in svrg.cpp: here
    they start empty, the counter at zero. *)
Definition SVRG_new (epoch_size : ulong) (rand : Sampler) (step : Qc)
    (variance_reduction : VarianceReductionMethod)
    (delayed_updates : DelayedUpdatesMethod) : SVRG :=
  {| epoch_size := epoch_size; t := 0; model := no_model; prox := no_prox;
     iterate := []; rand := rand; step := step;
     variance_reduction := variance_reduction;
     delayed_updates := delayed_updates;
     ready_step_corrections := false;
     is_model_sparse := false; is_prox_separable := false;
     n_features := 0; use_intercept := false;
     fixed_w := []; full_gradient := []; next_iterate := [];
     grad_i := []; grad_i_fixed_w := []; last_time := [];
     steps_correction := []; casted_prox := no_prox; rand_index := 0;
     columns_non_zeros_calls := O |}.

(** [SVRG::set_model]. *)
Definition set_model (m : Model.t) (s : SVRG) : SVRG :=
  let s := with_model m s in
  let s := with_ready_step_corrections false s in
  let s := with_is_model_sparse (Model.is_sparse m) s in
  if is_model_sparse s then
    let s := with_n_features (Model.get_n_features m) s in
    with_use_intercept (Model.use_intercept m) s
  else s.

(** [SVRG::set_prox]. *)
Definition set_prox (p : Prox.t) (s : SVRG) : SVRG :=
  let s := with_prox p s in
  with_is_prox_separable (Prox.is_separable p) s.

(** [SVRG::set_starting_iterate]. *)
Definition set_starting_iterate (new_iterate : list Qc) (s : SVRG) : SVRG :=
  let s := with_iterate new_iterate s in
  with_next_iterate (iterate s) s.

(** One turn of the loop of [compute_step_corrections]:
    [steps_correction[j] = static_cast<double>(n_samples / columns_non_zeros[j])],
    the quotient being the one of two [ulong]. *)
Definition step_correction_at (m : Model.t) (n_samples : ulong) (j : ulong)
    (steps_correction : list Qc) : outcome (list Qc) :=
  q ← udiv n_samples (Model.compute_columns_non_zeros m j);
  Returns (set steps_correction j (of_ulong q)).

(** [SVRG::compute_step_corrections]. *)
Definition compute_step_corrections (s : SVRG) : outcome SVRG :=
  if negb (ready_step_corrections s) then
    if Model.is_sparse (model s) && bool_decide (delayed_updates s = Proba) then
      let n_features := Model.get_n_features (model s) in
      let n_samples := Model.get_n_samples (model s) in
      let s := with_columns_non_zeros_calls (S (columns_non_zeros_calls s)) s in
      sc ← for_loopM (Z.to_nat n_features) 0
             (step_correction_at (model s) n_samples) (zeros n_features);
      let s := with_steps_correction sc s in
      Returns (with_ready_step_corrections true s)
    else Returns s
  else Returns s.

(** Lines 52-59 of [prepare_solve]: the snapshot index of the epoch. *)
Definition choose_rand_index (s : SVRG) : SVRG :=
  let s := with_rand_index 0 s in
  let s := if bool_decide (variance_reduction s = Random)
              || bool_decide (variance_reduction s = Average)
           then with_next_iterate (init_to_zero (next_iterate s)) s
           else s in
  if bool_decide (variance_reduction s = Random) then
    let '(r, g) := rand_unif (epoch_size s) (rand s) in
    with_rand_index r (with_rand g s)
  else s.

(** [SVRG::prepare_solve]. *)
Definition prepare_solve (s : SVRG) : outcome SVRG :=
  let s := with_fixed_w (next_iterate s) s in
  let s := with_full_gradient (Model.grad (model s) (fixed_w s)) s in
  s ← (if is_model_sparse s then
         let s := with_last_time (replicate (Z.to_nat (n_features s)) 0) s in
         s ← compute_step_corrections s;
         Returns (with_casted_prox (prox s) s)
       else
         let s := with_grad_i (zeros (size (iterate s))) s in
         Returns (with_grad_i_fixed_w (zeros (size (iterate s))) s));
  Returns (choose_rand_index s).

(** The variance-reduction statements that close an iteration, the same in
    the three routines (lines 103-108, 157-162 and 226-231); [k] is the
    iteration counter the routine compares with [rand_index]. *)
Definition select_snapshot (k : ulong) (s : SVRG) : SVRG :=
  let s := if bool_decide (variance_reduction s = Random)
              && bool_decide (k = rand_index s)
           then with_next_iterate (iterate s) s
           else s in
  if bool_decide (variance_reduction s = Average) then
    with_next_iterate
      (mult_incr (next_iterate s) (iterate s) (1 / of_ulong (epoch_size s))%Qc) s
  else s.

(** The statement that follows each loop (lines 110-112, 165-167, 249-251). *)
Definition keep_last (s : SVRG) : SVRG :=
  if bool_decide (variance_reduction s = Last) then
    with_next_iterate (iterate s) s
  else s.

(** [t += epoch_size] on the member [t]. *)
Definition add_epoch (s : SVRG) : SVRG :=
  with_t (wrap (t s + epoch_size s)) s.

(** *** Dense routine *)

(** Line 100, for the coordinate [j] of the iterate [w]. *)
Definition dense_coordinate (s : SVRG) (j : ulong) (w : list Qc) : list Qc :=
  set w j (get w j - step s * (get (grad_i s) j - get (grad_i_fixed_w s) j
                               + get (full_gradient s) j))%Qc.

(** The body of the loop of [solve_dense], [k] being its local counter. *)
Definition dense_iteration (k : ulong) (s : SVRG) : SVRG :=
  let '(i, g) := get_next_i (rand s) in
  let s := with_rand g s in
  let s := with_grad_i (Model.grad_i (model s) i (iterate s)) s in
  let s := with_grad_i_fixed_w (Model.grad_i (model s) i (fixed_w s)) s in
  let s := with_iterate
             (for_range (size (iterate s)) (dense_coordinate s) (iterate s)) s in
  let s := with_iterate (Prox.call (prox s) (iterate s) (step s)) s in
  select_snapshot k s.

(** [SVRG::solve_dense]. *)
Definition solve_dense (s : SVRG) : SVRG :=
  let s := for_range (epoch_size s) dense_iteration s in
  let s := keep_last s in
  add_epoch s.

(** *** Loops on the member [t] *)

(** [for (t = 0; t < epoch_size; ++t) body]: the member [t] is the counter,
    so the body reads it and the loop leaves it at [epoch_size]. *)
Fixpoint loop_t (n : nat) (body : SVRG -> SVRG) (s : SVRG) : SVRG :=
  match n with
  | O => s
  | S n' => let s := body s in loop_t n' body (with_t (t s + 1) s)
  end.

Definition for_t (body : SVRG -> SVRG) (s : SVRG) : SVRG :=
  loop_t (Z.to_nat (epoch_size s)) body (with_t 0 s).

(** Lines 146-154 and 215-223: the whole-vector prox when it is not
    separable, then the intercept. *)
Definition prox_and_intercept (grad_i_diff : Qc) (s : SVRG) : SVRG :=
  let s := if negb (is_prox_separable s) then
             with_iterate (Prox.call (prox s) (iterate s) (step s)) s
           else s in
  if use_intercept s then
    with_iterate
      (set (iterate s) (n_features s)
         (get (iterate s) (n_features s)
          - step s * (grad_i_diff + get (full_gradient s) (n_features s)))%Qc) s
  else s.

(** *** Sparse routine with probabilistic corrections *)

(** Lines 134-144, for the stored entry [idx_nnz] of the row [x_i]. *)
Definition proba_coordinate (x_i : SparseArray) (grad_i_diff : Qc)
    (idx_nnz : ulong) (s : SVRG) : SVRG :=
  let j := get (indices x_i) idx_nnz in
  let full_gradient_j := get (full_gradient s) j in
  let step_correction := get (steps_correction s) j in
  let s := with_iterate
             (set (iterate s) j
                (get (iterate s) j
                 - step s * (get (data x_i) idx_nnz * grad_i_diff
                             + step_correction * full_gradient_j))%Qc) s in
  if is_prox_separable s then
    with_iterate
      (set (iterate s) j
         (Prox.call_single (casted_prox s) (get (iterate s) j)
            (step s * step_correction)%Qc)) s
  else s.

(** The body of the loop of [solve_sparse_proba_updates]. *)
Definition proba_iteration (s : SVRG) : SVRG :=
  let '(i, g) := get_next_i (rand s) in
  let s := with_rand g s in
  let x_i := Model.get_features (model s) i in
  let grad_i_diff := (Model.grad_i_factor (model s) i (iterate s)
                      - Model.grad_i_factor (model s) i (fixed_w s))%Qc in
  let s := for_range (size_sparse x_i) (proba_coordinate x_i grad_i_diff) s in
  let s := prox_and_intercept grad_i_diff s in
  select_snapshot (t s) s.

(** [SVRG::solve_sparse_proba_updates]. *)
Definition solve_sparse_proba_updates (s : SVRG) : SVRG :=
  let s := for_t proba_iteration s in
  let s := add_epoch s in
  keep_last s.

(** *** Sparse routine with exact delayed updates *)

(** Lines 190-194 and 236-240: the number of iterations coordinate [j]
    missed, from the counter [t] and [last_time[j]]. *)
Definition delay (t last_time_j : ulong) : ulong :=
  let last_time_j_plus_one := wrap (last_time_j + 1) in
  if bool_decide (t > last_time_j_plus_one) then t - last_time_j_plus_one
  else 0.

(** Lines 198-205 and 241-246: the catch-up of coordinate [j]. *)
Definition catch_up (j delay_j : ulong) (s : SVRG) : SVRG :=
  if bool_decide (delay_j > 0) then
    let s := with_iterate
               (set (iterate s) j
                  (get (iterate s) j
                   - step s * of_ulong delay_j * get (full_gradient s) j)%Qc) s in
    if is_prox_separable s then
      with_iterate
        (set (iterate s) j
           (Prox.call_single_n (casted_prox s) (get (iterate s) j) (step s)
              delay_j)) s
    else s
  else s.

(** Lines 187-213, for the stored entry [idx_nnz] of the row [x_i]. *)
Definition exact_coordinate (x_i : SparseArray) (grad_i_diff : Qc)
    (idx_nnz : ulong) (s : SVRG) : SVRG :=
  let j := get (indices x_i) idx_nnz in
  let delay_j := delay (t s) (get (last_time s) j) in
  let full_gradient_j := get (full_gradient s) j in
  let s := catch_up j delay_j s in
  let s := with_iterate
             (set (iterate s) j
                (get (iterate s) j
                 - step s * (get (data x_i) idx_nnz * grad_i_diff
                             + full_gradient_j))%Qc) s in
  let s := if is_prox_separable s then
             with_iterate
               (set (iterate s) j
                  (Prox.call_single (casted_prox s) (get (iterate s) j)
                     (step s))) s
           else s in
  with_last_time (set (last_time s) j (t s)) s.

(** The body of the first loop of [solve_sparse_exact_updates]. *)
Definition exact_iteration (s : SVRG) : SVRG :=
  let '(i, g) := get_next_i (rand s) in
  let s := with_rand g s in
  let x_i := Model.get_features (model s) i in
  let grad_i_diff := (Model.grad_i_factor (model s) i (iterate s)
                      - Model.grad_i_factor (model s) i (fixed_w s))%Qc in
  let s := for_range (size_sparse x_i) (exact_coordinate x_i grad_i_diff) s in
  let s := prox_and_intercept grad_i_diff s in
  select_snapshot (t s) s.

(** The body of the second loop (lines 235-247), for the coordinate [j]. *)
Definition finalize_coordinate (j : ulong) (s : SVRG) : SVRG :=
  catch_up j (delay (t s) (get (last_time s) j)) s.

(** [SVRG::solve_sparse_exact_updates]. *)
Definition solve_sparse_exact_updates (s : SVRG) : SVRG :=
  let s := for_t exact_iteration s in
  let s := for_range (n_features s) finalize_coordinate s in
  let s := add_epoch s in
  keep_last s.

(** *** The epoch *)

(** [SVRG::solve]. *)
Definition solve (s : SVRG) : outcome SVRG :=
  s ← prepare_solve s;
  if Model.is_sparse (model s) then
    let s := if bool_decide (delayed_updates s = Exact) then
               solve_sparse_exact_updates s
             else s in
    let s := if bool_decide (delayed_updates s = Proba) then
               solve_sparse_proba_updates s
             else s in
    Returns s
  else Returns (solve_dense s).

(** [n] calls of [solve] in a row. *)
Fixpoint solve_epochs (n : nat) (s : SVRG) : outcome SVRG :=
  match n with
  | O => Returns s
  | S n' => s' ← solve s; solve_epochs n' s'
  end.

(** ** What the update routines leave alone *)

(** The members no update routine writes. *)
Definition settings (s : SVRG) :=
  (epoch_size s, model s, prox s, step s, variance_reduction s,
   delayed_updates s, ready_step_corrections s, is_model_sparse s,
   is_prox_separable s, n_features s, use_intercept s, fixed_w s,
   full_gradient s, steps_correction s, casted_prox s, rand_index s,
   columns_non_zeros_calls s).

(** What the updates of the iterate inside an iteration leave alone: the
    counter and the snapshot too. *)
Definition update_frame (s : SVRG) := (t s, next_iterate s, settings s).

(** The members [prepare_solve] does not write. *)
Definition bindings (s : SVRG) :=
  (epoch_size s, t s, model s, prox s, iterate s, step s,
   variance_reduction s, delayed_updates s, is_model_sparse s,
   is_prox_separable s, n_features s, use_intercept s).

(** The members only [set_model], [set_prox] and the constructor write. *)
Definition constants (s : SVRG) :=
  (epoch_size s, model s, prox s, step s, variance_reduction s,
   delayed_updates s, is_model_sparse s, is_prox_separable s, n_features s,
   use_intercept s).

(** The step-correction cache, with the count of the calls made to the
    model's [compute_columns_non_zeros]. *)
Definition cache (s : SVRG) :=
  (ready_step_corrections s, steps_correction s, columns_non_zeros_calls s).

(** ** Step corrections *)

(** No feature column of the model is empty. *)
Definition no_zero_column (m : Model.t) : Prop :=
  forall j, 0 <= j < Model.get_n_features m ->
            Model.compute_columns_non_zeros m j <> 0.

(** [compute_step_corrections] meets no zero divisor. *)
Definition no_division_by_zero (s : SVRG) : Prop :=
  is_model_sparse s = true -> ready_step_corrections s = false ->
  Model.is_sparse (model s) = true -> delayed_updates s = Proba ->
  no_zero_column (model s).

(** Some feature column of the model has no stored entry. *)
Definition has_zero_column (m : Model.t) : Prop :=
  exists j, 0 <= j < Model.get_n_features m
            /\ Model.compute_columns_non_zeros m j = 0.

(** The array the loop of [compute_step_corrections] builds when no
    division fails. *)
Definition quotient_corrections (m : Model.t) : list Qc :=
  for_range (Model.get_n_features m)
    (fun j sc =>
       set sc j (of_ulong (Model.get_n_samples m
                           / Model.compute_columns_non_zeros m j)))
    (zeros (Model.get_n_features m)).

(** ** The updates as the specification words them *)

(** The value the specification of the probabilistic routine gives to the
    coordinate of the stored entry [k] of [x_i]: the gradient step with the
    corrected full gradient, then the single-coordinate prox with the
    corrected step when the prox is separable. *)
Definition spec_proba_update (s : SVRG) (x_i : SparseArray) (grad_i_diff : Qc)
    (k : ulong) : Qc :=
  let j := get (indices x_i) k in
  let step_correction := get (steps_correction s) j in
  let v := (get (iterate s) j
            - step s * (get (data x_i) k * grad_i_diff
                        + step_correction * get (full_gradient s) j))%Qc in
  if is_prox_separable s then
    Prox.call_single (casted_prox s) v (step s * step_correction)%Qc
  else v.

(** [d] single-step decrements by the full gradient, one after the other. *)
Definition sequential_decrements (step full_gradient_j : Qc) (d : nat)
    (w : Qc) : Qc :=
  Nat.iter d (fun y => (y - step * full_gradient_j)%Qc) w.

(** [d] single-step applications of the separable prox, one after the
    other. *)
Definition sequential_prox (p : Prox.t) (step : Qc) (d : nat) (w : Qc) : Qc :=
  Nat.iter d (fun y => Prox.call_single p y step) w.

(** The unbatched form the specification compares the exact routine with,
    for the coordinate of the stored entry [k] of [x_i] after [d] missed
    iterations: the [d] decrements, the [d] prox steps, then the update on
    the support with its single prox step. *)
Definition spec_sequential_update (s : SVRG) (x_i : SparseArray)
    (grad_i_diff : Qc) (k : ulong) (d : nat) : Qc :=
  let j := get (indices x_i) k in
  let full_gradient_j := get (full_gradient s) j in
  let w := sequential_prox (casted_prox s) (step s) d
             (sequential_decrements (step s) full_gradient_j d
                (get (iterate s) j)) in
  Prox.call_single (casted_prox s)
    (w - step s * (get (data x_i) k * grad_i_diff + full_gradient_j))%Qc
    (step s).

(** The other order: each missed iteration decrements and then applies the
    prox, as an iteration on the whole vector does. *)
Definition interleaved_catch_up (p : Prox.t) (step full_gradient_j : Qc)
    (d : nat) (w : Qc) : Qc :=
  Nat.iter d (fun y => Prox.call_single p (y - step * full_gradient_j)%Qc step)
    w.

(** Modelled from the spec: [ProxSeparable] is not part of svrg.cpp; its
    batched [call_single(x, step, n)] is the equivalent of [n] consecutive
    single-step applications. *)
Definition batched_prox_contract (p : Prox.t) : Prop :=
  forall x step n, 0 <= n ->
    Prox.call_single_n p x step n
    = Nat.iter (Z.to_nat n) (fun y => Prox.call_single p y step) x.

(** The stored entries of a row lie at distinct coordinates, all of them
    coordinates of the array [w]. *)
Definition row_fits (x : SparseArray) (w : list Qc) : Prop :=
  (forall k, 0 <= k < size_sparse x -> 0 <= get (indices x) k < size w)
  /\ (forall a b, 0 <= a < size_sparse x -> 0 <= b < size_sparse x ->
                  a <> b -> get (indices x) a <> get (indices x) b).

(** The solver after the first [n] iterations of the loop of the routine
    that [solve] runs on [s]. *)
Definition epoch_prefix (n : nat) (s : SVRG) : SVRG :=
  if Model.is_sparse (model s) then
    match delayed_updates s with
    | Exact => loop_t n exact_iteration (with_t 0 s)
    | Proba => loop_t n proba_iteration (with_t 0 s)
    | UnlistedDelayedUpdates _ => s
    end
  else for_loop n 0 dense_iteration s.

(** ** Data to run the solver on *)

#[global] Instance SparseArray_inhabited : Inhabited SparseArray :=
  populate {| indices := []; data := [] |}.

(** [x . w] for a sparse row [x]. *)
Definition inner (x : SparseArray) (w : list Qc) : Qc :=
  for_range (size_sparse x)
    (fun k acc => (acc + get (data x) k * get w (get (indices x) k))%Qc) 0%Qc.

(** The row [x] as a dense vector of [n] coordinates. *)
Definition to_dense (n : ulong) (x : SparseArray) : list Qc :=
  for_range (size_sparse x)
    (fun k a => set a (get (indices x) k) (get (data x) k)) (zeros n).

Definition scale (c : Qc) (v : list Qc) : list Qc := map (Qcmult c) v.
Definition add_vec (a b : list Qc) : list Qc := zip_with Qcplus a b.

(** The number of rows that store an entry at column [j]. *)
Definition count_column (features : list SparseArray) (j : ulong) : ulong :=
  size (filter (fun x => j ∈ indices x) features).

(** A least-squares model without intercept over the rows [features] and
    the labels [labels]: the loss of sample [i] is
    [(x_i . w - labels[i])^2 / 2]. *)
Definition least_squares (sparse : bool) (n : ulong)
    (features : list SparseArray) (labels : list Qc) : Model.t :=
  let factor i w := (inner (get features i) w - get labels i)%Qc in
  let grad_i i w := scale (factor i w) (to_dense n (get features i)) in
  {| Model.is_sparse := sparse;
     Model.get_n_features := n;
     Model.get_n_samples := size features;
     Model.use_intercept := false;
     Model.grad := fun w =>
       scale (1 / of_ulong (size features))%Qc
         (for_range (size features) (fun i acc => add_vec acc (grad_i i w))
            (zeros n));
     Model.grad_i := grad_i;
     Model.grad_i_factor := factor;
     Model.get_features := get features;
     Model.compute_columns_non_zeros := count_column features |}.

(** No penalty: the prox is the identity. *)
Definition prox_zero : Prox.t :=
  {| Prox.is_separable := true;
     Prox.call := fun w _ => w;
     Prox.call_single := fun x _ => x;
     Prox.call_single_n := fun x _ _ => x |}.

(** The projection on the non-negative half-line, which ignores the step. *)
Definition positive_part (x : Qc) : Qc :=
  if bool_decide (x < 0)%Qc then 0%Qc else x.

Definition prox_positive : Prox.t :=
  {| Prox.is_separable := true;
     Prox.call := fun w _ => map positive_part w;
     Prox.call_single := fun x _ => positive_part x;
     Prox.call_single_n := fun x _ _ => positive_part x |}.

(** A ridge penalty of strength one: [x / (1 + step)], applied [n] times
    by the batched form. *)
Definition prox_ridge : Prox.t :=
  {| Prox.is_separable := true;
     Prox.call := fun w step => map (fun x => x / (1 + step))%Qc w;
     Prox.call_single := fun x step => (x / (1 + step))%Qc;
     Prox.call_single_n := fun x step n =>
       Nat.iter (Z.to_nat n) (fun y => y / (1 + step))%Qc x |}.

(** A generator that replays the list [l], reduced to the range asked for
    by [rand_unif]. *)
Definition replay (l : list ulong) : Sampler :=
  {| draw_i := fun k => l !!! k;
     draw_unif := fun k max => (l !!! k) mod max;
     n_draws := O |}.

(** A solver built the way a caller builds one. *)
Definition make_solver (epoch_size : ulong) (draws : list ulong) (step : Qc)
    (variance_reduction : VarianceReductionMethod)
    (delayed_updates : DelayedUpdatesMethod)
    (m : Model.t) (p : Prox.t) (w : list Qc) : SVRG :=
  set_starting_iterate w
    (set_prox p
       (set_model m
          (SVRG_new epoch_size (replay draws) step variance_reduction
             delayed_updates))).

(** Two samples over two features, [x_0 = (1, 0)] and [x_1 = (0, 1)], with
    labels [0] and [1]. *)
Definition two_rows : list SparseArray :=
  [ {| indices := [0]; data := [1%Qc] |};
    {| indices := [1]; data := [1%Qc] |} ].
Definition two_labels : list Qc := [0%Qc; 1%Qc].

(** Three samples over two features; the second feature is stored in two of
    them. *)
Definition three_rows : list SparseArray :=
  [ {| indices := [0; 1]; data := [1%Qc; 1%Qc] |};
    {| indices := [0; 1]; data := [1%Qc; 1%Qc] |};
    {| indices := [0]; data := [1%Qc] |} ].
Definition three_labels : list Qc := [0%Qc; 1%Qc; 1%Qc].

(** One sample over two features that never stores the second one. *)
Definition one_row : list SparseArray :=
  [ {| indices := [0]; data := [1%Qc] |} ].
Definition one_label : list Qc := [1%Qc].


(** A sparse model in probabilistic mode, three samples. *)
Definition proba_three : SVRG :=
  make_solver 1 [0; 0] 1%Qc Last Proba
    (least_squares true 2 three_rows three_labels) prox_zero [0%Qc; 0%Qc].

(** A sparse model in probabilistic mode whose second column is empty. *)
Definition proba_empty_column : SVRG :=
  make_solver 1 [0; 0] 1%Qc Last Proba
    (least_squares true 2 one_row one_label) prox_zero [0%Qc; 0%Qc].

(** A sparse model with a delayed-update value that is no enumerator. *)
Definition unlisted_policy : SVRG :=
  make_solver 1 [0; 0] 1%Qc Last (UnlistedDelayedUpdates 7)
    (least_squares true 2 two_rows two_labels) prox_zero [0%Qc; 0%Qc].

(** A sparse model with exact delayed updates. *)
Definition exact_two : SVRG :=
  make_solver 1 [0; 0] 1%Qc Last Exact
    (least_squares true 2 two_rows two_labels) prox_zero [0%Qc; 0%Qc].

(** The same two samples as a dense model. *)
Definition dense_two : SVRG :=
  make_solver 1 [0; 0] 1%Qc Last Exact
    (least_squares false 2 two_rows two_labels) prox_zero [0%Qc; 0%Qc].

(** A dense model, a zero step, no penalty. *)
Definition dense_zero_step : SVRG :=
  make_solver 2 [0; 1; 0; 1] 0%Qc Last Exact
    (least_squares false 2 two_rows two_labels) prox_zero [1%Qc; 1%Qc].

(** A dense model, a zero step, and the projection on the non-negative
    vectors as prox; the starting iterate has a negative coordinate. *)
Definition dense_positive : SVRG :=
  make_solver 1 [0; 0] 0%Qc Last Exact
    (least_squares false 2 two_rows two_labels) prox_positive
    [(-1)%Qc; 0%Qc].

(** A row with two stored entries. *)
Definition full_row : SparseArray :=
  {| indices := [1; 0]; data := [2%Qc; of_ulong 3] |}.

(** A solver in the middle of an epoch of the exact routine: the counter is
    at [3] and no coordinate was touched since iteration [0]. *)
Definition exact_ready : SVRG :=
  with_t 3
    (with_last_time [0; 0]
       (with_casted_prox prox_ridge
          (with_full_gradient [1%Qc; (-1)%Qc]
             (make_solver 4 [0; 0] (1 / 2)%Qc Last Exact
                (least_squares true 2 [full_row] [1%Qc]) prox_ridge
                [of_ulong 4; of_ulong 5])))).

(** Three epochs worth of data with the policy [Random]: the generator
    answers [1] to the draw of the snapshot index. *)
Definition random_dense : SVRG :=
  make_solver 3 [1; 0; 1; 0] (1 / 2)%Qc Random Exact
    (least_squares false 2 two_rows two_labels) prox_zero [1%Qc; 1%Qc].

(** An epoch of three iterations that samples the first row each time, with
    exact delayed updates, and the same epoch on the same data as a dense
    model. *)
Definition exact_three_iterations : SVRG :=
  make_solver 3 [0; 0; 0] 1%Qc Last Exact
    (least_squares true 2 two_rows two_labels) prox_zero [0%Qc; 0%Qc].

Definition dense_three_iterations : SVRG :=
  make_solver 3 [0; 0; 0] 1%Qc Last Exact
    (least_squares false 2 two_rows two_labels) prox_zero [0%Qc; 0%Qc].

(** ** Vocabulary for further properties of the routines *)

(** The iterate at the end of each of the first [n] iterations of the epoch
    that [solve] runs on [s], in order. *)
Definition epoch_iterates (n : nat) (s : SVRG) : list (list Qc) :=
  map (fun k => iterate (epoch_prefix (S k) s)) (seq 0 n).

(** The accumulator after the vectors [ws] have been added to it in turn,
    each with the weight [c]. *)
Definition accumulate (c : Qc) (acc : list Qc) (ws : list (list Qc)) :
    list Qc :=
  fold_left (fun a w => mult_incr a w c) ws acc.

(** A dense model under the policy [Average], two iterations. *)
Definition average_dense : SVRG :=
  make_solver 2 [0; 1; 0] (1 / 2)%Qc Average Exact
    (least_squares false 2 two_rows two_labels) prox_zero [1%Qc; 1%Qc].

(** An epoch without iteration on a sparse model. *)
Definition exact_no_iteration : SVRG :=
  make_solver 0 [0; 0] 1%Qc Last Exact
    (least_squares true 2 two_rows two_labels) prox_ridge [1%Qc; 1%Qc].

(** The sample index an iteration that starts in [s] gets from
    [get_next_i]. *)
Definition next_sample (s : SVRG) : ulong := (get_next_i (rand s)).1.

(** The variance-reduced gradient step at the coordinate [j], for the
    sample [i]: the gradient of the sample at the iterate, minus its
    gradient at the reference point, plus the full gradient. *)
Definition svrg_step (s : SVRG) (i j : ulong) : Qc :=
  (get (iterate s) j
   - step s * (get (Model.grad_i (model s) i (iterate s)) j
               - get (Model.grad_i (model s) i (fixed_w s)) j
               + get (full_gradient s) j))%Qc.

(** The solver sits at [w]: iterate and reference point are [w], the full
    gradient is zero and the prox leaves [w] where it is. *)
Definition sits_at (w : list Qc) (s : SVRG) : Prop :=
  iterate s = w /\ fixed_w s = w
  /\ (forall j, get (full_gradient s) j = 0%Qc)
  /\ Prox.call (prox s) w (step s) = w.

(** A dense model started at the minimiser of its two samples. *)
Definition dense_at_optimum : SVRG :=
  make_solver 2 [0; 1; 1; 0] (1 / 2)%Qc Last Exact
    (least_squares false 2 two_rows two_labels) prox_zero [0%Qc; 1%Qc].

(** No stored entry of the row [x] lies at the coordinate [j]. *)
Definition row_avoids (x : SparseArray) (j : ulong) : Prop :=
  forall k, 0 <= k < size_sparse x ->
            0 <= get (indices x) k /\ get (indices x) k <> j.

(** The sample index the [k]-th iteration from [s] gets from
    [get_next_i]. *)
Definition sample_of (s : SVRG) (k : nat) : ulong :=
  draw_i (rand s) (n_draws (rand s) + k).

(** None of the next [n] samples stores the coordinate [j]. *)
Definition never_sampled (s : SVRG) (n : nat) (j : ulong) : Prop :=
  forall k, (k < n)%nat ->
            row_avoids (Model.get_features (model s) (sample_of s k)) j.

(** The difference of the gradient factors of the sample [i], at the
    iterate and at the reference point (lines 131 and 184). *)
Definition grad_i_diff_of (s : SVRG) (i : ulong) : Qc :=
  (Model.grad_i_factor (model s) i (iterate s)
   - Model.grad_i_factor (model s) i (fixed_w s))%Qc.

(** A sparse model with an intercept: two features and the intercept at
    the third coordinate. *)
Definition with_intercept (m : Model.t) : Model.t :=
  {| Model.is_sparse := Model.is_sparse m;
     Model.get_n_features := Model.get_n_features m;
     Model.get_n_samples := Model.get_n_samples m;
     Model.use_intercept := true;
     Model.grad := Model.grad m;
     Model.grad_i := Model.grad_i m;
     Model.grad_i_factor := Model.grad_i_factor m;
     Model.get_features := Model.get_features m;
     Model.compute_columns_non_zeros := Model.compute_columns_non_zeros m |}.

Definition exact_intercept : SVRG :=
  with_full_gradient [1%Qc; (-1)%Qc; 2%Qc]
    (make_solver 3 [0; 0; 0] (1 / 2)%Qc Last Exact
       (with_intercept (least_squares true 2 two_rows two_labels))
       prox_ridge [1%Qc; 1%Qc; 1%Qc]).

(** The value lines 241-246 leave at the coordinate [j] for the delay
    [d], from the solver [s] they start in. *)
Definition caught_up (s : SVRG) (j d : ulong) : Qc :=
  if bool_decide (d > 0) then
    let v := (get (iterate s) j
              - step s * of_ulong d * get (full_gradient s) j)%Qc in
    if is_prox_separable s then
      Prox.call_single_n (casted_prox s) v (step s) d
    else v
  else get (iterate s) j.

(** The solver [exact_three_iterations] as [prepare_solve] leaves it. *)
Definition exact_three_prepared : SVRG :=
  with_casted_prox prox_zero
    (with_last_time [0; 0]
       (with_full_gradient [0%Qc; (- (1 / 2))%Qc]
          (with_fixed_w [0%Qc; 0%Qc] exact_three_iterations))).

(** Every row of the model stores all the [n] coordinates, in order. *)
Definition full_rows (n : ulong) (m : Model.t) : Prop :=
  forall i, size_sparse (Model.get_features m i) = n
            /\ forall k, 0 <= k < n ->
                         get (indices (Model.get_features m i)) k = k.

(** The gradient of a sample is its gradient factor times its row, as for
    a generalized linear model. *)
Definition linear_gradients (n : ulong) (m : Model.t) : Prop :=
  forall i w j, 0 <= j < n ->
    get (Model.grad_i m i w) j
    = (Model.grad_i_factor m i w * get (data (Model.get_features m i)) j)%Qc.

(** The whole-vector prox returns a vector of the size it was given. *)
Definition prox_keeps_size (p : Prox.t) : Prop :=
  forall w step, size (Prox.call p w step) = size w.

(** Two solvers at the same point of the same run: same iterate, same
    snapshot, same generator and same settings. *)
Definition same_run (a b : SVRG) : Prop :=
  iterate a = iterate b /\ next_iterate a = next_iterate b
  /\ rand a = rand b /\ settings a = settings b.

(** The exact routine at the start of the iteration [k] of an epoch in
    which every iteration has written all the [n] coordinates. *)
Definition all_touched (n k : ulong) (a : SVRG) : Prop :=
  t a = k /\ size (iterate a) = n /\ n <= size (last_time a)
  /\ (1 <= k -> forall j, 0 <= j < n -> get (last_time a) j = k - 1).

(** A least-squares model whose two rows store both features, given as a
    sparse model; samples beyond the second are the second. *)
Definition full_model : Model.t :=
  let row i := if bool_decide (i = 0)
               then {| indices := [0; 1]; data := [1%Qc; 2%Qc] |}
               else {| indices := [0; 1]; data := [(-1)%Qc; 1%Qc] |} in
  let label i := if bool_decide (i = 0) then 1%Qc else 2%Qc in
  let factor i w := (inner (row i) w - label i)%Qc in
  {| Model.is_sparse := true;
     Model.get_n_features := 2;
     Model.get_n_samples := 2;
     Model.use_intercept := false;
     Model.grad := fun w =>
       scale (1 / 2)%Qc
         (add_vec (scale (factor 0 w) (data (row 0)))
            (scale (factor 1 w) (data (row 1))));
     Model.grad_i := fun i w => scale (factor i w) (data (row i));
     Model.grad_i_factor := factor;
     Model.get_features := row;
     Model.compute_columns_non_zeros := fun _ => 2 |}.

(** A prox that is not separable: it subtracts from every coordinate the
    step times the first coordinate. *)
Definition prox_coupled : Prox.t :=
  {| Prox.is_separable := false;
     Prox.call := fun w step => map (fun x => x - step * get w 0%Z)%Qc w;
     Prox.call_single := fun x _ => x;
     Prox.call_single_n := fun x _ _ => x |}.

(** The solver on [full_model], prepared for an epoch of three
    iterations. *)
Definition exact_full : SVRG :=
  with_last_time [0; 0]
    (with_full_gradient [1%Qc; (- (1 / 2))%Qc]
       (with_fixed_w [1%Qc; 1%Qc]
          (make_solver 3 [0; 1; 1] (1 / 2)%Qc Last Exact full_model
             prox_coupled [1%Qc; 1%Qc]))).

(** ** Vocabulary for the iterations of the sparse routines *)

(** The solver as [prepare_solve] leaves it, where the preparer returns. *)
Definition prepared (s : SVRG) : SVRG :=
  match prepare_solve s with
  | Returns p => p
  | _ => s
  end.

(** The row an iteration that starts in [s] reads (lines 128 and 181). *)
Definition sampled_row (s : SVRG) : SparseArray :=
  Model.get_features (model s) (next_sample s).

(** The indices of the row [x] are indices ([ulong] values), and one of its
    entries lies at the coordinate [j]. *)
Definition row_stores (x : SparseArray) (j : ulong) : Prop :=
  (forall k, 0 <= k < size_sparse x -> 0 <= get (indices x) k)
  /\ exists k, 0 <= k < size_sparse x /\ get (indices x) k = j.

(** The row [x] stores the coordinate [j] at its entry [k] and at no other
    entry. *)
Definition stores_once (x : SparseArray) (k j : ulong) : Prop :=
  0 <= k < size_sparse x /\ get (indices x) k = j
  /\ forall k', 0 <= k' < size_sparse x -> k' <> k ->
                0 <= get (indices x) k' /\ get (indices x) k' <> j.

(** Lines 150-154 on the vector [w], for the solver [s] and the factor
    difference [grad_i_diff]. *)
Definition intercept_step (s : SVRG) (grad_i_diff : Qc) (w : list Qc) :
    list Qc :=
  if use_intercept s then
    set w (n_features s)
      (get w (n_features s)
       - step s * (grad_i_diff + get (full_gradient s) (n_features s)))%Qc
  else w.

(** Four samples over two features; the first feature is stored in two of
    them and the second in all four. *)
Definition four_rows : list SparseArray :=
  [ {| indices := [0; 1]; data := [1%Qc; 2%Qc] |};
    {| indices := [1]; data := [1%Qc] |};
    {| indices := [1]; data := [(-1)%Qc] |};
    {| indices := [0; 1]; data := [2%Qc; 1%Qc] |} ].
Definition four_labels : list Qc := [1%Qc; 0%Qc; 1%Qc; 2%Qc].

(** A sparse model in probabilistic mode with a ridge penalty and an epoch
    of two iterations, which sample the last and then the first row. *)
Definition proba_four : SVRG :=
  make_solver 2 [3; 0] (1 / 2)%Qc Last Proba
    (least_squares true 2 four_rows four_labels) prox_ridge [1%Qc; 1%Qc].

(** The same model with a prox that is not separable. *)
Definition proba_four_coupled : SVRG :=
  make_solver 2 [3; 0] (1 / 2)%Qc Last Proba
    (least_squares true 2 four_rows four_labels) prox_coupled [1%Qc; 1%Qc].

(** An epoch of three iterations of the exact routine that samples the
    first row twice and then the second row: the second coordinate is left
    aside for the iterations [0] and [1] and met at the iteration [2]. *)
Definition exact_late_touch : SVRG :=
  make_solver 3 [0; 0; 1] 1%Qc Last Exact
    (least_squares true 2 two_rows two_labels) prox_zero [0%Qc; 0%Qc].

(** An epoch of four iterations of the exact routine with a ridge penalty
    that samples the second row, the first row twice, and the second row
    again. *)
Definition exact_touched_again : SVRG :=
  make_solver 4 [1; 0; 0; 1] (1 / 2)%Qc Last Exact
    (least_squares true 2 two_rows two_labels) prox_ridge
    [1%Qc; of_ulong 3].
(** * Properties *)

(** ** Loops *)

Lemma for_loop_app {St : Type} (a b : nat) (k : ulong)
    (body : ulong -> St -> St) (s : St) :
  for_loop (a + b) k body s
  = for_loop b (k + Z.of_nat a) body (for_loop a k body s).
Proof.
  revert k s. induction a as [|a IH]; intros k s.
  - simpl. by rewrite Z.add_0_r.
  - change (S a + b)%nat with (S (a + b)). cbn [for_loop]. rewrite IH.
    f_equal. lia.
Qed.

Lemma for_loop_S {St : Type} (n : nat) (k : ulong)
    (body : ulong -> St -> St) (s : St) :
  for_loop (S n) k body s = for_loop n (k + 1) body (body k s).
Proof. reflexivity. Qed.

Lemma for_loop_invariant {St B : Type} (f : St -> B) (body : ulong -> St -> St) :
  (forall k s, f (body k s) = f s) ->
  forall n k s, f (for_loop n k body s) = f s.
Proof.
  intros Hbody n. induction n as [|n IH]; intros k s; [done|].
  cbn [for_loop]. by rewrite IH.
Qed.

Lemma loop_t_app (a b : nat) (body : SVRG -> SVRG) (s : SVRG) :
  loop_t (a + b) body s = loop_t b body (loop_t a body s).
Proof.
  revert s. induction a as [|a IH]; intros s; [done|].
  change (S a + b)%nat with (S (a + b)). cbn [loop_t]. by rewrite IH.
Qed.

Lemma loop_t_S (n : nat) (body : SVRG -> SVRG) (s : SVRG) :
  loop_t (S n) body s = loop_t n body (with_t (t (body s) + 1) (body s)).
Proof. reflexivity. Qed.

Lemma loop_t_invariant {B : Type} (f : SVRG -> B) (body : SVRG -> SVRG) :
  (forall s, f (body s) = f s) ->
  (forall v s, f (with_t v s) = f s) ->
  forall n s, f (loop_t n body s) = f s.
Proof.
  intros Hbody Ht n. induction n as [|n IH]; intros s; [done|].
  cbn [loop_t]. cbn zeta. by rewrite IH, Ht.
Qed.

(** The counter of a loop on [t] after [n] turns, for a body that leaves
    [t] alone. *)
Lemma loop_t_counter (body : SVRG -> SVRG) :
  (forall s, t (body s) = t s) ->
  forall n s, t (loop_t n body s) = t s + Z.of_nat n.
Proof.
  intros Hbody n. induction n as [|n IH]; intros s.
  - simpl. lia.
  - cbn [loop_t]. cbn zeta. rewrite IH. cbn [t with_t]. rewrite Hbody. lia.
Qed.

(** ** Members the routines do not write *)

Lemma update_frame_settings s s' :
  update_frame s' = update_frame s -> settings s' = settings s.
Proof. unfold update_frame. congruence. Qed.

Lemma update_frame_t s s' : update_frame s' = update_frame s -> t s' = t s.
Proof. unfold update_frame. congruence. Qed.

Lemma update_frame_next_iterate s s' :
  update_frame s' = update_frame s -> next_iterate s' = next_iterate s.
Proof. unfold update_frame. congruence. Qed.

Lemma frame_prox_and_intercept g s :
  update_frame (prox_and_intercept g s) = update_frame s.
Proof. unfold prox_and_intercept. repeat case_match; reflexivity. Qed.

Lemma frame_proba_coordinate x g k s :
  update_frame (proba_coordinate x g k s) = update_frame s.
Proof. unfold proba_coordinate. cbn. case_match; reflexivity. Qed.

Lemma frame_catch_up j d s : update_frame (catch_up j d s) = update_frame s.
Proof. unfold catch_up. repeat case_match; reflexivity. Qed.

Lemma frame_exact_coordinate x g k s :
  update_frame (exact_coordinate x g k s) = update_frame s.
Proof.
  unfold exact_coordinate. cbn zeta.
  match goal with |- context [catch_up ?j ?d s] =>
    generalize (frame_catch_up j d s); generalize (catch_up j d s) end.
  intros s' <-. case_match; reflexivity.
Qed.

Lemma frame_finalize_coordinate j s :
  update_frame (finalize_coordinate j s) = update_frame s.
Proof. apply frame_catch_up. Qed.

(** The snapshot statements write [next_iterate] only. *)
Lemma select_snapshot_keeps k s :
  settings (select_snapshot k s) = settings s
  /\ t (select_snapshot k s) = t s
  /\ iterate (select_snapshot k s) = iterate s
  /\ last_time (select_snapshot k s) = last_time s.
Proof. unfold select_snapshot. repeat case_match; done. Qed.

Lemma settings_select_snapshot k s :
  settings (select_snapshot k s) = settings s.
Proof. apply select_snapshot_keeps. Qed.

Lemma settings_keep_last s : settings (keep_last s) = settings s.
Proof. unfold keep_last. case_match; reflexivity. Qed.

Lemma settings_add_epoch s : settings (add_epoch s) = settings s.
Proof. reflexivity. Qed.

Lemma settings_with_t v s : settings (with_t v s) = settings s.
Proof. reflexivity. Qed.

(** Every iteration is an update of the iterate followed by the snapshot
    statements. *)
Lemma dense_iteration_snapshot k s :
  exists u, dense_iteration k s = select_snapshot k u
            /\ update_frame u = update_frame s.
Proof. unfold dense_iteration. cbn. eexists. split; reflexivity. Qed.

Lemma proba_iteration_snapshot s :
  exists u, proba_iteration s = select_snapshot (t s) u
            /\ update_frame u = update_frame s.
Proof.
  unfold proba_iteration. cbn. eexists. split; [|shelve].
  f_equal. Unshelve.
  2:{ rewrite frame_prox_and_intercept. unfold for_range.
      by rewrite (for_loop_invariant update_frame _
                    (frame_proba_coordinate _ _)). }
  rewrite (update_frame_t _ _ (frame_prox_and_intercept _ _)).
  unfold for_range.
  by rewrite (for_loop_invariant t _
    (fun k s => update_frame_t _ _ (frame_proba_coordinate _ _ k s))).
Qed.

Lemma exact_iteration_snapshot s :
  exists u, exact_iteration s = select_snapshot (t s) u
            /\ update_frame u = update_frame s.
Proof.
  unfold exact_iteration. cbn. eexists. split; [|shelve].
  f_equal. Unshelve.
  2:{ rewrite frame_prox_and_intercept. unfold for_range.
      by rewrite (for_loop_invariant update_frame _
                    (frame_exact_coordinate _ _)). }
  rewrite (update_frame_t _ _ (frame_prox_and_intercept _ _)).
  unfold for_range.
  by rewrite (for_loop_invariant t _
    (fun k s => update_frame_t _ _ (frame_exact_coordinate _ _ k s))).
Qed.

Lemma settings_dense_iteration k s :
  settings (dense_iteration k s) = settings s.
Proof.
  destruct (dense_iteration_snapshot k s) as (u & -> & Hu).
  rewrite settings_select_snapshot. by apply update_frame_settings.
Qed.

Lemma settings_proba_iteration s : settings (proba_iteration s) = settings s.
Proof.
  destruct (proba_iteration_snapshot s) as (u & -> & Hu).
  rewrite settings_select_snapshot. by apply update_frame_settings.
Qed.

Lemma settings_exact_iteration s : settings (exact_iteration s) = settings s.
Proof.
  destruct (exact_iteration_snapshot s) as (u & -> & Hu).
  rewrite settings_select_snapshot. by apply update_frame_settings.
Qed.

Lemma t_proba_iteration s : t (proba_iteration s) = t s.
Proof.
  destruct (proba_iteration_snapshot s) as (u & -> & Hu).
  destruct (select_snapshot_keeps (t s) u) as (_ & -> & _).
  by apply update_frame_t.
Qed.

Lemma t_exact_iteration s : t (exact_iteration s) = t s.
Proof.
  destruct (exact_iteration_snapshot s) as (u & -> & Hu).
  destruct (select_snapshot_keeps (t s) u) as (_ & -> & _).
  by apply update_frame_t.
Qed.

Lemma settings_solve_dense s : settings (solve_dense s) = settings s.
Proof.
  unfold solve_dense. cbn zeta.
  rewrite settings_add_epoch, settings_keep_last.
  apply for_loop_invariant, settings_dense_iteration.
Qed.

Lemma settings_for_t body s :
  (forall s, settings (body s) = settings s) ->
  settings (for_t body s) = settings s.
Proof.
  intros Hbody. unfold for_t.
  by rewrite (loop_t_invariant settings body Hbody settings_with_t).
Qed.

Lemma settings_solve_sparse_proba_updates s :
  settings (solve_sparse_proba_updates s) = settings s.
Proof.
  unfold solve_sparse_proba_updates. cbn zeta.
  rewrite settings_keep_last, settings_add_epoch.
  apply settings_for_t, settings_proba_iteration.
Qed.

Lemma settings_finalize_loop n k s :
  settings (for_loop n k finalize_coordinate s) = settings s.
Proof.
  apply (for_loop_invariant settings).
  intros. apply update_frame_settings, frame_finalize_coordinate.
Qed.

Lemma settings_solve_sparse_exact_updates s :
  settings (solve_sparse_exact_updates s) = settings s.
Proof.
  unfold solve_sparse_exact_updates. cbn zeta.
  rewrite settings_keep_last, settings_add_epoch.
  unfold for_range. rewrite settings_finalize_loop.
  apply settings_for_t, settings_exact_iteration.
Qed.

(** ** Arrays *)

Lemma size_set {A} (a : list A) j v : size (set a j v) = size a.
Proof. unfold size, set. by rewrite length_insert. Qed.

Lemma get_set_eq {A} `{Inhabited A} (a : list A) j v :
  0 <= j < size a -> get (set a j v) j = v.
Proof.
  unfold get, set, size. intros Hj.
  apply list_lookup_total_insert_eq. lia.
Qed.

Lemma get_set_ne {A} `{Inhabited A} (a : list A) i j v :
  0 <= i -> 0 <= j -> i <> j -> get (set a j v) i = get a i.
Proof.
  unfold get, set. intros Hi Hj Hne.
  apply list_lookup_total_insert_ne. lia.
Qed.

Lemma size_zeros n : 0 <= n -> size (zeros n) = n.
Proof. unfold size, zeros. rewrite length_replicate. lia. Qed.

(** A loop that fills [a[j] = f j] for [k <= j < k + n]. *)
Lemma size_fill {A} (f : ulong -> A) n k (a : list A) :
  size (for_loop n k (fun j a => set a j (f j)) a) = size a.
Proof.
  revert k a. induction n as [|n IH]; intros k a; [done|].
  cbn [for_loop]. by rewrite IH, size_set.
Qed.

Lemma get_fill {A} `{Inhabited A} (f : ulong -> A) n k (a : list A) i :
  0 <= k -> k <= i < k + Z.of_nat n -> i < size a ->
  get (for_loop n k (fun j a => set a j (f j)) a) i = f i.
Proof.
  revert k a. induction n as [|n IH]; intros k a Hk Hi Hsz; [lia|].
  cbn [for_loop]. destruct (decide (i = k)) as [->|Hne].
  - clear IH. assert (Hkeep : forall m k' (b : list A), k < k' ->
      get (for_loop m k' (fun j a => set a j (f j)) b) k = get b k).
    { induction m as [|m IHm]; intros k' b Hlt; [done|].
      cbn [for_loop]. rewrite IHm by lia. apply get_set_ne; lia. }
    rewrite Hkeep by lia. apply get_set_eq. lia.
  - apply IH; [lia|lia|]. rewrite size_set. lia.
Qed.

(** ** Step corrections *)

Lemma step_correction_at_nonzero m n_samples j sc :
  Model.compute_columns_non_zeros m j <> 0 ->
  step_correction_at m n_samples j sc
  = Returns (set sc j (of_ulong (n_samples
                                 / Model.compute_columns_non_zeros m j))).
Proof. intros Hnz. unfold step_correction_at, udiv. by case_decide. Qed.

Lemma step_correction_at_zero m n_samples j sc :
  Model.compute_columns_non_zeros m j = 0 ->
  step_correction_at m n_samples j sc = Undefined.
Proof. intros Hz. unfold step_correction_at, udiv. by case_decide. Qed.

Lemma corrections_loop_returns m n_samples n k sc :
  (forall j, k <= j < k + Z.of_nat n ->
             Model.compute_columns_non_zeros m j <> 0) ->
  for_loopM n k (step_correction_at m n_samples) sc
  = Returns (for_loop n k
               (fun j sc =>
                  set sc j (of_ulong (n_samples
                                      / Model.compute_columns_non_zeros m j)))
               sc).
Proof.
  revert k sc. induction n as [|n IH]; intros k sc Hnz; [done|].
  cbn [for_loopM for_loop].
  rewrite step_correction_at_nonzero by (apply Hnz; lia).
  cbn. apply IH. intros j Hj. apply Hnz. lia.
Qed.

Lemma corrections_loop_undefined m n_samples n k sc :
  (exists j, k <= j < k + Z.of_nat n
             /\ Model.compute_columns_non_zeros m j = 0) ->
  for_loopM n k (step_correction_at m n_samples) sc = Undefined.
Proof.
  revert k sc. induction n as [|n IH]; intros k sc (j & Hj & Hz); [lia|].
  cbn [for_loopM].
  destruct (decide (Model.compute_columns_non_zeros m k = 0)) as [Hk|Hk].
  - by rewrite step_correction_at_zero.
  - rewrite step_correction_at_nonzero by done.
    cbn. apply IH. exists j. split; [|done].
    destruct (decide (j = k)) as [->|]; [done|lia].
Qed.

(** The three ways through [compute_step_corrections]. *)
Lemma compute_step_corrections_cached s :
  ready_step_corrections s = true -> compute_step_corrections s = Returns s.
Proof. unfold compute_step_corrections. by intros ->. Qed.

Lemma compute_step_corrections_not_proba s :
  delayed_updates s <> Proba -> compute_step_corrections s = Returns s.
Proof.
  intros Hd. unfold compute_step_corrections.
  rewrite (bool_decide_eq_false_2 _ Hd), andb_false_r. by case_match.
Qed.

Lemma compute_step_corrections_fresh s :
  ready_step_corrections s = false ->
  Model.is_sparse (model s) = true ->
  delayed_updates s = Proba ->
  no_zero_column (model s) ->
  compute_step_corrections s
  = Returns (with_ready_step_corrections true
               (with_steps_correction (quotient_corrections (model s))
                  (with_columns_non_zeros_calls
                     (S (columns_non_zeros_calls s)) s))).
Proof.
  intros Hr Hs Hd Hnz. unfold compute_step_corrections.
  rewrite Hr, Hs, (bool_decide_eq_true_2 _ Hd). cbn [negb andb model].
  rewrite corrections_loop_returns; [done|].
  intros j Hj. apply Hnz. lia.
Qed.

Lemma compute_step_corrections_undefined s :
  ready_step_corrections s = false ->
  Model.is_sparse (model s) = true ->
  delayed_updates s = Proba ->
  has_zero_column (model s) ->
  compute_step_corrections s = Undefined.
Proof.
  intros Hr Hs Hd (j & Hj & Hz). unfold compute_step_corrections.
  rewrite Hr, Hs, (bool_decide_eq_true_2 _ Hd). cbn [negb andb model].
  rewrite corrections_loop_undefined; [done|].
  exists j. split; [lia|done].
Qed.

Lemma corrections_loop_never_throws m n_samples n k sc what :
  for_loopM n k (step_correction_at m n_samples) sc <> Throws what.
Proof.
  revert k sc. induction n as [|n IH]; intros k sc; [done|].
  cbn [for_loopM].
  destruct (decide (Model.compute_columns_non_zeros m k = 0)) as [Hk|Hk].
  - by rewrite step_correction_at_zero.
  - rewrite step_correction_at_nonzero by done. cbn. apply IH.
Qed.

Lemma compute_step_corrections_never_throws s what :
  compute_step_corrections s <> Throws what.
Proof.
  unfold compute_step_corrections. repeat case_match; try done.
  cbn zeta.
  match goal with |- context [for_loopM ?n ?k ?b ?sc] =>
    destruct (for_loopM n k b sc) eqn:Hloop end; cbn; try done.
  by apply corrections_loop_never_throws in Hloop.
Qed.

(** Every stored correction is the [ulong] quotient, converted. *)
Lemma get_quotient_corrections m j :
  0 <= j < Model.get_n_features m ->
  get (quotient_corrections m) j
  = of_ulong (Model.get_n_samples m / Model.compute_columns_non_zeros m j).
Proof.
  intros Hj. unfold quotient_corrections, for_range.
  apply (get_fill (fun j => of_ulong (Model.get_n_samples m
                             / Model.compute_columns_non_zeros m j)));
    [lia|lia|].
  rewrite size_zeros; lia.
Qed.

(** ** The snapshot preparer *)

(** Reads of a member after assignments. *)
Ltac members :=
  cbn [
    epoch_size t model prox iterate rand step variance_reduction
    delayed_updates ready_step_corrections is_model_sparse is_prox_separable
    n_features use_intercept fixed_w full_gradient next_iterate grad_i
    grad_i_fixed_w last_time steps_correction casted_prox rand_index
    columns_non_zeros_calls with_t with_model with_prox with_iterate
    with_rand with_ready_step_corrections with_is_model_sparse
    with_is_prox_separable with_n_features with_use_intercept with_fixed_w
    with_full_gradient with_next_iterate with_grad_i with_grad_i_fixed_w
    with_last_time with_steps_correction with_casted_prox with_rand_index
    with_columns_non_zeros_calls
  ].

Tactic Notation "members" "in" hyp(H) :=
  cbn [
    epoch_size t model prox iterate rand step variance_reduction
    delayed_updates ready_step_corrections is_model_sparse is_prox_separable
    n_features use_intercept fixed_w full_gradient next_iterate grad_i
    grad_i_fixed_w last_time steps_correction casted_prox rand_index
    columns_non_zeros_calls with_t with_model with_prox with_iterate
    with_rand with_ready_step_corrections with_is_model_sparse
    with_is_prox_separable with_n_features with_use_intercept with_fixed_w
    with_full_gradient with_next_iterate with_grad_i with_grad_i_fixed_w
    with_last_time with_steps_correction with_casted_prox with_rand_index
    with_columns_non_zeros_calls
  ] in H.

Ltac by_members H :=
  unfold settings, bindings, constants, cache in *; members in H; congruence.

Lemma bindings_choose_rand_index s :
  bindings (choose_rand_index s) = bindings s.
Proof. unfold choose_rand_index. repeat case_match; reflexivity. Qed.

Lemma compute_step_corrections_bindings s s' :
  compute_step_corrections s = Returns s' -> bindings s' = bindings s.
Proof.
  unfold compute_step_corrections. repeat case_match; try congruence.
  cbn zeta.
  match goal with |- context [for_loopM ?n ?k ?b ?sc] =>
    destruct (for_loopM n k b sc) end; cbn; try done.
  by intros [= <-].
Qed.

Lemma prepare_solve_bindings s s1 :
  prepare_solve s = Returns s1 -> bindings s1 = bindings s.
Proof.
  unfold prepare_solve. cbn zeta. members.
  destruct (is_model_sparse s); cbn.
  - match goal with |- context [compute_step_corrections ?s0] =>
      destruct (compute_step_corrections s0) as [s'| |] eqn:Hc end;
      cbn; try done.
    intros [= <-]. rewrite bindings_choose_rand_index.
    apply compute_step_corrections_bindings in Hc.
    transitivity (bindings s'); [reflexivity|]. by rewrite Hc.
  - intros [= <-]. by rewrite bindings_choose_rand_index.
Qed.

Lemma prepare_solve_never_throws s what : prepare_solve s <> Throws what.
Proof.
  unfold prepare_solve. cbn zeta. members.
  destruct (is_model_sparse s); cbn; [|done].
  match goal with |- context [compute_step_corrections ?s0] =>
    destruct (compute_step_corrections s0) as [s'| |] eqn:Hc end;
    cbn; try done.
  by apply compute_step_corrections_never_throws in Hc.
Qed.

Lemma compute_step_corrections_returns s :
  (ready_step_corrections s = false -> Model.is_sparse (model s) = true ->
   delayed_updates s = Proba -> no_zero_column (model s)) ->
  exists s', compute_step_corrections s = Returns s'.
Proof.
  intros Hnz.
  destruct (ready_step_corrections s) eqn:Hr;
    [by rewrite compute_step_corrections_cached; eauto|].
  destruct (decide (delayed_updates s = Proba)) as [Hd|Hd];
    [|by rewrite compute_step_corrections_not_proba; eauto].
  destruct (Model.is_sparse (model s)) eqn:Hs.
  - rewrite compute_step_corrections_fresh by auto. eauto.
  - unfold compute_step_corrections. rewrite Hr, Hs. cbn. eauto.
Qed.

Lemma prepare_solve_returns s :
  no_division_by_zero s -> exists s1, prepare_solve s = Returns s1.
Proof.
  intros Hnz. unfold prepare_solve. cbn zeta. members.
  destruct (is_model_sparse s) eqn:Hsp; cbn; [|eauto].
  match goal with |- context [compute_step_corrections ?s0] =>
    destruct (compute_step_corrections_returns s0) as [s' ->] end;
    cbn; eauto.
Qed.

(** ** The epoch driver *)

Lemma solve_unfold (s : SVRG) :
  solve s
  = s1 ← prepare_solve s;
    Returns (if Model.is_sparse (model s) then
               match delayed_updates s with
               | Exact => solve_sparse_exact_updates s1
               | Proba => solve_sparse_proba_updates s1
               | UnlistedDelayedUpdates _ => s1
               end
             else solve_dense s1).
Proof.
  unfold solve. destruct (prepare_solve s) as [s1| |] eqn:Hp; cbn; try done.
  apply prepare_solve_bindings in Hp.
  assert (model s1 = model s) as -> by by_members Hp.
  assert (Hd : delayed_updates s1 = delayed_updates s) by by_members Hp.
  destruct (Model.is_sparse (model s)); [|done].
  rewrite Hd. destruct (delayed_updates s) eqn:Hs.
  - rewrite (bool_decide_eq_true_2 (Exact = Exact)) by done.
    pose proof (settings_solve_sparse_exact_updates s1) as He.
    assert (delayed_updates (solve_sparse_exact_updates s1) = Exact) as ->
      by by_members He.
    by rewrite (bool_decide_eq_false_2 (Exact = Proba)).
  - rewrite (bool_decide_eq_false_2 (Proba = Exact)) by done. rewrite Hd.
    by rewrite (bool_decide_eq_true_2 (Proba = Proba)).
  - rewrite (bool_decide_eq_false_2 (_ = Exact)) by done. rewrite Hd.
    by rewrite (bool_decide_eq_false_2 (_ = Proba)).
Qed.

Lemma solve_never_throws s what : solve s <> Throws what.
Proof.
  rewrite solve_unfold.
  destruct (prepare_solve s) as [s1| |] eqn:Hp; cbn; try done.
  by apply prepare_solve_never_throws in Hp.
Qed.

(** C3, as the code has it: [solve] runs the snapshot preparer and then
    exactly one routine, the dense one for a dense model, the exact one for
    a sparse model with the policy [Exact], the probabilistic one for a
    sparse model with the policy [Proba]; for a sparse model with any other
    policy value it runs no routine and returns the prepared solver. *)
Theorem solve_dispatch (s : SVRG) :
  solve s
  = s1 ← prepare_solve s;
    Returns (if Model.is_sparse (model s) then
               match delayed_updates s with
               | Exact => solve_sparse_exact_updates s1
               | Proba => solve_sparse_proba_updates s1
               | UnlistedDelayedUpdates _ => s1
               end
             else solve_dense s1).
Proof. apply solve_unfold. Qed.

(** C3 fails as stated: with a policy value that is no enumerator the call
    does not abort, it returns the solver as the preparer left it. *)
Lemma solve_unlisted_policy_returns :
  Model.is_sparse (model unlisted_policy) = true
  /\ delayed_updates unlisted_policy = UnlistedDelayedUpdates 7
  /\ exists s1, prepare_solve unlisted_policy = Returns s1
                /\ solve unlisted_policy = Returns s1
                /\ iterate s1 = iterate unlisted_policy.
Proof.
  split; [done|]. split; [done|].
  destruct (prepare_solve_returns unlisted_policy) as [s1 Hp];
    [intros _ _ _ [=]|].
  exists s1. split; [done|]. split.
  - rewrite solve_unfold, Hp. reflexivity.
  - apply prepare_solve_bindings in Hp. by_members Hp.
Qed.

(** ** The step-correction cache *)

Lemma cache_choose_rand_index s : cache (choose_rand_index s) = cache s.
Proof. unfold choose_rand_index. repeat case_match; reflexivity. Qed.

Lemma prepare_solve_sparse s :
  is_model_sparse s = true ->
  prepare_solve s
  = s' ← compute_step_corrections
          (with_last_time (replicate (Z.to_nat (n_features s)) 0)
             (with_full_gradient (Model.grad (model s) (next_iterate s))
                (with_fixed_w (next_iterate s) s)));
    Returns (choose_rand_index (with_casted_prox (prox s') s')).
Proof.
  intros Hs. unfold prepare_solve. cbn zeta. members. rewrite Hs.
  match goal with |- context [compute_step_corrections ?s0] =>
    by destruct (compute_step_corrections s0) end.
Qed.

Lemma prepare_solve_dense s :
  is_model_sparse s = false ->
  prepare_solve s
  = Returns (choose_rand_index
               (with_grad_i_fixed_w (zeros (size (iterate s)))
                  (with_grad_i (zeros (size (iterate s)))
                     (with_full_gradient
                        (Model.grad (model s) (next_iterate s))
                        (with_fixed_w (next_iterate s) s))))).
Proof. intros Hs. unfold prepare_solve. cbn zeta. members. by rewrite Hs. Qed.

(** The first preparation after a binding fills the cache, with one call
    to the model. *)
Lemma prepare_solve_cache_fresh s :
  is_model_sparse s = true -> Model.is_sparse (model s) = true ->
  delayed_updates s = Proba -> ready_step_corrections s = false ->
  no_zero_column (model s) ->
  exists s1, prepare_solve s = Returns s1
             /\ cache s1 = (true, quotient_corrections (model s),
                            S (columns_non_zeros_calls s)).
Proof.
  intros Hc Hs Hd Hr Hnz. rewrite prepare_solve_sparse by done.
  rewrite compute_step_corrections_fresh by done. cbn.
  eexists. split; [done|]. by rewrite cache_choose_rand_index.
Qed.

(** A later preparation finds the flag set and touches nothing. *)
Lemma prepare_solve_cache_hit s :
  ready_step_corrections s = true ->
  exists s1, prepare_solve s = Returns s1 /\ cache s1 = cache s.
Proof.
  intros Hr. destruct (is_model_sparse s) eqn:Hs.
  - rewrite prepare_solve_sparse by done.
    rewrite compute_step_corrections_cached by done. cbn.
    eexists. split; [done|]. by rewrite cache_choose_rand_index.
  - rewrite prepare_solve_dense by done.
    eexists. split; [done|]. by rewrite cache_choose_rand_index.
Qed.

(** With another policy than [Proba] nothing is ever cached. *)
Lemma prepare_solve_cache_not_proba s :
  delayed_updates s <> Proba ->
  exists s1, prepare_solve s = Returns s1 /\ cache s1 = cache s.
Proof.
  intros Hd. destruct (is_model_sparse s) eqn:Hs.
  - rewrite prepare_solve_sparse by done.
    rewrite compute_step_corrections_not_proba by done. cbn.
    eexists. split; [done|]. by rewrite cache_choose_rand_index.
  - rewrite prepare_solve_dense by done.
    eexists. split; [done|]. by rewrite cache_choose_rand_index.
Qed.

Lemma prepare_solve_undefined s :
  is_model_sparse s = true -> Model.is_sparse (model s) = true ->
  delayed_updates s = Proba -> ready_step_corrections s = false ->
  has_zero_column (model s) ->
  prepare_solve s = Undefined.
Proof.
  intros Hc Hs Hd Hr Hz. rewrite prepare_solve_sparse by done.
  by rewrite compute_step_corrections_undefined.
Qed.

(** ** What an epoch keeps *)

Lemma settings_constants s s' :
  settings s' = settings s -> constants s' = constants s.
Proof. intros H. by_members H. Qed.

Lemma bindings_constants s s' :
  bindings s' = bindings s -> constants s' = constants s.
Proof. intros H. by_members H. Qed.

Lemma settings_cache s s' : settings s' = settings s -> cache s' = cache s.
Proof. intros H. by_members H. Qed.

(** The routine [solve] runs after the preparer, as one function. *)
Lemma dispatch_settings s s1 :
  settings (if Model.is_sparse (model s) then
              match delayed_updates s with
              | Exact => solve_sparse_exact_updates s1
              | Proba => solve_sparse_proba_updates s1
              | UnlistedDelayedUpdates _ => s1
              end
            else solve_dense s1)
  = settings s1.
Proof.
  repeat case_match; auto using settings_solve_dense,
    settings_solve_sparse_exact_updates, settings_solve_sparse_proba_updates.
Qed.

Lemma solve_constants s s' :
  solve s = Returns s' -> constants s' = constants s.
Proof.
  rewrite solve_unfold.
  destruct (prepare_solve s) as [s1| |] eqn:Hp; cbn; try done.
  intros [= <-]. rewrite (settings_constants _ _ (dispatch_settings s s1)).
  by apply bindings_constants, prepare_solve_bindings.
Qed.

Lemma solve_returns s :
  no_division_by_zero s -> exists s', solve s = Returns s'.
Proof.
  intros Hnz. rewrite solve_unfold.
  destruct (prepare_solve_returns s Hnz) as [s1 ->]. cbn. eauto.
Qed.

Lemma solve_undefined s :
  is_model_sparse s = true -> Model.is_sparse (model s) = true ->
  delayed_updates s = Proba -> ready_step_corrections s = false ->
  has_zero_column (model s) ->
  solve s = Undefined.
Proof.
  intros. rewrite solve_unfold. by rewrite prepare_solve_undefined.
Qed.

(** A call of [solve] that finds the cache ready leaves it as it is. *)
Lemma solve_cache_hit s :
  ready_step_corrections s = true ->
  exists s', solve s = Returns s' /\ cache s' = cache s.
Proof.
  intros Hr. rewrite solve_unfold.
  destruct (prepare_solve_cache_hit s Hr) as (s1 & -> & Hc). cbn.
  eexists. split; [done|].
  by rewrite (settings_cache _ _ (dispatch_settings s s1)).
Qed.

Lemma solve_cache_fresh s :
  is_model_sparse s = true -> Model.is_sparse (model s) = true ->
  delayed_updates s = Proba -> ready_step_corrections s = false ->
  no_zero_column (model s) ->
  exists s', solve s = Returns s'
             /\ cache s' = (true, quotient_corrections (model s),
                            S (columns_non_zeros_calls s)).
Proof.
  intros Hc Hs Hd Hr Hnz. rewrite solve_unfold.
  destruct (prepare_solve_cache_fresh s Hc Hs Hd Hr Hnz) as (s1 & -> & Hc1).
  cbn. eexists. split; [done|].
  by rewrite (settings_cache _ _ (dispatch_settings s s1)).
Qed.

Lemma solve_epochs_cache_hit n s :
  ready_step_corrections s = true ->
  exists s', solve_epochs n s = Returns s' /\ cache s' = cache s.
Proof.
  revert s. induction n as [|n IH]; intros s Hr; [by exists s|].
  cbn [solve_epochs].
  destruct (solve_cache_hit s Hr) as (s1 & -> & Hc1). cbn.
  destruct (IH s1) as (s' & -> & Hc'); [by_members Hc1|].
  exists s'. split; [done|]. congruence.
Qed.

(** [set_model] binds the model and clears the flag. *)
Lemma set_model_bound m s :
  model (set_model m s) = m
  /\ ready_step_corrections (set_model m s) = false
  /\ is_model_sparse (set_model m s) = Model.is_sparse m
  /\ delayed_updates (set_model m s) = delayed_updates s
  /\ columns_non_zeros_calls (set_model m s) = columns_non_zeros_calls s.
Proof. unfold set_model. members. by destruct (Model.is_sparse m). Qed.

(** ** Claims on the step corrections *)

Lemma three_rows_no_zero_column : no_zero_column (model proba_three).
Proof.
  intros j Hj. change (0 <= j < 2) in Hj.
  assert (j = 0 \/ j = 1) as [-> | ->] by lia; by vm_compute.
Qed.

Lemma one_row_has_zero_column : has_zero_column (model proba_empty_column).
Proof. exists 1. split; [by vm_compute|reflexivity]. Qed.

(** C1: the code is run on three samples whose second feature is stored in
    two of them.  The claimed correction of that feature is the quotient
    3/2; the code divides the two [ulong] first and stores 1. *)
Theorem step_correction_truncates_quotient :
  Model.get_n_samples (model proba_three) = 3
  /\ Model.compute_columns_non_zeros (model proba_three) 1 = 2
  /\ exists s1, prepare_solve proba_three = Returns s1
                /\ get (steps_correction s1) 1 = of_ulong 1
                /\ (of_ulong 3 / of_ulong 2)%Qc <> of_ulong 1.
Proof.
  split; [reflexivity|]. split; [reflexivity|].
  destruct (prepare_solve_cache_fresh proba_three) as (s1 & Hp & Hc);
    [done|done|done|done|apply three_rows_no_zero_column|].
  exists s1. split; [done|]. split.
  - assert (steps_correction s1 = quotient_corrections (model proba_three))
      as -> by by_members Hc.
    rewrite get_quotient_corrections by (by vm_compute). reflexivity.
  - intros H. apply (f_equal this) in H. vm_compute in H. discriminate.
Qed.

(** C2, as the code has it: with a sparse model, the policy [Proba], no
    cached corrections and an empty feature column, the preparer divides
    two [ulong] by zero; the call has no defined outcome, raises no error
    of its own, and no update routine has run. *)
Theorem zero_column_division_undefined (s : SVRG) :
  is_model_sparse s = true -> Model.is_sparse (model s) = true ->
  delayed_updates s = Proba -> ready_step_corrections s = false ->
  has_zero_column (model s) ->
  prepare_solve s = Undefined /\ solve s = Undefined.
Proof.
  intros. split; [by apply prepare_solve_undefined|by apply solve_undefined].
Qed.

Lemma zero_column_division_undefined_witness :
  has_zero_column (model proba_empty_column)
  /\ prepare_solve proba_empty_column = Undefined
  /\ solve proba_empty_column = Undefined.
Proof.
  split; [apply one_row_has_zero_column|].
  apply (zero_column_division_undefined proba_empty_column);
    [reflexivity|reflexivity|reflexivity|reflexivity|].
  apply one_row_has_zero_column.
Defined.

(** C2 fails as stated: on a model whose second column is empty the call
    surfaces no error. *)
Lemma zero_column_raises_no_error :
  Model.is_sparse (model proba_empty_column) = true
  /\ delayed_updates proba_empty_column = Proba
  /\ Model.compute_columns_non_zeros (model proba_empty_column) 1 = 0
  /\ ~ exists what, solve proba_empty_column = Throws what.
Proof.
  split; [reflexivity|]. split; [reflexivity|]. split; [reflexivity|].
  intros [what H]. by apply solve_never_throws in H.
Qed.

(** C7, as the code has it: for a sparse model without empty column and
    the policy [Proba], binding the model clears the flag, the first
    preparation computes the corrections with one call to the model, and
    after any number of calls of [solve] the cache holds these corrections
    and the model has been asked once.  Binding again clears the flag, so
    the same holds anew. *)
Theorem step_corrections_cached_per_binding (m : Model.t) (s : SVRG) :
  Model.is_sparse m = true -> delayed_updates s = Proba ->
  no_zero_column m ->
  ready_step_corrections (set_model m s) = false
  /\ (exists s1, prepare_solve (set_model m s) = Returns s1
                 /\ cache s1 = (true, quotient_corrections m,
                                S (columns_non_zeros_calls s)))
  /\ forall n, exists s',
       solve_epochs (S n) (set_model m s) = Returns s'
       /\ cache s' = (true, quotient_corrections m,
                      S (columns_non_zeros_calls s)).
Proof.
  intros Hs Hd Hnz.
  destruct (set_model_bound m s) as (Hm & Hr & Hc & Hd' & Hn).
  assert (Hpre : is_model_sparse (set_model m s) = true) by congruence.
  assert (Hsp : Model.is_sparse (model (set_model m s)) = true)
    by congruence.
  assert (Hpr : delayed_updates (set_model m s) = Proba) by congruence.
  assert (Hz : no_zero_column (model (set_model m s))) by by rewrite Hm.
  split; [done|]. split.
  - destruct (prepare_solve_cache_fresh _ Hpre Hsp Hpr Hr Hz)
      as (s1 & Hp & Hc1).
    exists s1. split; [done|]. by rewrite Hc1, Hm, Hn.
  - intros n. cbn [solve_epochs].
    destruct (solve_cache_fresh _ Hpre Hsp Hpr Hr Hz) as (s1 & -> & Hc1).
    cbn. destruct (solve_epochs_cache_hit n s1) as (s' & -> & Hc');
      [by_members Hc1|].
    exists s'. split; [done|]. by rewrite Hc', Hc1, Hm, Hn.
Qed.

Lemma step_corrections_cached_per_binding_witness :
  ready_step_corrections
    (set_model (least_squares true 2 three_rows three_labels) proba_three)
  = false
  /\ (exists s1,
        prepare_solve
          (set_model (least_squares true 2 three_rows three_labels)
             proba_three) = Returns s1
        /\ cache s1
           = (true,
              quotient_corrections
                (least_squares true 2 three_rows three_labels),
              S (columns_non_zeros_calls proba_three)))
  /\ forall n, exists s',
       solve_epochs (S n)
         (set_model (least_squares true 2 three_rows three_labels)
            proba_three) = Returns s'
       /\ cache s'
          = (true,
             quotient_corrections
               (least_squares true 2 three_rows three_labels),
             S (columns_non_zeros_calls proba_three)).
Proof.
  apply (step_corrections_cached_per_binding
           (least_squares true 2 three_rows three_labels) proba_three);
    [reflexivity|reflexivity|apply three_rows_no_zero_column].
Defined.

(** C7 fails as stated: for a sparse model with the policy [Exact] the
    preparer caches nothing. *)
Lemma exact_policy_caches_nothing :
  Model.is_sparse (model exact_two) = true
  /\ exists s1, prepare_solve exact_two = Returns s1
                /\ ready_step_corrections s1 = false
                /\ steps_correction s1 = []
                /\ columns_non_zeros_calls s1 = O.
Proof.
  split; [reflexivity|].
  destruct (prepare_solve_cache_not_proba exact_two) as (s1 & Hp & Hc);
    [done|].
  exists s1. split; [done|].
  change (cache exact_two) with (false, @nil Qc, O) in Hc.
  repeat split; by_members Hc.
Qed.

(** ** The iteration counter *)

Lemma t_keep_last s : t (keep_last s) = t s.
Proof. unfold keep_last. by case_match. Qed.

Lemma t_dense_iteration k s : t (dense_iteration k s) = t s.
Proof.
  destruct (dense_iteration_snapshot k s) as (u & -> & Hu).
  destruct (select_snapshot_keeps k u) as (_ & -> & _).
  by apply update_frame_t.
Qed.

Lemma t_for_t body s :
  (forall s, t (body s) = t s) -> 0 <= epoch_size s ->
  t (for_t body s) = epoch_size s.
Proof.
  intros Hbody He. unfold for_t. rewrite loop_t_counter by done.
  cbn [t with_t]. lia.
Qed.

Lemma epoch_size_settings s s' :
  settings s' = settings s -> epoch_size s' = epoch_size s.
Proof. intros H. unfold settings in H. congruence. Qed.

Lemma t_solve_dense s : t (solve_dense s) = wrap (t s + epoch_size s).
Proof.
  unfold solve_dense. cbn zeta. unfold add_epoch. cbn [t with_t].
  rewrite t_keep_last.
  rewrite (epoch_size_settings _ _ (settings_keep_last _)).
  unfold for_range.
  rewrite (for_loop_invariant t _ t_dense_iteration).
  by rewrite (epoch_size_settings _ _
                (for_loop_invariant settings _ settings_dense_iteration _ _ _)).
Qed.

Lemma t_solve_sparse_proba_updates s :
  0 <= epoch_size s ->
  t (solve_sparse_proba_updates s) = wrap (2 * epoch_size s).
Proof.
  intros He. unfold solve_sparse_proba_updates. cbn zeta.
  rewrite t_keep_last. unfold add_epoch. cbn [t with_t].
  rewrite (t_for_t _ _ t_proba_iteration He).
  rewrite (epoch_size_settings _ _
             (settings_for_t _ _ settings_proba_iteration)).
  f_equal. lia.
Qed.

Lemma t_solve_sparse_exact_updates s :
  0 <= epoch_size s ->
  t (solve_sparse_exact_updates s) = wrap (2 * epoch_size s).
Proof.
  intros He. unfold solve_sparse_exact_updates. cbn zeta.
  rewrite t_keep_last. unfold add_epoch, for_range. cbn [t with_t].
  rewrite (epoch_size_settings _ _ (settings_finalize_loop _ _ _)).
  rewrite (for_loop_invariant t _
    (fun j s => update_frame_t _ _ (frame_finalize_coordinate j s))).
  rewrite (t_for_t _ _ t_exact_iteration He).
  rewrite (epoch_size_settings _ _
             (settings_for_t _ _ settings_exact_iteration)).
  f_equal. lia.
Qed.

Lemma wrap_small z : 0 <= z < ulong_modulus -> wrap z = z.
Proof. intros Hz. unfold wrap. by apply Z.mod_small. Qed.

(** C10: for a sparse model and either policy, the member [t] is
    [2 * epoch_size] after [solve], whatever it was before (the two sparse
    loops count with the member itself); for a dense model it has grown by
    [epoch_size].  The values are those of [ulong] arithmetic without
    overflow, which the bounds say. *)
Theorem solve_iteration_counter (s : SVRG) :
  no_division_by_zero s -> 0 <= epoch_size s ->
  exists s', solve s = Returns s'
    /\ (Model.is_sparse (model s) = true ->
        delayed_updates s = Exact \/ delayed_updates s = Proba ->
        2 * epoch_size s < ulong_modulus ->
        t s' = 2 * epoch_size s)
    /\ (Model.is_sparse (model s) = false ->
        0 <= t s -> t s + epoch_size s < ulong_modulus ->
        t s' = t s + epoch_size s).
Proof.
  intros Hnz He. rewrite solve_unfold.
  destruct (prepare_solve_returns s Hnz) as [s1 Hp]. rewrite Hp. cbn.
  apply prepare_solve_bindings in Hp.
  assert (He1 : epoch_size s1 = epoch_size s) by by_members Hp.
  assert (Ht1 : t s1 = t s) by by_members Hp.
  eexists. split; [done|]. split.
  - intros -> [-> | ->] Hlt.
    + rewrite t_solve_sparse_exact_updates, He1 by lia.
      apply wrap_small. lia.
    + rewrite t_solve_sparse_proba_updates, He1 by lia.
      apply wrap_small. lia.
  - intros -> Ht Hlt. rewrite t_solve_dense, He1, Ht1.
    apply wrap_small. lia.
Qed.

Lemma solve_iteration_counter_witness :
  (exists s', solve (with_t 5 exact_two) = Returns s' /\ t s' = 2)
  /\ (exists s', solve (with_t 5 dense_two) = Returns s' /\ t s' = 6).
Proof.
  split.
  - destruct (solve_iteration_counter (with_t 5 exact_two))
      as (s' & Hs & Hsparse & _);
      [intros _ _ _ [=]|by vm_compute|].
    exists s'. split; [exact Hs|].
    apply Hsparse; [reflexivity|by left|by vm_compute].
  - destruct (solve_iteration_counter (with_t 5 dense_two))
      as (s' & Hs & _ & Hdense);
      [intros [=]|by vm_compute|].
    exists s'. split; [exact Hs|].
    apply Hdense; [reflexivity|by vm_compute|by vm_compute].
Defined.

(** ** The dense routine with a zero step *)

Lemma set_get_same {A} `{Inhabited A} (a : list A) j : set a j (get a j) = a.
Proof.
  unfold set, get. destruct (decide (Z.to_nat j < length a)%nat) as [Hlt|Hge].
  - apply list_insert_id. by apply list_lookup_lookup_total_lt.
  - apply list_insert_ge. lia.
Qed.

Lemma dense_coordinate_zero_step s j w :
  step s = 0%Qc -> dense_coordinate s j w = w.
Proof.
  intros Hs. unfold dense_coordinate. rewrite Hs.
  match goal with |- set w j ?v = w =>
    replace v with (get w j) by ring end.
  apply set_get_same.
Qed.

Lemma dense_coordinates_zero_step s n k w :
  step s = 0%Qc -> for_loop n k (dense_coordinate s) w = w.
Proof.
  intros Hs. revert k. induction n as [|n IH]; intros k; [done|].
  cbn [for_loop]. by rewrite dense_coordinate_zero_step.
Qed.

Lemma iterate_dense_iteration_zero_step k s :
  step s = 0%Qc -> (forall w, Prox.call (prox s) w 0%Qc = w) ->
  iterate (dense_iteration k s) = iterate s.
Proof.
  intros Hs Hp. unfold dense_iteration. cbn.
  match goal with |- iterate (select_snapshot k ?u) = _ =>
    destruct (select_snapshot_keeps k u) as (_ & _ & -> & _) end.
  members. unfold for_range.
  rewrite dense_coordinates_zero_step by done. by rewrite Hs, Hp.
Qed.

Lemma iterate_dense_loop_zero_step n k s :
  step s = 0%Qc -> (forall w, Prox.call (prox s) w 0%Qc = w) ->
  iterate (for_loop n k dense_iteration s) = iterate s.
Proof.
  revert k s. induction n as [|n IH]; intros k s Hs Hp; [done|].
  rewrite for_loop_S.
  pose proof (settings_dense_iteration k s) as Hk.
  rewrite IH.
  - by apply iterate_dense_iteration_zero_step.
  - rewrite <- Hs. by_members Hk.
  - assert (prox (dense_iteration k s) = prox s) as -> by by_members Hk.
    done.
Qed.

Lemma iterate_keep_last s : iterate (keep_last s) = iterate s.
Proof. unfold keep_last. by case_match. Qed.

Lemma iterate_solve_dense_zero_step s :
  step s = 0%Qc -> (forall w, Prox.call (prox s) w 0%Qc = w) ->
  iterate (solve_dense s) = iterate s.
Proof.
  intros Hs Hp. unfold solve_dense. cbn zeta. unfold add_epoch.
  members. rewrite iterate_keep_last.
  by apply iterate_dense_loop_zero_step.
Qed.

Lemma solve_dense_zero_step s :
  Model.is_sparse (model s) = false -> is_model_sparse s = false ->
  step s = 0%Qc -> (forall w, Prox.call (prox s) w 0%Qc = w) ->
  exists s', solve s = Returns s' /\ iterate s' = iterate s.
Proof.
  intros Hm Hc Hs Hp. rewrite solve_unfold, Hm.
  destruct (prepare_solve_returns s) as [s1 Hp1]; [by intros ?; congruence|].
  rewrite Hp1. cbn. eexists. split; [done|].
  apply prepare_solve_bindings in Hp1.
  rewrite iterate_solve_dense_zero_step.
  - by_members Hp1.
  - rewrite <- Hs. by_members Hp1.
  - assert (prox s1 = prox s) as -> by by_members Hp1. done.
Qed.

(** C9, as the code has it: for a dense model, a zero step and a prox that
    is the identity at step zero, any number of calls of [solve] leaves the
    iterate as it was. *)
Theorem dense_zero_step_keeps_iterate (s : SVRG) (n : nat) :
  Model.is_sparse (model s) = false -> is_model_sparse s = false ->
  step s = 0%Qc -> (forall w, Prox.call (prox s) w 0%Qc = w) ->
  exists s', solve_epochs n s = Returns s' /\ iterate s' = iterate s.
Proof.
  revert s. induction n as [|n IH]; intros s Hm Hc Hs Hp; [by exists s|].
  cbn [solve_epochs].
  destruct (solve_dense_zero_step s Hm Hc Hs Hp) as (s1 & Hs1 & Hi1).
  rewrite Hs1. cbn. apply solve_constants in Hs1.
  destruct (IH s1) as (s' & -> & Hi').
  - assert (model s1 = model s) as -> by by_members Hs1. done.
  - rewrite <- Hc. by_members Hs1.
  - rewrite <- Hs. by_members Hs1.
  - assert (prox s1 = prox s) as -> by by_members Hs1. done.
  - exists s'. split; [done|]. congruence.
Qed.

Lemma dense_zero_step_keeps_iterate_witness :
  exists s', solve_epochs 3 dense_zero_step = Returns s'
             /\ iterate s' = iterate dense_zero_step.
Proof.
  apply (dense_zero_step_keeps_iterate dense_zero_step 3);
    [reflexivity|reflexivity|reflexivity|intros w; reflexivity].
Defined.

(** C9 fails as stated: the routine applies the prox whatever the step, and
    a projection moves the iterate even at step zero. *)
Lemma dense_zero_step_projection_moves :
  Model.is_sparse (model dense_positive) = false
  /\ step dense_positive = 0%Qc
  /\ iterate dense_positive = [(-1)%Qc; 0%Qc]
  /\ iterate <$> solve dense_positive = Returns [0%Qc; 0%Qc].
Proof.
  split; [reflexivity|]. split; [reflexivity|]. split; [reflexivity|].
  apply (bool_decide_unpack _). by vm_compute.
Qed.

(** ** The probabilistic routine on the support of a row *)

Lemma size_iterate_proba_coordinate x g k s :
  size (iterate (proba_coordinate x g k s)) = size (iterate s).
Proof.
  unfold proba_coordinate. cbn zeta. members.
  case_match; members; by rewrite !size_set.
Qed.

Lemma proba_coordinate_here x g k s :
  0 <= get (indices x) k < size (iterate s) ->
  get (iterate (proba_coordinate x g k s)) (get (indices x) k)
  = spec_proba_update s x g k.
Proof.
  intros Hj. unfold proba_coordinate, spec_proba_update. cbn zeta. members.
  destruct (is_prox_separable s); members.
  - rewrite get_set_eq by (by rewrite size_set).
    by rewrite get_set_eq.
  - by rewrite get_set_eq.
Qed.

Lemma proba_coordinate_elsewhere x g k s j :
  0 <= get (indices x) k -> 0 <= j -> j <> get (indices x) k ->
  get (iterate (proba_coordinate x g k s)) j = get (iterate s) j.
Proof.
  intros Hk Hj Hne. unfold proba_coordinate. cbn zeta. members.
  destruct (is_prox_separable s); members;
    by rewrite !get_set_ne.
Qed.

Lemma proba_update_ext s s' x g k :
  settings s' = settings s ->
  get (iterate s') (get (indices x) k) = get (iterate s) (get (indices x) k) ->
  spec_proba_update s' x g k = spec_proba_update s x g k.
Proof.
  intros Hs Hi. unfold spec_proba_update. cbn zeta. rewrite Hi.
  assert (step s' = step s) as -> by by_members Hs.
  assert (steps_correction s' = steps_correction s) as -> by by_members Hs.
  assert (full_gradient s' = full_gradient s) as -> by by_members Hs.
  assert (is_prox_separable s' = is_prox_separable s) as ->
    by by_members Hs.
  assert (casted_prox s' = casted_prox s) as -> by by_members Hs.
  done.
Qed.

Lemma proba_loop_elsewhere x g n k0 s j :
  0 <= j ->
  (forall k, k0 <= k < k0 + Z.of_nat n ->
             0 <= get (indices x) k /\ get (indices x) k <> j) ->
  get (iterate (for_loop n k0 (proba_coordinate x g) s)) j
  = get (iterate s) j.
Proof.
  intros Hj. revert k0 s. induction n as [|n IH]; intros k0 s Hk; [done|].
  cbn [for_loop]. rewrite IH by (intros; apply Hk; lia).
  destruct (Hk k0) as [? ?]; [lia|].
  by apply proba_coordinate_elsewhere.
Qed.

Lemma proba_loop_here x g n :
  forall k0 s,
  (forall k, k0 <= k < k0 + Z.of_nat n ->
             0 <= get (indices x) k < size (iterate s)) ->
  (forall a b, k0 <= a < k0 + Z.of_nat n -> k0 <= b < k0 + Z.of_nat n ->
               a <> b -> get (indices x) a <> get (indices x) b) ->
  forall k, k0 <= k < k0 + Z.of_nat n ->
  get (iterate (for_loop n k0 (proba_coordinate x g) s)) (get (indices x) k)
  = spec_proba_update s x g k.
Proof.
  induction n as [|n IH]; intros k0 s Hin Hdis k Hk; [lia|].
  cbn [for_loop]. destruct (decide (k = k0)) as [->|Hne].
  - rewrite proba_loop_elsewhere.
    + apply proba_coordinate_here, Hin. lia.
    + apply Hin. lia.
    + intros k Hk'. split; [apply Hin; lia|apply Hdis; lia].
  - rewrite IH.
    + apply proba_update_ext.
      * apply update_frame_settings, frame_proba_coordinate.
      * apply proba_coordinate_elsewhere; [apply Hin; lia|apply Hin; lia|].
        apply Hdis; lia.
    + intros k' Hk'. rewrite size_iterate_proba_coordinate.
      apply Hin. lia.
    + intros a b Ha Hb. apply Hdis; lia.
    + lia.
Qed.


(** ** The exact routine on one coordinate *)

Lemma of_ulong_succ (d : nat) :
  of_ulong (Z.of_nat (S d)) = (of_ulong (Z.of_nat d) + 1)%Qc.
Proof.
  unfold of_ulong. rewrite Nat2Z.inj_succ, <- Z.add_1_r.
  by rewrite Z2Qc_inj_add, Z2Qc_inj_1.
Qed.

(** One decrement by [d] times the step is [d] decrements by the step. *)
Lemma sequential_decrements_batched step g d w :
  sequential_decrements step g d w
  = (w - step * of_ulong (Z.of_nat d) * g)%Qc.
Proof.
  unfold sequential_decrements. induction d as [|d IH].
  - change (of_ulong (Z.of_nat 0)) with (Qc_of_Z 0).
    rewrite Z2Qc_inj_0. unfold Nat.iter. cbn [nat_rect]. ring.
  - rewrite Nat.iter_succ, IH, of_ulong_succ. ring.
Qed.

Lemma delay_after t0 last (d : nat) :
  0 <= last -> t0 = last + 1 + Z.of_nat d -> t0 < ulong_modulus ->
  delay t0 last = Z.of_nat d.
Proof.
  intros Hl Ht Hm. unfold delay. cbn zeta.
  rewrite wrap_small by lia. case_bool_decide; lia.
Qed.

Lemma size_iterate_catch_up j d s :
  size (iterate (catch_up j d s)) = size (iterate s).
Proof.
  unfold catch_up. repeat case_match; members; by rewrite ?size_set.
Qed.

Lemma catch_up_here j (d : nat) s :
  is_prox_separable s = true -> batched_prox_contract (casted_prox s) ->
  0 <= j < size (iterate s) ->
  get (iterate (catch_up j (Z.of_nat d) s)) j
  = sequential_prox (casted_prox s) (step s) d
      (sequential_decrements (step s) (get (full_gradient s) j) d
         (get (iterate s) j)).
Proof.
  intros Hsep Hp Hj. unfold catch_up. case_bool_decide as Hd.
  - members. rewrite Hsep. members.
    rewrite get_set_eq by (by rewrite size_set).
    rewrite get_set_eq by done.
    rewrite Hp by lia. rewrite Nat2Z.id.
    by rewrite sequential_decrements_batched.
  - assert (d = O) as -> by lia. reflexivity.
Qed.

Lemma exact_coordinate_here x g k (d : nat) s :
  is_prox_separable s = true -> batched_prox_contract (casted_prox s) ->
  0 <= get (indices x) k < size (iterate s) ->
  0 <= get (last_time s) (get (indices x) k) ->
  t s = get (last_time s) (get (indices x) k) + 1 + Z.of_nat d ->
  t s < ulong_modulus ->
  get (iterate (exact_coordinate x g k s)) (get (indices x) k)
  = spec_sequential_update s x g k d.
Proof.
  intros Hsep Hp Hj Hl Ht Hm. unfold exact_coordinate, spec_sequential_update.
  cbn zeta. rewrite (delay_after _ _ d) by done.
  pose proof (catch_up_here (get (indices x) k) d s Hsep Hp Hj) as Hc.
  pose proof (size_iterate_catch_up (get (indices x) k) (Z.of_nat d) s) as Hz.
  pose proof (frame_catch_up (get (indices x) k) (Z.of_nat d) s) as Hf.
  apply update_frame_settings in Hf.
  revert Hc Hz Hf. generalize (catch_up (get (indices x) k) (Z.of_nat d) s).
  intros s1 Hc Hz Hf. members.
  assert (is_prox_separable s1 = true) as -> by (rewrite <- Hsep; by_members Hf).
  members. rewrite get_set_eq by (rewrite size_set; lia).
  rewrite get_set_eq by lia. rewrite Hc.
  assert (step s1 = step s) as -> by by_members Hf.
  assert (casted_prox s1 = casted_prox s) as -> by by_members Hf.
  done.
Qed.

Lemma prox_ridge_batched : batched_prox_contract prox_ridge.
Proof. intros x step n Hn. reflexivity. Qed.

(** The batched catch-up is not the interleaved form: on [exact_ready] the
    second coordinate, two iterations late, gets 8/3 where two iterations
    on the whole vector would have left 25/9. *)
Remark catch_up_is_not_interleaved :
  get (iterate (catch_up 1 2 exact_ready)) 1
  = (of_ulong 8 / of_ulong 3)%Qc
  /\ interleaved_catch_up prox_ridge (step exact_ready)
       (get (full_gradient exact_ready) 1) 2 (get (iterate exact_ready) 1)
     = (of_ulong 25 / of_ulong 9)%Qc.
Proof. split; apply (bool_decide_unpack _); by vm_compute. Qed.

(** ** The snapshot under the policy [Random] *)

Lemma choose_rand_index_random s :
  variance_reduction s = Random ->
  next_iterate (choose_rand_index s) = init_to_zero (next_iterate s)
  /\ rand_index (choose_rand_index s)
     = (rand_unif (epoch_size s) (rand s)).1.
Proof.
  intros Hv. unfold choose_rand_index. cbn zeta. members. rewrite Hv.
  rewrite (bool_decide_eq_true_2 (Random = Random)) by done.
  cbn [orb]. members. rewrite Hv.
  rewrite (bool_decide_eq_true_2 (Random = Random)) by done.
  by destruct (rand_unif _ _).
Qed.

(** [compute_step_corrections] writes the cache and nothing else. *)
Lemma compute_step_corrections_writes s s' :
  compute_step_corrections s = Returns s' ->
  bindings s' = bindings s /\ next_iterate s' = next_iterate s
  /\ rand s' = rand s.
Proof.
  intros Hc. split; [by apply compute_step_corrections_bindings|].
  revert Hc. unfold compute_step_corrections.
  repeat case_match; try (by intros [= <-]).
  cbn zeta.
  match goal with |- context [for_loopM ?n ?k ?b ?sc] =>
    destruct (for_loopM n k b sc) end; cbn; try done.
  by intros [= <-].
Qed.

Lemma prepare_solve_random s :
  variance_reduction s = Random -> no_division_by_zero s ->
  exists s1, prepare_solve s = Returns s1
             /\ next_iterate s1 = init_to_zero (next_iterate s)
             /\ rand_index s1 = (rand_unif (epoch_size s) (rand s)).1.
Proof.
  intros Hv Hnz. destruct (is_model_sparse s) eqn:Hs.
  - destruct (prepare_solve_returns s Hnz) as [s1 Hp].
    exists s1. split; [done|]. revert Hp.
    rewrite prepare_solve_sparse by done.
    match goal with |- context [compute_step_corrections ?s0] =>
      destruct (compute_step_corrections s0) as [s'| |] eqn:Hc end;
      cbn; try done.
    intros [= <-].
    apply compute_step_corrections_writes in Hc as (Hb & Hn & Hr).
    members in Hn. members in Hr.
    destruct (choose_rand_index_random (with_casted_prox (prox s') s'))
      as [-> ->]; [members; by_members Hb|].
    members. rewrite Hn, Hr.
    assert (epoch_size s' = epoch_size s) as -> by by_members Hb. done.
  - rewrite prepare_solve_dense by done. eexists. split; [done|].
    match goal with |- context [choose_rand_index ?s0] =>
      destruct (choose_rand_index_random s0) as [-> ->]; [done|] end.
    done.
Qed.

Lemma select_snapshot_random k s :
  variance_reduction s = Random ->
  next_iterate (select_snapshot k s)
  = if bool_decide (k = rand_index s) then iterate s else next_iterate s.
Proof.
  intros Hv. unfold select_snapshot. cbn zeta. rewrite Hv.
  rewrite (bool_decide_eq_true_2 (Random = Random)) by done. cbn [andb].
  destruct (bool_decide (k = rand_index s)); members; rewrite Hv;
    by rewrite (bool_decide_eq_false_2 (Random = Average)).
Qed.

(** An iteration of index [k]: the snapshot is taken when [k] is the drawn
    index and kept otherwise. *)
Lemma snapshot_after_iteration k u s :
  update_frame u = update_frame s -> variance_reduction s = Random ->
  next_iterate (select_snapshot k u)
  = if bool_decide (k = rand_index s) then iterate (select_snapshot k u)
    else next_iterate s.
Proof.
  intros Hu Hv.
  pose proof (update_frame_settings _ _ Hu) as Hs.
  rewrite select_snapshot_random by (rewrite <- Hv; by_members Hs).
  destruct (select_snapshot_keeps k u) as (_ & _ & -> & _).
  assert (rand_index u = rand_index s) as -> by by_members Hs.
  by rewrite (update_frame_next_iterate _ _ Hu).
Qed.

Lemma rand_index_settings s s' :
  settings s' = settings s ->
  rand_index s' = rand_index s
  /\ variance_reduction s' = variance_reduction s.
Proof. intros H. split; by_members H. Qed.

(** *** Loops with a local counter *)

Lemma dense_loop_miss n k0 s :
  variance_reduction s = Random ->
  rand_index s < k0 \/ k0 + Z.of_nat n <= rand_index s ->
  next_iterate (for_loop n k0 dense_iteration s) = next_iterate s.
Proof.
  revert k0 s. induction n as [|n IH]; intros k0 s Hv Hr; [done|].
  rewrite for_loop_S.
  destruct (rand_index_settings _ _ (settings_dense_iteration k0 s))
    as [Hri Hvr].
  rewrite IH by (rewrite ?Hri, ?Hvr; first [done|lia]).
  destruct (dense_iteration_snapshot k0 s) as (u & -> & Hu).
  rewrite (snapshot_after_iteration _ _ s) by done.
  rewrite bool_decide_eq_false_2 by lia. done.
Qed.

Lemma dense_loop_hit n k0 s :
  variance_reduction s = Random -> rand_index s = k0 + Z.of_nat n ->
  next_iterate (for_loop (S n) k0 dense_iteration s)
  = iterate (for_loop (S n) k0 dense_iteration s).
Proof.
  intros Hv Hr. replace (S n) with (n + 1)%nat by lia.
  rewrite for_loop_app. cbn [for_loop].
  destruct (rand_index_settings s _
    (for_loop_invariant settings _ settings_dense_iteration n k0 s))
    as [Hri Hvr].
  destruct (dense_iteration_snapshot (k0 + Z.of_nat n)
              (for_loop n k0 dense_iteration s)) as (u & -> & Hu).
  rewrite (snapshot_after_iteration _ _ _ Hu) by congruence.
  rewrite bool_decide_eq_true_2 by congruence. done.
Qed.

(** *** Loops on the member [t] *)

Section LoopOnT.

Variable body : SVRG -> SVRG.
Hypothesis body_snapshot :
  forall s, exists u, body s = select_snapshot (t s) u
                      /\ update_frame u = update_frame s.

Lemma body_settings s : settings (body s) = settings s.
Proof.
  destruct (body_snapshot s) as (u & -> & Hu).
  rewrite settings_select_snapshot. by apply update_frame_settings.
Qed.

Lemma body_t s : t (body s) = t s.
Proof.
  destruct (body_snapshot s) as (u & -> & Hu).
  destruct (select_snapshot_keeps (t s) u) as (_ & -> & _).
  by apply update_frame_t.
Qed.

Lemma loop_t_settings n s : settings (loop_t n body s) = settings s.
Proof. apply loop_t_invariant; [apply body_settings|done]. Qed.

Lemma loop_t_miss n s :
  variance_reduction s = Random ->
  rand_index s < t s \/ t s + Z.of_nat n <= rand_index s ->
  next_iterate (loop_t n body s) = next_iterate s.
Proof.
  revert s. induction n as [|n IH]; intros s Hv Hr; [done|].
  cbn [loop_t]. cbn zeta.
  destruct (rand_index_settings _ _ (body_settings s)) as [Hri Hvr].
  rewrite IH.
  - members. destruct (body_snapshot s) as (u & -> & Hu).
    rewrite (snapshot_after_iteration _ _ s) by done.
    rewrite bool_decide_eq_false_2 by lia. done.
  - members. congruence.
  - members. rewrite body_t, Hri. lia.
Qed.

Lemma loop_t_hit n s :
  variance_reduction s = Random -> rand_index s = t s + Z.of_nat n ->
  next_iterate (loop_t (S n) body s) = iterate (loop_t (S n) body s).
Proof.
  intros Hv Hr. replace (S n) with (n + 1)%nat by lia.
  rewrite loop_t_app. cbn [loop_t]. cbn zeta. members.
  destruct (rand_index_settings _ _ (loop_t_settings n s)) as [Hri Hvr].
  destruct (body_snapshot (loop_t n body s)) as (u & -> & Hu).
  rewrite (snapshot_after_iteration _ _ _ Hu) by congruence.
  rewrite bool_decide_eq_true_2; [done|].
  rewrite loop_t_counter by apply body_t. congruence.
Qed.

(** The whole loop, cut after the iteration of the drawn index. *)
Lemma for_t_random s :
  variance_reduction s = Random -> 0 <= rand_index s < epoch_size s ->
  next_iterate (for_t body s)
  = iterate (loop_t (S (Z.to_nat (rand_index s))) body (with_t 0 s)).
Proof.
  intros Hv Hr. unfold for_t.
  replace (Z.to_nat (epoch_size s))
    with (S (Z.to_nat (rand_index s))
          + (Z.to_nat (epoch_size s) - S (Z.to_nat (rand_index s))))%nat
    by lia.
  rewrite loop_t_app.
  destruct (rand_index_settings _ _
    (loop_t_settings (S (Z.to_nat (rand_index s))) (with_t 0 s)))
    as [Hri Hvr].
  members in Hri. members in Hvr.
  rewrite loop_t_miss.
  - apply loop_t_hit; members; [done|lia].
  - congruence.
  - left. rewrite Hri, loop_t_counter by apply body_t. members. lia.
Qed.

End LoopOnT.

Lemma dense_loop_random s :
  variance_reduction s = Random -> 0 <= rand_index s < epoch_size s ->
  next_iterate (for_range (epoch_size s) dense_iteration s)
  = iterate (for_loop (S (Z.to_nat (rand_index s))) 0 dense_iteration s).
Proof.
  intros Hv Hr. unfold for_range.
  replace (Z.to_nat (epoch_size s))
    with (S (Z.to_nat (rand_index s))
          + (Z.to_nat (epoch_size s) - S (Z.to_nat (rand_index s))))%nat
    by lia.
  rewrite for_loop_app.
  destruct (rand_index_settings s _
    (for_loop_invariant settings _ settings_dense_iteration
       (S (Z.to_nat (rand_index s))) 0 s)) as [Hri Hvr].
  rewrite dense_loop_miss.
  - apply dense_loop_hit; [done|lia].
  - congruence.
  - left. rewrite Hri. lia.
Qed.

Lemma next_iterate_keep_last_random s :
  variance_reduction s = Random -> next_iterate (keep_last s) = next_iterate s.
Proof.
  intros Hv. unfold keep_last. rewrite Hv.
  by rewrite (bool_decide_eq_false_2 (Random = Last)).
Qed.

Lemma solve_dense_random s :
  variance_reduction s = Random -> 0 <= rand_index s < epoch_size s ->
  next_iterate (solve_dense s)
  = iterate (for_loop (S (Z.to_nat (rand_index s))) 0 dense_iteration s).
Proof.
  intros Hv Hr. unfold solve_dense. cbn zeta. unfold add_epoch. members.
  rewrite next_iterate_keep_last_random.
  - by apply dense_loop_random.
  - destruct (rand_index_settings s _
      (for_loop_invariant settings _ settings_dense_iteration
         (Z.to_nat (epoch_size s)) 0 s)) as [_ Hvr].
    unfold for_range. congruence.
Qed.

Lemma solve_sparse_proba_updates_random s :
  variance_reduction s = Random -> 0 <= rand_index s < epoch_size s ->
  next_iterate (solve_sparse_proba_updates s)
  = iterate (loop_t (S (Z.to_nat (rand_index s))) proba_iteration
               (with_t 0 s)).
Proof.
  intros Hv Hr. unfold solve_sparse_proba_updates. cbn zeta.
  destruct (rand_index_settings _ _
    (settings_for_t _ s settings_proba_iteration)) as [_ Hvr].
  rewrite next_iterate_keep_last_random
    by (unfold add_epoch; members; congruence).
  unfold add_epoch. members.
  by apply (for_t_random _ proba_iteration_snapshot).
Qed.

Lemma solve_sparse_exact_updates_random s :
  variance_reduction s = Random -> 0 <= rand_index s < epoch_size s ->
  next_iterate (solve_sparse_exact_updates s)
  = iterate (loop_t (S (Z.to_nat (rand_index s))) exact_iteration
               (with_t 0 s)).
Proof.
  intros Hv Hr. unfold solve_sparse_exact_updates. cbn zeta.
  destruct (rand_index_settings _ _
    (settings_for_t _ s settings_exact_iteration)) as [_ Hvr].
  unfold for_range.
  destruct (rand_index_settings _ _
    (settings_finalize_loop (Z.to_nat (n_features (for_t exact_iteration s)))
       0 (for_t exact_iteration s))) as [_ Hvf].
  rewrite next_iterate_keep_last_random
    by (unfold add_epoch; members; congruence).
  unfold add_epoch. members.
  rewrite (for_loop_invariant next_iterate _
    (fun j s => update_frame_next_iterate _ _ (frame_finalize_coordinate j s))).
  by apply (for_t_random _ exact_iteration_snapshot).
Qed.

(** C6: under the policy [Random], [prepare_solve] zeroes [next_iterate]
    and takes the index [rand_unif(epoch_size)] gives, an index of the
    epoch; after [solve], [next_iterate] is the iterate as it was at the end
    of the iteration of that index, whatever the later iterations did.
    That the draw is uniform is a property of the generator, outside of
    this model. *)
Theorem random_snapshot_at_drawn_index (s : SVRG) :
  variance_reduction s = Random -> rand_unif_in_range (rand s) ->
  0 < epoch_size s -> no_division_by_zero s ->
  (Model.is_sparse (model s) = true ->
   delayed_updates s = Exact \/ delayed_updates s = Proba) ->
  exists s1 s',
    prepare_solve s = Returns s1
    /\ next_iterate s1 = init_to_zero (next_iterate s)
    /\ rand_index s1 = (rand_unif (epoch_size s) (rand s)).1
    /\ 0 <= rand_index s1 < epoch_size s
    /\ solve s = Returns s'
    /\ next_iterate s'
       = iterate (epoch_prefix (S (Z.to_nat (rand_index s1))) s1).
Proof.
  intros Hv Hrange He Hnz Hpol.
  destruct (prepare_solve_random s Hv Hnz) as (s1 & Hp & Hn & Hr).
  assert (Hin : 0 <= rand_index s1 < epoch_size s)
    by (rewrite Hr; by apply Hrange).
  rewrite solve_unfold, Hp. cbn. exists s1. eexists.
  do 4 (split; [done|]). split; [done|].
  apply prepare_solve_bindings in Hp.
  assert (Hv1 : variance_reduction s1 = Random)
    by (rewrite <- Hv; by_members Hp).
  assert (He1 : epoch_size s1 = epoch_size s) by by_members Hp.
  assert (Hm1 : model s1 = model s) by by_members Hp.
  assert (Hd1 : delayed_updates s1 = delayed_updates s) by by_members Hp.
  unfold epoch_prefix. rewrite Hm1, Hd1.
  destruct (Model.is_sparse (model s)).
  - destruct Hpol as [-> | ->]; [done| |].
    + apply solve_sparse_exact_updates_random; [done|lia].
    + apply solve_sparse_proba_updates_random; [done|lia].
  - apply solve_dense_random; [done|lia].
Qed.

Lemma replay_in_range l : rand_unif_in_range (replay l).
Proof. intros k max Hmax. cbn. apply Z.mod_pos_bound. lia. Qed.

Lemma random_snapshot_at_drawn_index_witness :
  exists s1 s',
    prepare_solve random_dense = Returns s1
    /\ next_iterate s1 = init_to_zero (next_iterate random_dense)
    /\ rand_index s1
       = (rand_unif (epoch_size random_dense) (rand random_dense)).1
    /\ 0 <= rand_index s1 < epoch_size random_dense
    /\ solve random_dense = Returns s'
    /\ next_iterate s'
       = iterate (epoch_prefix (S (Z.to_nat (rand_index s1))) s1).
Proof.
  apply (random_snapshot_at_drawn_index random_dense);
    [reflexivity|apply replay_in_range|by vm_compute|intros [=]|intros [=]].
Defined.

(** ** The end of an epoch of the exact routine *)

Lemma last_time_catch_up j d s : last_time (catch_up j d s) = last_time s.
Proof. unfold catch_up. by repeat case_match. Qed.

(** The second loop of the exact routine writes the iterate only. *)
Lemma finalization_keeps_last_time n s :
  last_time (for_range n finalize_coordinate s) = last_time s.
Proof.
  unfold for_range. apply (for_loop_invariant last_time).
  intros j s'. apply last_time_catch_up.
Qed.

(** For a coordinate the epoch never met, [last_time] is still the zero it
    was filled with, and the delay counted at the end of an epoch of
    [epoch_size] iterations is [epoch_size - 1]. *)
Lemma delay_never_touched epoch_size :
  1 <= epoch_size -> delay epoch_size 0 = epoch_size - 1.
Proof.
  intros He. unfold delay. cbn zeta.
  rewrite wrap_small by done. case_bool_decide; lia.
Qed.

(** C5: the exact routine is run for an epoch of three iterations that
    sample the first row each time.  The second coordinate, whose full
    gradient is -1/2, is never in the support; with step 1 three decrements
    bring it from 0 to 3/2, which is what the same epoch does on the dense
    model, and the exact routine leaves it at 1: the delay counted from the
    initial [last_time] of zero is one short. *)
Theorem finalization_leaves_a_decrement :
  full_gradient <$> solve exact_three_iterations
  = Returns [0%Qc; (- (1 / 2))%Qc]
  /\ last_time <$> solve exact_three_iterations = Returns [2; 0]
  /\ iterate <$> solve exact_three_iterations = Returns [0%Qc; 1%Qc]
  /\ iterate <$> solve dense_three_iterations
     = Returns [0%Qc; (of_ulong 3 / 2)%Qc].
Proof. repeat split; apply (bool_decide_unpack _); by vm_compute. Qed.

(** ** The snapshot under the policies [Last] and [Average] *)

Lemma keep_last_last s :
  variance_reduction s = Last ->
  next_iterate (keep_last s) = iterate (keep_last s).
Proof.
  intros Hv. unfold keep_last. rewrite Hv.
  by rewrite (bool_decide_eq_true_2 (Last = Last)).
Qed.

Lemma variance_reduction_settings s s' :
  settings s' = settings s -> variance_reduction s' = variance_reduction s.
Proof. intros H. by_members H. Qed.

Lemma dispatch_last s s1 :
  variance_reduction s1 = Last ->
  (Model.is_sparse (model s) = true ->
   delayed_updates s = Exact \/ delayed_updates s = Proba) ->
  let s' := if Model.is_sparse (model s) then
              match delayed_updates s with
              | Exact => solve_sparse_exact_updates s1
              | Proba => solve_sparse_proba_updates s1
              | UnlistedDelayedUpdates _ => s1
              end
            else solve_dense s1 in
  next_iterate s' = iterate s'.
Proof.
  intros Hv Hpol. cbn zeta. destruct (Model.is_sparse (model s)).
  - destruct Hpol as [-> | ->]; [done| |].
    + unfold solve_sparse_exact_updates. cbn zeta. apply keep_last_last.
      unfold add_epoch, for_range. members.
      rewrite (variance_reduction_settings _ _ (settings_finalize_loop _ _ _)).
      by rewrite (variance_reduction_settings _ _
                    (settings_for_t _ _ settings_exact_iteration)).
    + unfold solve_sparse_proba_updates. cbn zeta. apply keep_last_last.
      unfold add_epoch. members.
      by rewrite (variance_reduction_settings _ _
                    (settings_for_t _ _ settings_proba_iteration)).
  - unfold solve_dense. cbn zeta. unfold add_epoch. members.
    apply keep_last_last. unfold for_range.
    by rewrite (variance_reduction_settings _ _
      (for_loop_invariant settings _ settings_dense_iteration _ _ _)).
Qed.

(** X1: under the policy [Last], whatever routine the epoch runs, the
    snapshot [solve] leaves is the iterate it leaves (for the exact
    routine, the iterate after the pass that ends the epoch). *)
Theorem last_snapshot_is_final_iterate (s : SVRG) :
  variance_reduction s = Last -> no_division_by_zero s ->
  (Model.is_sparse (model s) = true ->
   delayed_updates s = Exact \/ delayed_updates s = Proba) ->
  exists s', solve s = Returns s' /\ next_iterate s' = iterate s'.
Proof.
  intros Hv Hnz Hpol. rewrite solve_unfold.
  destruct (prepare_solve_returns s Hnz) as [s1 Hp]. rewrite Hp. cbn.
  eexists. split; [done|]. apply dispatch_last; [|done].
  apply prepare_solve_bindings in Hp. rewrite <- Hv. by_members Hp.
Qed.

Lemma last_snapshot_is_final_iterate_witness :
  exists s', solve exact_three_iterations = Returns s'
             /\ next_iterate s' = iterate s'.
Proof.
  apply (last_snapshot_is_final_iterate exact_three_iterations);
    [reflexivity|intros _ _ _ [=]|by left].
Defined.

(** *** The policy [Average] *)

Lemma select_snapshot_average k s :
  variance_reduction s = Average ->
  next_iterate (select_snapshot k s)
  = mult_incr (next_iterate s) (iterate s) (1 / of_ulong (epoch_size s))%Qc.
Proof.
  intros Hv. unfold select_snapshot. cbn zeta. rewrite Hv.
  rewrite (bool_decide_eq_false_2 (Average = Random)) by done.
  cbn [andb]. rewrite Hv.
  by rewrite (bool_decide_eq_true_2 (Average = Average)).
Qed.

(** An iteration adds the iterate it ends with to the accumulator. *)
Lemma average_after_iteration k u s :
  update_frame u = update_frame s -> variance_reduction s = Average ->
  next_iterate (select_snapshot k u)
  = mult_incr (next_iterate s) (iterate (select_snapshot k u))
      (1 / of_ulong (epoch_size s))%Qc.
Proof.
  intros Hu Hv.
  pose proof (update_frame_settings _ _ Hu) as Hs.
  rewrite select_snapshot_average by (rewrite <- Hv; by_members Hs).
  destruct (select_snapshot_keeps k u) as (_ & _ & -> & _).
  rewrite (update_frame_next_iterate _ _ Hu).
  by rewrite (epoch_size_settings _ _ Hs).
Qed.

Lemma accumulate_snoc c acc ws w :
  accumulate c acc (ws ++ [w]) = mult_incr (accumulate c acc ws) w c.
Proof. unfold accumulate. by rewrite fold_left_app. Qed.

Lemma dense_loop_average n s :
  variance_reduction s = Average ->
  next_iterate (for_loop n 0 dense_iteration s)
  = accumulate (1 / of_ulong (epoch_size s))%Qc (next_iterate s)
      (map (fun k => iterate (for_loop (S k) 0 dense_iteration s))
         (seq 0 n)).
Proof.
  intros Hv. induction n as [|n IH]; [done|].
  rewrite seq_S, map_app. cbn [map Nat.add].
  rewrite accumulate_snoc, <- IH.
  replace (S n) with (n + 1)%nat by lia.
  rewrite for_loop_app. cbn [for_loop].
  pose proof (for_loop_invariant settings _ settings_dense_iteration n 0 s)
    as Hn.
  destruct (dense_iteration_snapshot (0 + Z.of_nat n)
              (for_loop n 0 dense_iteration s)) as (u & -> & Hu).
  rewrite (average_after_iteration _ _ _ Hu)
    by (rewrite <- Hv; by_members Hn).
  by rewrite (epoch_size_settings _ _ Hn).
Qed.

Section AverageOnT.

Variable body : SVRG -> SVRG.
Hypothesis body_snapshot :
  forall s, exists u, body s = select_snapshot (t s) u
                      /\ update_frame u = update_frame s.

Lemma loop_t_average n s :
  variance_reduction s = Average ->
  next_iterate (loop_t n body s)
  = accumulate (1 / of_ulong (epoch_size s))%Qc (next_iterate s)
      (map (fun k => iterate (loop_t (S k) body s)) (seq 0 n)).
Proof.
  intros Hv. induction n as [|n IH]; [done|].
  rewrite seq_S, map_app. cbn [map Nat.add].
  rewrite accumulate_snoc, <- IH.
  replace (S n) with (n + 1)%nat by lia.
  rewrite loop_t_app. cbn [loop_t]. cbn zeta. members.
  pose proof (loop_t_settings body body_snapshot n s) as Hn.
  destruct (body_snapshot (loop_t n body s)) as (u & -> & Hu).
  rewrite (average_after_iteration _ _ _ Hu)
    by (rewrite <- Hv; by_members Hn).
  by rewrite (epoch_size_settings _ _ Hn).
Qed.

End AverageOnT.

Lemma next_iterate_keep_last_average s :
  variance_reduction s = Average ->
  next_iterate (keep_last s) = next_iterate s.
Proof.
  intros Hv. unfold keep_last. rewrite Hv.
  by rewrite (bool_decide_eq_false_2 (Average = Last)).
Qed.

Lemma choose_rand_index_average s :
  variance_reduction s = Average ->
  next_iterate (choose_rand_index s) = init_to_zero (next_iterate s).
Proof.
  intros Hv. unfold choose_rand_index. cbn zeta. members. rewrite Hv.
  rewrite (bool_decide_eq_true_2 (Average = Average)) by done.
  rewrite orb_true_r. members. rewrite Hv.
  by rewrite (bool_decide_eq_false_2 (Average = Random)).
Qed.

Lemma prepare_solve_average s :
  variance_reduction s = Average -> no_division_by_zero s ->
  exists s1, prepare_solve s = Returns s1
             /\ next_iterate s1 = init_to_zero (next_iterate s).
Proof.
  intros Hv Hnz. destruct (is_model_sparse s) eqn:Hs.
  - destruct (prepare_solve_returns s Hnz) as [s1 Hp].
    exists s1. split; [done|]. revert Hp.
    rewrite prepare_solve_sparse by done.
    match goal with |- context [compute_step_corrections ?s0] =>
      destruct (compute_step_corrections s0) as [s'| |] eqn:Hc end;
      cbn; try done.
    intros [= <-].
    apply compute_step_corrections_writes in Hc as (Hb & Hn & Hr).
    members in Hn.
    rewrite choose_rand_index_average by (members; by_members Hb).
    members. by rewrite Hn.
  - rewrite prepare_solve_dense by done. eexists. split; [done|].
    by rewrite choose_rand_index_average.
Qed.

(** X2: under the policy [Average], [prepare_solve] zeroes the accumulator
    and [solve] leaves in [next_iterate] the iterates at the end of the
    iterations of the epoch, each added once with the weight
    [1 / epoch_size], in the order of the iterations (for the exact
    routine these are the iterates before the pass that ends the epoch). *)
Theorem average_snapshot_accumulates (s : SVRG) :
  variance_reduction s = Average -> no_division_by_zero s ->
  (Model.is_sparse (model s) = true ->
   delayed_updates s = Exact \/ delayed_updates s = Proba) ->
  exists s1 s',
    prepare_solve s = Returns s1 /\ solve s = Returns s'
    /\ next_iterate s'
       = accumulate (1 / of_ulong (epoch_size s))%Qc
           (init_to_zero (next_iterate s))
           (epoch_iterates (Z.to_nat (epoch_size s)) s1).
Proof.
  intros Hv Hnz Hpol.
  destruct (prepare_solve_average s Hv Hnz) as (s1 & Hp & Hn).
  rewrite solve_unfold, Hp. cbn. exists s1. eexists.
  split; [done|]. split; [done|].
  apply prepare_solve_bindings in Hp.
  assert (Hv1 : variance_reduction s1 = Average)
    by (rewrite <- Hv; by_members Hp).
  assert (He1 : epoch_size s1 = epoch_size s) by by_members Hp.
  assert (Hm1 : model s1 = model s) by by_members Hp.
  assert (Hd1 : delayed_updates s1 = delayed_updates s) by by_members Hp.
  unfold epoch_iterates, epoch_prefix. rewrite Hm1, Hd1, <- Hn, <- He1.
  destruct (Model.is_sparse (model s)).
  - destruct Hpol as [-> | ->]; [done| |].
    + unfold solve_sparse_exact_updates. cbn zeta.
      rewrite next_iterate_keep_last_average.
      2:{ unfold add_epoch, for_range. members.
          rewrite (variance_reduction_settings _ _
                     (settings_finalize_loop _ _ _)).
          by rewrite (variance_reduction_settings _ _
                        (settings_for_t _ _ settings_exact_iteration)). }
      unfold add_epoch, for_range. members.
      rewrite (for_loop_invariant next_iterate _
        (fun j s => update_frame_next_iterate _ _
                      (frame_finalize_coordinate j s))).
      unfold for_t.
      by rewrite (loop_t_average _ exact_iteration_snapshot).
    + unfold solve_sparse_proba_updates. cbn zeta.
      rewrite next_iterate_keep_last_average.
      2:{ unfold add_epoch. members.
          by rewrite (variance_reduction_settings _ _
                        (settings_for_t _ _ settings_proba_iteration)). }
      unfold add_epoch. members. unfold for_t.
      by rewrite (loop_t_average _ proba_iteration_snapshot).
  - unfold solve_dense. cbn zeta. unfold add_epoch. members.
    rewrite next_iterate_keep_last_average.
    2:{ unfold for_range.
        by rewrite (variance_reduction_settings _ _
          (for_loop_invariant settings _ settings_dense_iteration _ _ _)). }
    unfold for_range. by rewrite dense_loop_average.
Qed.

Lemma average_snapshot_accumulates_witness :
  exists s1 s',
    prepare_solve average_dense = Returns s1
    /\ solve average_dense = Returns s'
    /\ next_iterate s'
       = accumulate (1 / of_ulong (epoch_size average_dense))%Qc
           (init_to_zero (next_iterate average_dense))
           (epoch_iterates (Z.to_nat (epoch_size average_dense)) s1).
Proof.
  apply (average_snapshot_accumulates average_dense);
    [reflexivity|intros [=]|intros [=]].
Defined.

(** ** The reference point of an epoch *)

Lemma reference_choose_rand_index s :
  fixed_w (choose_rand_index s) = fixed_w s
  /\ full_gradient (choose_rand_index s) = full_gradient s.
Proof. unfold choose_rand_index. by repeat case_match. Qed.

Lemma compute_step_corrections_keeps_reference s s' :
  compute_step_corrections s = Returns s' ->
  fixed_w s' = fixed_w s /\ full_gradient s' = full_gradient s
  /\ last_time s' = last_time s.
Proof.
  unfold compute_step_corrections.
  repeat case_match; try (by intros [= <-]).
  cbn zeta.
  match goal with |- context [for_loopM ?n ?k ?b ?sc] =>
    destruct (for_loopM n k b sc) end; cbn; try done.
  by intros [= <-].
Qed.

Lemma prepare_solve_reference s s1 :
  prepare_solve s = Returns s1 ->
  fixed_w s1 = next_iterate s
  /\ full_gradient s1 = Model.grad (model s) (next_iterate s).
Proof.
  destruct (is_model_sparse s) eqn:Hs.
  - rewrite prepare_solve_sparse by done.
    match goal with |- context [compute_step_corrections ?s0] =>
      destruct (compute_step_corrections s0) as [s'| |] eqn:Hc end;
      cbn; try done.
    intros [= <-].
    apply compute_step_corrections_keeps_reference in Hc as (Hf & Hg & _).
    members in Hf. members in Hg.
    destruct (reference_choose_rand_index (with_casted_prox (prox s') s'))
      as [-> ->].
    members. by rewrite Hf, Hg.
  - rewrite prepare_solve_dense by done. intros [= <-].
    match goal with |- context [choose_rand_index ?s0] =>
      destruct (reference_choose_rand_index s0) as [-> ->] end.
    done.
Qed.

(** X3: a call of [solve] takes as reference point the snapshot the solver
    held on entry (the one the previous epoch left, or the starting
    iterate), caches the gradient of the model at that point, and no
    routine moves either of them during the epoch. *)
Theorem epoch_reference_point (s : SVRG) :
  no_division_by_zero s ->
  exists s', solve s = Returns s'
             /\ fixed_w s' = next_iterate s
             /\ full_gradient s' = Model.grad (model s) (next_iterate s).
Proof.
  intros Hnz. rewrite solve_unfold.
  destruct (prepare_solve_returns s Hnz) as [s1 Hp]. rewrite Hp. cbn.
  eexists. split; [done|].
  destruct (prepare_solve_reference s s1 Hp) as [<- <-].
  pose proof (dispatch_settings s s1) as Hd. split; by_members Hd.
Qed.

Lemma epoch_reference_point_witness :
  exists s', solve random_dense = Returns s'
             /\ fixed_w s' = next_iterate random_dense
             /\ full_gradient s'
                = Model.grad (model random_dense) (next_iterate random_dense).
Proof. apply (epoch_reference_point random_dense). intros [=]. Defined.

(** ** An epoch without iteration *)

Lemma wrap_nonnegative z : 0 <= wrap z.
Proof. unfold wrap. apply Z.mod_pos_bound. done. Qed.

Lemma delay_at_zero last : delay 0 last = 0.
Proof.
  unfold delay. cbn zeta. pose proof (wrap_nonnegative (last + 1)).
  case_bool_decide; [lia|done].
Qed.

Lemma catch_up_no_delay j s : catch_up j 0 s = s.
Proof. unfold catch_up. by rewrite bool_decide_eq_false_2 by lia. Qed.

Lemma finalize_loop_at_zero n k s :
  t s = 0 -> for_loop n k finalize_coordinate s = s.
Proof.
  intros Ht. revert k. induction n as [|n IH]; intros k; [done|].
  cbn [for_loop]. unfold finalize_coordinate at 2.
  rewrite Ht, delay_at_zero, catch_up_no_delay. apply IH.
Qed.

Lemma iterate_dispatch_no_iteration s s1 :
  epoch_size s1 = 0 ->
  iterate (if Model.is_sparse (model s) then
             match delayed_updates s with
             | Exact => solve_sparse_exact_updates s1
             | Proba => solve_sparse_proba_updates s1
             | UnlistedDelayedUpdates _ => s1
             end
           else solve_dense s1)
  = iterate s1.
Proof.
  intros He. destruct (Model.is_sparse (model s)).
  - destruct (delayed_updates s); [| |done].
    + unfold solve_sparse_exact_updates. cbn zeta.
      rewrite iterate_keep_last. unfold add_epoch, for_range, for_t.
      members. rewrite He. cbn [Z.to_nat loop_t].
      by rewrite finalize_loop_at_zero.
    + unfold solve_sparse_proba_updates. cbn zeta.
      rewrite iterate_keep_last. unfold add_epoch, for_t. members.
      by rewrite He.
  - unfold solve_dense. cbn zeta. unfold add_epoch, for_range. members.
    rewrite iterate_keep_last. by rewrite He.
Qed.

(** X5: with [epoch_size = 0] a call of [solve] runs no iteration, the pass
    that ends the exact routine finds no delay, and the iterate is left
    as it was. *)
Theorem no_iteration_keeps_iterate (s : SVRG) :
  epoch_size s = 0 -> no_division_by_zero s ->
  exists s', solve s = Returns s' /\ iterate s' = iterate s.
Proof.
  intros He Hnz. rewrite solve_unfold.
  destruct (prepare_solve_returns s Hnz) as [s1 Hp]. rewrite Hp. cbn.
  eexists. split; [done|].
  apply prepare_solve_bindings in Hp.
  rewrite iterate_dispatch_no_iteration by (rewrite <- He; by_members Hp).
  by_members Hp.
Qed.

Lemma no_iteration_keeps_iterate_witness :
  exists s', solve exact_no_iteration = Returns s'
             /\ iterate s' = iterate exact_no_iteration.
Proof.
  apply (no_iteration_keeps_iterate exact_no_iteration);
    [reflexivity|intros _ _ _ [=]].
Defined.

(** ** The dense routine, coordinate by coordinate *)

(** A loop that rewrites [a[j]] from its own value, for [k <= j < k + n]. *)
Lemma size_update_loop {A} `{Inhabited A} (f : ulong -> A -> A) n k
    (a : list A) :
  size (for_loop n k (fun j a => set a j (f j (get a j))) a) = size a.
Proof.
  revert k a. induction n as [|n IH]; intros k a; [done|].
  cbn [for_loop]. by rewrite IH, size_set.
Qed.

Lemma get_update_loop_elsewhere {A} `{Inhabited A} (f : ulong -> A -> A)
    n k (a : list A) i :
  0 <= k -> 0 <= i -> i < k \/ k + Z.of_nat n <= i ->
  get (for_loop n k (fun j a => set a j (f j (get a j))) a) i = get a i.
Proof.
  revert k a. induction n as [|n IH]; intros k a Hk Hi Hout; [done|].
  cbn [for_loop]. rewrite IH by lia. apply get_set_ne; lia.
Qed.

Lemma get_update_loop {A} `{Inhabited A} (f : ulong -> A -> A) n k
    (a : list A) i :
  0 <= k -> k <= i < k + Z.of_nat n -> i < size a ->
  get (for_loop n k (fun j a => set a j (f j (get a j))) a) i
  = f i (get a i).
Proof.
  revert k a. induction n as [|n IH]; intros k a Hk Hi Hsz; [lia|].
  cbn [for_loop]. destruct (decide (i = k)) as [->|Hne].
  - rewrite get_update_loop_elsewhere by lia. apply get_set_eq. lia.
  - rewrite IH by (rewrite ?size_set; lia).
    f_equal. apply get_set_ne; lia.
Qed.

Lemma dense_coordinates_pointwise s w j :
  0 <= j < size w ->
  get (for_range (size w) (dense_coordinate s) w) j
  = (get w j - step s * (get (grad_i s) j - get (grad_i_fixed_w s) j
                         + get (full_gradient s) j))%Qc.
Proof.
  intros Hj. unfold for_range.
  apply (get_update_loop
           (fun j x => (x - step s * (get (grad_i s) j
                                      - get (grad_i_fixed_w s) j
                                      + get (full_gradient s) j))%Qc));
    unfold size in *; lia.
Qed.

Lemma size_dense_coordinates s w :
  size (for_range (size w) (dense_coordinate s) w) = size w.
Proof.
  unfold for_range.
  apply (size_update_loop
           (fun j x => (x - step s * (get (grad_i s) j
                                      - get (grad_i_fixed_w s) j
                                      + get (full_gradient s) j))%Qc)).
Qed.

(** X6: an iteration of the dense routine hands to the prox, with the
    step of the solver, a vector of the size of the iterate in which every
    coordinate has made the variance-reduced gradient step of the sample
    drawn: the gradient of the sample at the iterate, minus its gradient
    at the reference point, plus the full gradient. *)
Theorem dense_iteration_update (k : ulong) (s : SVRG) :
  exists w,
    iterate (dense_iteration k s) = Prox.call (prox s) w (step s)
    /\ size w = size (iterate s)
    /\ forall j, 0 <= j < size (iterate s) ->
                 get w j = svrg_step s (next_sample s) j.
Proof.
  unfold dense_iteration. cbn.
  match goal with |- context [select_snapshot k ?u] =>
    destruct (select_snapshot_keeps k u) as (_ & _ & -> & _) end.
  members. eexists. split; [reflexivity|]. split.
  - apply size_dense_coordinates.
  - intros j Hj. by rewrite dense_coordinates_pointwise.
Qed.

(** ** A stationary point *)

Lemma dense_coordinate_stationary s j w :
  grad_i s = grad_i_fixed_w s -> get (full_gradient s) j = 0%Qc ->
  dense_coordinate s j w = w.
Proof.
  intros Hg Hf. unfold dense_coordinate. rewrite Hg, Hf.
  match goal with |- set w j ?v = w =>
    replace v with (get w j) by ring end.
  apply set_get_same.
Qed.

Lemma dense_coordinates_stationary s n k w :
  grad_i s = grad_i_fixed_w s ->
  (forall j, get (full_gradient s) j = 0%Qc) ->
  for_loop n k (dense_coordinate s) w = w.
Proof.
  intros Hg Hf. revert k. induction n as [|n IH]; intros k; [done|].
  cbn [for_loop]. by rewrite dense_coordinate_stationary.
Qed.

Lemma dense_iteration_stationary w k s :
  sits_at w s -> sits_at w (dense_iteration k s).
Proof.
  intros (Hi & Hf & Hg & Hp).
  pose proof (settings_dense_iteration k s) as Hs.
  assert (Hit : iterate (dense_iteration k s) = w).
  { unfold dense_iteration. cbn.
    match goal with |- context [select_snapshot k ?u] =>
      destruct (select_snapshot_keeps k u) as (_ & _ & -> & _) end.
    members. unfold for_range.
    rewrite dense_coordinates_stationary; members;
      [by rewrite Hi, Hp|by rewrite Hi, Hf|done]. }
  split; [done|]. split; [rewrite <- Hf; by_members Hs|]. split.
  - assert (full_gradient (dense_iteration k s) = full_gradient s) as ->
      by by_members Hs. done.
  - assert (prox (dense_iteration k s) = prox s) as -> by by_members Hs.
    assert (step (dense_iteration k s) = step s) as -> by by_members Hs.
    done.
Qed.

Lemma dense_loop_stationary w n k s :
  sits_at w s -> sits_at w (for_loop n k dense_iteration s).
Proof.
  revert k s. induction n as [|n IH]; intros k s Hs; [done|].
  rewrite for_loop_S. by apply IH, dense_iteration_stationary.
Qed.

Lemma solve_dense_stationary w s :
  sits_at w s -> variance_reduction s = Last ->
  iterate (solve_dense s) = w /\ next_iterate (solve_dense s) = w.
Proof.
  intros Hs Hv.
  pose proof (dense_loop_stationary w (Z.to_nat (epoch_size s)) 0 s Hs)
    as (Hi & _).
  pose proof (for_loop_invariant settings _ settings_dense_iteration
                (Z.to_nat (epoch_size s)) 0 s) as Hset.
  unfold solve_dense. cbn zeta. unfold add_epoch, for_range. members.
  rewrite keep_last_last
    by (by rewrite (variance_reduction_settings _ _ Hset)).
  by rewrite iterate_keep_last.
Qed.

Lemma choose_rand_index_last s :
  variance_reduction s = Last -> choose_rand_index s = with_rand_index 0 s.
Proof.
  intros Hv. unfold choose_rand_index. cbn zeta. members. rewrite Hv.
  rewrite (bool_decide_eq_false_2 (Last = Random)) by done.
  rewrite (bool_decide_eq_false_2 (Last = Average)) by done.
  cbn [orb]. members. rewrite Hv.
  by rewrite (bool_decide_eq_false_2 (Last = Random)).
Qed.

Lemma solve_stationary s :
  Model.is_sparse (model s) = false -> is_model_sparse s = false ->
  variance_reduction s = Last -> next_iterate s = iterate s ->
  (forall j, get (Model.grad (model s) (iterate s)) j = 0%Qc) ->
  Prox.call (prox s) (iterate s) (step s) = iterate s ->
  exists s', solve s = Returns s' /\ iterate s' = iterate s
             /\ next_iterate s' = iterate s.
Proof.
  intros Hm Hc Hv Hn Hg Hp. rewrite solve_unfold, Hm.
  rewrite prepare_solve_dense by done. cbn.
  rewrite choose_rand_index_last by done.
  eexists. split; [reflexivity|].
  apply solve_dense_stationary; [|done].
  unfold sits_at. members. by rewrite Hn.
Qed.

(** X7: a dense model under the policy [Last], a solver whose snapshot is
    its iterate, a zero gradient of the model at that iterate and a prox
    that leaves it in place: any number of calls of [solve] keeps the
    iterate and the snapshot there, whatever samples are drawn. *)
Theorem stationary_point_is_kept (s : SVRG) (n : nat) :
  Model.is_sparse (model s) = false -> is_model_sparse s = false ->
  variance_reduction s = Last -> next_iterate s = iterate s ->
  (forall j, get (Model.grad (model s) (iterate s)) j = 0%Qc) ->
  Prox.call (prox s) (iterate s) (step s) = iterate s ->
  exists s', solve_epochs n s = Returns s' /\ iterate s' = iterate s
             /\ next_iterate s' = iterate s.
Proof.
  revert s. induction n as [|n IH]; intros s Hm Hc Hv Hn Hg Hp;
    [by exists s|].
  cbn [solve_epochs].
  destruct (solve_stationary s Hm Hc Hv Hn Hg Hp) as (s1 & Hs1 & Hi1 & Hn1).
  rewrite Hs1. cbn. apply solve_constants in Hs1.
  assert (Hm1 : model s1 = model s) by by_members Hs1.
  assert (Hp1 : prox s1 = prox s) by by_members Hs1.
  assert (Hst : step s1 = step s) by by_members Hs1.
  destruct (IH s1) as (s' & -> & Hi' & Hn').
  - by rewrite Hm1.
  - rewrite <- Hc. by_members Hs1.
  - rewrite <- Hv. by_members Hs1.
  - congruence.
  - by rewrite Hm1, Hi1.
  - by rewrite Hp1, Hst, Hi1.
  - exists s'. split; [done|]. split; congruence.
Qed.

Lemma dense_optimum_gradient j :
  get (Model.grad (model dense_at_optimum) (iterate dense_at_optimum)) j
  = 0%Qc.
Proof.
  unfold get.
  destruct (Z.to_nat j) as [|[|[|i]]]; apply Qc_is_canon; reflexivity.
Qed.

Lemma stationary_point_is_kept_witness :
  exists s', solve_epochs 2 dense_at_optimum = Returns s'
             /\ iterate s' = iterate dense_at_optimum
             /\ next_iterate s' = iterate dense_at_optimum.
Proof.
  apply (stationary_point_is_kept dense_at_optimum 2);
    [reflexivity|reflexivity|reflexivity|reflexivity
    |apply dense_optimum_gradient|reflexivity].
Defined.

(** ** What a sparse iteration writes *)

Lemma next_sample_sample_of s : next_sample s = sample_of s 0.
Proof. unfold next_sample, sample_of. cbn. by rewrite Nat.add_0_r. Qed.

Lemma size_iterate_exact_coordinate x g k s :
  size (iterate (exact_coordinate x g k s)) = size (iterate s).
Proof.
  unfold exact_coordinate. cbn zeta. members.
  case_match; members; by rewrite ?size_set, size_iterate_catch_up.
Qed.

Lemma catch_up_elsewhere j' d s j :
  0 <= j' -> 0 <= j -> j <> j' ->
  get (iterate (catch_up j' d s)) j = get (iterate s) j.
Proof.
  intros Hj' Hj Hne. unfold catch_up.
  repeat case_match; members; by rewrite ?get_set_ne.
Qed.

Lemma exact_coordinate_elsewhere x g k s j :
  0 <= get (indices x) k -> 0 <= j -> j <> get (indices x) k ->
  get (iterate (exact_coordinate x g k s)) j = get (iterate s) j
  /\ get (last_time (exact_coordinate x g k s)) j = get (last_time s) j.
Proof.
  intros Hk Hj Hne. unfold exact_coordinate. cbn zeta. members.
  split.
  - case_match; members; rewrite ?get_set_ne by done;
      by apply catch_up_elsewhere.
  - rewrite get_set_ne by done.
    case_match; members; by rewrite last_time_catch_up.
Qed.

Lemma exact_loop_elsewhere x g n k0 s j :
  0 <= j ->
  (forall k, k0 <= k < k0 + Z.of_nat n ->
             0 <= get (indices x) k /\ get (indices x) k <> j) ->
  get (iterate (for_loop n k0 (exact_coordinate x g) s)) j
  = get (iterate s) j
  /\ get (last_time (for_loop n k0 (exact_coordinate x g) s)) j
     = get (last_time s) j.
Proof.
  intros Hj. revert k0 s. induction n as [|n IH]; intros k0 s Hk; [done|].
  cbn [for_loop].
  destruct (IH (k0 + 1) (exact_coordinate x g k0 s)) as [-> ->];
    [intros; apply Hk; lia|].
  destruct (Hk k0) as [? ?]; [lia|].
  by apply exact_coordinate_elsewhere.
Qed.

Lemma last_time_proba_coordinate x g k s :
  last_time (proba_coordinate x g k s) = last_time s.
Proof. unfold proba_coordinate. cbn zeta. by case_match. Qed.

Lemma prox_and_intercept_feature g s j :
  is_prox_separable s = true -> 0 <= j < n_features s ->
  get (iterate (prox_and_intercept g s)) j = get (iterate s) j
  /\ last_time (prox_and_intercept g s) = last_time s.
Proof.
  intros Hsep Hj. unfold prox_and_intercept. rewrite Hsep. cbn [negb].
  case_match; members; [|done]. by rewrite get_set_ne by lia.
Qed.

Lemma separable_frame s s' :
  update_frame s' = update_frame s ->
  is_prox_separable s' = is_prox_separable s
  /\ n_features s' = n_features s /\ use_intercept s' = use_intercept s
  /\ step s' = step s /\ full_gradient s' = full_gradient s
  /\ casted_prox s' = casted_prox s.
Proof.
  intros H. apply update_frame_settings in H. repeat split; by_members H.
Qed.

Lemma exact_iteration_feature s j :
  is_prox_separable s = true -> 0 <= j < n_features s ->
  row_avoids (Model.get_features (model s) (next_sample s)) j ->
  get (iterate (exact_iteration s)) j = get (iterate s) j
  /\ get (last_time (exact_iteration s)) j = get (last_time s) j.
Proof.
  intros Hsep Hj Hrow.
  change (next_sample s) with (draw_i (rand s) (n_draws (rand s))) in Hrow.
  unfold exact_iteration. cbn.
  match goal with |- context [select_snapshot ?k ?u] =>
    destruct (select_snapshot_keeps k u) as (_ & _ & -> & ->) end.
  match goal with |- context [prox_and_intercept ?g ?u] =>
    destruct (separable_frame (with_rand (advance (rand s)) s) u)
      as (Hs' & Hn' & _);
      [unfold for_range;
       apply (for_loop_invariant update_frame _
                (frame_exact_coordinate _ _))|];
    destruct (prox_and_intercept_feature g u j) as [-> ->];
      [by rewrite Hs'|by rewrite Hn'|] end.
  unfold for_range. members.
  destruct (exact_loop_elsewhere
    (Model.get_features (model s) (draw_i (rand s) (n_draws (rand s))))
    (Model.grad_i_factor (model s) (draw_i (rand s) (n_draws (rand s)))
       (iterate s)
     - Model.grad_i_factor (model s) (draw_i (rand s) (n_draws (rand s)))
         (fixed_w s))%Qc
    (Z.to_nat (size_sparse
       (Model.get_features (model s)
          (draw_i (rand s) (n_draws (rand s))))))
    0 (with_rand (advance (rand s)) s) j) as [-> ->]; [lia| |done].
  intros k Hk. apply Hrow. unfold size_sparse, size in *. lia.
Qed.

Lemma proba_iteration_feature s j :
  is_prox_separable s = true -> 0 <= j < n_features s ->
  row_avoids (Model.get_features (model s) (next_sample s)) j ->
  get (iterate (proba_iteration s)) j = get (iterate s) j.
Proof.
  intros Hsep Hj Hrow.
  change (next_sample s) with (draw_i (rand s) (n_draws (rand s))) in Hrow.
  unfold proba_iteration. cbn.
  match goal with |- context [select_snapshot ?k ?u] =>
    destruct (select_snapshot_keeps k u) as (_ & _ & -> & _) end.
  match goal with |- context [prox_and_intercept ?g ?u] =>
    destruct (separable_frame (with_rand (advance (rand s)) s) u)
      as (Hs' & Hn' & _);
      [unfold for_range;
       apply (for_loop_invariant update_frame _
                (frame_proba_coordinate _ _))|];
    destruct (prox_and_intercept_feature g u j) as [-> _];
      [by rewrite Hs'|by rewrite Hn'|] end.
  unfold for_range. rewrite proba_loop_elsewhere; [done|lia|].
  intros k Hk. apply Hrow. unfold size_sparse, size in *. lia.
Qed.

(** X8: with a separable prox, an iteration of either sparse routine
    leaves alone every feature coordinate that the sampled row does not
    store: its value in the iterate, and for the exact routine its entry of
    [last_time]. *)
Theorem sparse_iteration_writes_support_only (s : SVRG) (j : ulong) :
  is_prox_separable s = true -> 0 <= j < n_features s ->
  row_avoids (Model.get_features (model s) (next_sample s)) j ->
  get (iterate (exact_iteration s)) j = get (iterate s) j
  /\ get (last_time (exact_iteration s)) j = get (last_time s) j
  /\ get (iterate (proba_iteration s)) j = get (iterate s) j.
Proof.
  intros Hsep Hj Hrow.
  destruct (exact_iteration_feature s j Hsep Hj Hrow) as [-> ->].
  by rewrite proba_iteration_feature.
Qed.

Lemma second_feature_avoided :
  row_avoids
    (Model.get_features (model exact_three_iterations)
       (next_sample exact_three_iterations)) 1.
Proof.
  intros k Hk. change (0 <= k < 1) in Hk.
  assert (k = 0) as -> by lia. by vm_compute.
Qed.

Lemma sparse_iteration_writes_support_only_witness :
  get (iterate (exact_iteration exact_three_iterations)) 1
  = get (iterate exact_three_iterations) 1
  /\ get (last_time (exact_iteration exact_three_iterations)) 1
     = get (last_time exact_three_iterations) 1
  /\ get (iterate (proba_iteration exact_three_iterations)) 1
     = get (iterate exact_three_iterations) 1.
Proof.
  apply (sparse_iteration_writes_support_only exact_three_iterations 1);
    [reflexivity|by vm_compute|apply second_feature_avoided].
Defined.

(** *** The intercept *)

Lemma prox_and_intercept_intercept g s :
  is_prox_separable s = true -> use_intercept s = true ->
  0 <= n_features s < size (iterate s) ->
  get (iterate (prox_and_intercept g s)) (n_features s)
  = (get (iterate s) (n_features s)
     - step s * (g + get (full_gradient s) (n_features s)))%Qc.
Proof.
  intros Hsep Hint Hn. unfold prox_and_intercept. cbn zeta.
  rewrite Hsep. cbn [negb]. rewrite Hint. members. by rewrite get_set_eq.
Qed.

Lemma exact_iteration_intercept s :
  use_intercept s = true -> is_prox_separable s = true ->
  0 <= n_features s < size (iterate s) ->
  row_avoids (Model.get_features (model s) (next_sample s)) (n_features s) ->
  get (iterate (exact_iteration s)) (n_features s)
  = (get (iterate s) (n_features s)
     - step s * (grad_i_diff_of s (next_sample s)
                 + get (full_gradient s) (n_features s)))%Qc.
Proof.
  intros Hint Hsep Hn Hrow. unfold grad_i_diff_of.
  change (next_sample s) with (draw_i (rand s) (n_draws (rand s))) in *.
  unfold exact_iteration. cbn.
  match goal with |- context [select_snapshot ?k ?u] =>
    destruct (select_snapshot_keeps k u) as (_ & _ & -> & _) end.
  match goal with |- context [prox_and_intercept ?g ?u] =>
    remember u as u' eqn:Hu end.
  assert (Hframe : update_frame u'
                   = update_frame (with_rand (advance (rand s)) s)).
  { subst u'. unfold for_range.
    apply (for_loop_invariant update_frame _ (frame_exact_coordinate _ _)). }
  destruct (separable_frame _ _ Hframe) as (Hs' & Hn' & Hi' & Hst & Hfg & _).
  members in Hs'. members in Hn'. members in Hi'. members in Hst.
  members in Hfg.
  assert (Hsz : size (iterate u')
                = size (iterate (with_rand (advance (rand s)) s))).
  { subst u'. unfold for_range.
    apply (for_loop_invariant (fun s => size (iterate s))).
    intros. apply size_iterate_exact_coordinate. }
  members in Hsz.
  assert (Hval : get (iterate u') (n_features s)
                 = get (iterate s) (n_features s)).
  { subst u'. unfold for_range.
    match goal with |- context [for_loop ?n 0 (exact_coordinate ?x ?g) ?s0] =>
      destruct (exact_loop_elsewhere x g n 0 s0 (n_features s)) as [-> _]
    end; [lia| |done].
    intros k Hk. apply Hrow. unfold size_sparse, size in *. lia. }
  rewrite <- Hn' at 1. rewrite prox_and_intercept_intercept;
    [|congruence|congruence|rewrite Hn', Hsz; lia].
  by rewrite Hn', Hst, Hfg, Hval.
Qed.

Lemma proba_iteration_intercept s :
  use_intercept s = true -> is_prox_separable s = true ->
  0 <= n_features s < size (iterate s) ->
  row_avoids (Model.get_features (model s) (next_sample s)) (n_features s) ->
  get (iterate (proba_iteration s)) (n_features s)
  = (get (iterate s) (n_features s)
     - step s * (grad_i_diff_of s (next_sample s)
                 + get (full_gradient s) (n_features s)))%Qc.
Proof.
  intros Hint Hsep Hn Hrow. unfold grad_i_diff_of.
  change (next_sample s) with (draw_i (rand s) (n_draws (rand s))) in *.
  unfold proba_iteration. cbn.
  match goal with |- context [select_snapshot ?k ?u] =>
    destruct (select_snapshot_keeps k u) as (_ & _ & -> & _) end.
  match goal with |- context [prox_and_intercept ?g ?u] =>
    remember u as u' eqn:Hu end.
  assert (Hframe : update_frame u'
                   = update_frame (with_rand (advance (rand s)) s)).
  { subst u'. unfold for_range.
    apply (for_loop_invariant update_frame _ (frame_proba_coordinate _ _)). }
  destruct (separable_frame _ _ Hframe) as (Hs' & Hn' & Hi' & Hst & Hfg & _).
  members in Hs'. members in Hn'. members in Hi'. members in Hst.
  members in Hfg.
  assert (Hsz : size (iterate u')
                = size (iterate (with_rand (advance (rand s)) s))).
  { subst u'. unfold for_range.
    apply (for_loop_invariant (fun s => size (iterate s))).
    intros. apply size_iterate_proba_coordinate. }
  members in Hsz.
  assert (Hval : get (iterate u') (n_features s)
                 = get (iterate s) (n_features s)).
  { subst u'. unfold for_range. rewrite proba_loop_elsewhere; [done|lia|].
    intros k Hk. apply Hrow. unfold size_sparse, size in *. lia. }
  rewrite <- Hn' at 1. rewrite prox_and_intercept_intercept;
    [|congruence|congruence|rewrite Hn', Hsz; lia].
  by rewrite Hn', Hst, Hfg, Hval.
Qed.

(** X9: when the model uses an intercept and the prox is separable, an
    iteration of either sparse routine moves the intercept, the
    coordinate after the features, by the plain step
    [step * (grad_i_diff + full_gradient[n_features])], the factor
    difference being the one taken at the start of the iteration: no
    delay, no correction of the step and no prox. *)
Theorem sparse_iteration_intercept (s : SVRG) :
  use_intercept s = true -> is_prox_separable s = true ->
  0 <= n_features s < size (iterate s) ->
  row_avoids (Model.get_features (model s) (next_sample s)) (n_features s) ->
  get (iterate (exact_iteration s)) (n_features s)
  = (get (iterate s) (n_features s)
     - step s * (grad_i_diff_of s (next_sample s)
                 + get (full_gradient s) (n_features s)))%Qc
  /\ get (iterate (proba_iteration s)) (n_features s)
     = (get (iterate s) (n_features s)
        - step s * (grad_i_diff_of s (next_sample s)
                    + get (full_gradient s) (n_features s)))%Qc.
Proof.
  intros Hint Hsep Hn Hrow. split.
  - by apply exact_iteration_intercept.
  - by apply proba_iteration_intercept.
Qed.

Lemma intercept_avoided :
  row_avoids
    (Model.get_features (model exact_intercept)
       (next_sample exact_intercept)) (n_features exact_intercept).
Proof.
  intros k Hk. change (0 <= k < 1) in Hk.
  assert (k = 0) as -> by lia. by vm_compute.
Qed.

Lemma sparse_iteration_intercept_witness :
  get (iterate (exact_iteration exact_intercept)) (n_features exact_intercept)
  = (get (iterate exact_intercept) (n_features exact_intercept)
     - step exact_intercept
       * (grad_i_diff_of exact_intercept (next_sample exact_intercept)
          + get (full_gradient exact_intercept)
              (n_features exact_intercept)))%Qc
  /\ get (iterate (proba_iteration exact_intercept))
       (n_features exact_intercept)
     = (get (iterate exact_intercept) (n_features exact_intercept)
        - step exact_intercept
          * (grad_i_diff_of exact_intercept (next_sample exact_intercept)
             + get (full_gradient exact_intercept)
                 (n_features exact_intercept)))%Qc.
Proof.
  apply (sparse_iteration_intercept exact_intercept);
    [reflexivity|reflexivity|by vm_compute|apply intercept_avoided].
Defined.

(** ** A feature the epoch never samples *)

Lemma rand_select_snapshot k s : rand (select_snapshot k s) = rand s.
Proof. unfold select_snapshot. by repeat case_match. Qed.

Lemma rand_prox_and_intercept g s : rand (prox_and_intercept g s) = rand s.
Proof. unfold prox_and_intercept. by repeat case_match. Qed.

Lemma rand_proba_coordinate x g k s : rand (proba_coordinate x g k s) = rand s.
Proof. unfold proba_coordinate. cbn zeta. by case_match. Qed.

Lemma rand_catch_up j d s : rand (catch_up j d s) = rand s.
Proof. unfold catch_up. by repeat case_match. Qed.

Lemma rand_exact_coordinate x g k s : rand (exact_coordinate x g k s) = rand s.
Proof.
  unfold exact_coordinate. cbn zeta. members.
  case_match; members; apply rand_catch_up.
Qed.

Lemma rand_proba_iteration s : rand (proba_iteration s) = advance (rand s).
Proof.
  unfold proba_iteration. cbn.
  rewrite rand_select_snapshot, rand_prox_and_intercept. unfold for_range.
  by rewrite (for_loop_invariant rand _ (rand_proba_coordinate _ _)).
Qed.

Lemma rand_exact_iteration s : rand (exact_iteration s) = advance (rand s).
Proof.
  unfold exact_iteration. cbn.
  rewrite rand_select_snapshot, rand_prox_and_intercept. unfold for_range.
  by rewrite (for_loop_invariant rand _ (rand_exact_coordinate _ _)).
Qed.

Lemma model_settings s s' : settings s' = settings s -> model s' = model s.
Proof. intros H. by_members H. Qed.

(** After an iteration the next samples are the ones that followed. *)
Lemma never_sampled_next v s1 s n j :
  rand s1 = advance (rand s) -> model s1 = model s ->
  never_sampled s (S n) j -> never_sampled (with_t v s1) n j.
Proof.
  intros Hr Hm Hns k Hk. unfold sample_of. members. rewrite Hr, Hm.
  cbn [draw_i n_draws advance].
  replace (S (n_draws (rand s)) + k)%nat with (n_draws (rand s) + S k)%nat
    by lia.
  apply Hns. lia.
Qed.

Lemma never_sampled_first s n j :
  never_sampled s (S n) j ->
  row_avoids (Model.get_features (model s) (next_sample s)) j.
Proof.
  intros Hns. rewrite next_sample_sample_of. apply Hns. lia.
Qed.

Lemma proba_loop_never_sampled j n :
  forall s, is_prox_separable s = true -> 0 <= j < n_features s ->
            never_sampled s n j ->
            get (iterate (loop_t n proba_iteration s)) j
            = get (iterate s) j.
Proof.
  induction n as [|n IH]; intros s Hsep Hj Hns; [done|].
  rewrite loop_t_S.
  pose proof (settings_proba_iteration s) as Hset.
  rewrite IH.
  - members. apply proba_iteration_feature; [done|done|].
    by apply (never_sampled_first s n).
  - members. rewrite <- Hsep. by_members Hset.
  - members. assert (n_features (proba_iteration s) = n_features s) as ->
      by by_members Hset. done.
  - apply (never_sampled_next _ _ s);
      [apply rand_proba_iteration|by apply model_settings|done].
Qed.

(** X10: with a separable prox, an epoch of the probabilistic routine
    leaves a feature coordinate that none of its samples stores exactly
    as it found it: the routine has no pass at the end of the epoch, and
    the full gradient never reaches that coordinate. *)
Theorem proba_epoch_never_sampled (s : SVRG) (j : ulong) :
  is_prox_separable s = true -> 0 <= j < n_features s ->
  never_sampled s (Z.to_nat (epoch_size s)) j ->
  get (iterate (solve_sparse_proba_updates s)) j = get (iterate s) j.
Proof.
  intros Hsep Hj Hns. unfold solve_sparse_proba_updates. cbn zeta.
  rewrite iterate_keep_last. unfold add_epoch, for_t. members.
  by rewrite proba_loop_never_sampled.
Qed.

Lemma second_feature_never_sampled :
  never_sampled exact_three_iterations
    (Z.to_nat (epoch_size exact_three_iterations)) 1.
Proof.
  intros k Hk. change (k < 3)%nat in Hk.
  assert (k = 0 \/ k = 1 \/ k = 2)%nat as [-> | [-> | ->]] by lia;
    intros i Hi; change (0 <= i < 1) in Hi;
    assert (i = 0) as -> by lia; by vm_compute.
Qed.

Lemma proba_epoch_never_sampled_witness :
  get (iterate (solve_sparse_proba_updates exact_three_iterations)) 1
  = get (iterate exact_three_iterations) 1.
Proof.
  apply (proba_epoch_never_sampled exact_three_iterations 1);
    [reflexivity|by vm_compute|apply second_feature_never_sampled].
Defined.

(** *** The exact routine *)

Lemma size_iterate_prox_and_intercept g s :
  is_prox_separable s = true ->
  size (iterate (prox_and_intercept g s)) = size (iterate s).
Proof.
  intros Hsep. unfold prox_and_intercept. cbn zeta. rewrite Hsep.
  cbn [negb]. case_match; members; by rewrite ?size_set.
Qed.

Lemma size_iterate_exact_iteration s :
  is_prox_separable s = true ->
  size (iterate (exact_iteration s)) = size (iterate s).
Proof.
  intros Hsep. unfold exact_iteration. cbn.
  match goal with |- context [select_snapshot ?k ?u] =>
    destruct (select_snapshot_keeps k u) as (_ & _ & -> & _) end.
  match goal with |- context [prox_and_intercept ?g ?u] =>
    remember u as u' eqn:Hu end.
  assert (Hframe : update_frame u'
                   = update_frame (with_rand (advance (rand s)) s)).
  { subst u'. unfold for_range.
    apply (for_loop_invariant update_frame _ (frame_exact_coordinate _ _)). }
  destruct (separable_frame _ _ Hframe) as (Hs' & _). members in Hs'.
  rewrite size_iterate_prox_and_intercept by congruence.
  subst u'. unfold for_range.
  transitivity (size (iterate (with_rand (advance (rand s)) s)));
    [|reflexivity].
  apply (for_loop_invariant (fun s => size (iterate s))).
  intros. apply size_iterate_exact_coordinate.
Qed.

Lemma exact_loop_never_sampled j n :
  forall s, is_prox_separable s = true -> 0 <= j < n_features s ->
            never_sampled s n j ->
            get (iterate (loop_t n exact_iteration s)) j = get (iterate s) j
            /\ get (last_time (loop_t n exact_iteration s)) j
               = get (last_time s) j
            /\ size (iterate (loop_t n exact_iteration s))
               = size (iterate s).
Proof.
  induction n as [|n IH]; intros s Hsep Hj Hns; [done|].
  rewrite loop_t_S.
  pose proof (settings_exact_iteration s) as Hset.
  destruct (IH (with_t (t (exact_iteration s) + 1) (exact_iteration s)))
    as (-> & -> & ->).
  - members. rewrite <- Hsep. by_members Hset.
  - members. assert (n_features (exact_iteration s) = n_features s) as ->
      by by_members Hset. done.
  - apply (never_sampled_next _ _ s);
      [apply rand_exact_iteration|by apply model_settings|done].
  - members.
    destruct (exact_iteration_feature s j) as [-> ->];
      [done|done|by apply (never_sampled_first s n)|].
    by rewrite size_iterate_exact_iteration.
Qed.

Lemma catch_up_value j d s :
  0 <= j < size (iterate s) ->
  get (iterate (catch_up j d s)) j = caught_up s j d.
Proof.
  intros Hj. unfold catch_up, caught_up. cbn zeta.
  case_bool_decide; [|done]. members.
  destruct (is_prox_separable s); members.
  - rewrite get_set_eq by (by rewrite size_set). by rewrite get_set_eq.
  - by rewrite get_set_eq.
Qed.

Lemma caught_up_ext s s' j d :
  settings s' = settings s -> get (iterate s') j = get (iterate s) j ->
  caught_up s' j d = caught_up s j d.
Proof.
  intros Hs Hi. unfold caught_up. cbn zeta. rewrite Hi.
  assert (step s' = step s) as -> by by_members Hs.
  assert (full_gradient s' = full_gradient s) as -> by by_members Hs.
  assert (is_prox_separable s' = is_prox_separable s) as ->
    by by_members Hs.
  assert (casted_prox s' = casted_prox s) as -> by by_members Hs.
  done.
Qed.

Lemma finalize_loop_elsewhere j n :
  forall k0 s, 0 <= j -> 0 <= k0 -> j < k0 \/ k0 + Z.of_nat n <= j ->
               get (iterate (for_loop n k0 finalize_coordinate s)) j
               = get (iterate s) j.
Proof.
  induction n as [|n IH]; intros k0 s Hj Hk Hout; [done|].
  rewrite for_loop_S, IH by lia.
  unfold finalize_coordinate. apply catch_up_elsewhere; lia.
Qed.

(** The pass that ends the exact routine gives every coordinate it visits
    the catch-up of its own delay. *)
Lemma finalize_loop_value j n :
  forall k0 s, 0 <= k0 -> k0 <= j < k0 + Z.of_nat n ->
               j < size (iterate s) ->
               get (iterate (for_loop n k0 finalize_coordinate s)) j
               = caught_up s j (delay (t s) (get (last_time s) j)).
Proof.
  induction n as [|n IH]; intros k0 s Hk Hj Hsz; [lia|].
  rewrite for_loop_S. destruct (decide (j = k0)) as [->|Hne].
  - rewrite finalize_loop_elsewhere by lia.
    unfold finalize_coordinate. apply catch_up_value. lia.
  - pose proof (frame_finalize_coordinate k0 s) as Hf.
    rewrite IH.
    + rewrite (update_frame_t _ _ Hf).
      unfold finalize_coordinate at 2. rewrite last_time_catch_up.
      apply caught_up_ext; [by apply update_frame_settings|].
      unfold finalize_coordinate. apply catch_up_elsewhere; lia.
    + lia.
    + lia.
    + unfold finalize_coordinate. rewrite size_iterate_catch_up. lia.
Qed.

(** X11: with a separable prox, the exact routine gives a feature
    coordinate that none of the samples of the epoch stores, and whose
    entry of [last_time] is the zero [prepare_solve] wrote, one catch-up
    in the pass that ends the epoch, counted from that zero: a single
    decrement by [step * (epoch_size - 1) * full_gradient[j]] and one
    batched prox of [epoch_size - 1] steps. *)
Theorem exact_epoch_never_sampled (s : SVRG) (j : ulong) :
  is_prox_separable s = true -> 0 <= j < n_features s ->
  j < size (iterate s) -> get (last_time s) j = 0 ->
  1 < epoch_size s ->
  never_sampled s (Z.to_nat (epoch_size s)) j ->
  get (iterate (solve_sparse_exact_updates s)) j
  = Prox.call_single_n (casted_prox s)
      (get (iterate s) j
       - step s * of_ulong (epoch_size s - 1) * get (full_gradient s) j)%Qc
      (step s) (epoch_size s - 1).
Proof.
  intros Hsep Hj Hsz Hlast He Hns.
  unfold solve_sparse_exact_updates. cbn zeta.
  rewrite iterate_keep_last. unfold add_epoch, for_range. members.
  pose proof (settings_for_t _ s settings_exact_iteration) as Hset.
  assert (Hnf : n_features (for_t exact_iteration s) = n_features s)
    by by_members Hset.
  assert (Ht : t (for_t exact_iteration s) = epoch_size s)
    by (apply t_for_t; [apply t_exact_iteration|lia]).
  destruct (exact_loop_never_sampled j (Z.to_nat (epoch_size s))
              (with_t 0 s)) as (Hi & Hl & Hz); [done|done|done|].
  fold (for_t exact_iteration s) in Hi, Hl, Hz.
  members in Hi. members in Hl. members in Hz.
  rewrite finalize_loop_value by lia.
  rewrite Ht, Hl, Hlast, delay_never_touched by lia.
  rewrite (caught_up_ext s) by done.
  unfold caught_up. cbn zeta.
  rewrite bool_decide_eq_true_2 by lia. by rewrite Hsep.
Qed.

Lemma exact_epoch_never_sampled_witness :
  get (iterate (solve_sparse_exact_updates exact_three_prepared)) 1
  = Prox.call_single_n (casted_prox exact_three_prepared)
      (get (iterate exact_three_prepared) 1%Z
       - step exact_three_prepared
         * of_ulong (epoch_size exact_three_prepared - 1)
         * get (full_gradient exact_three_prepared) 1%Z)%Qc
      (step exact_three_prepared)
      (epoch_size exact_three_prepared - 1).
Proof.
  apply (exact_epoch_never_sampled exact_three_prepared 1);
    [reflexivity|by vm_compute|by vm_compute|reflexivity|by vm_compute
    |exact second_feature_never_sampled].
Defined.

(** ** The exact routine on rows that store every coordinate *)

Lemma list_eq_get (a b : list Qc) :
  size a = size b -> (forall j, 0 <= j < size a -> get a j = get b j) ->
  a = b.
Proof.
  intros Hsz Hget. apply list_eq. intros i.
  destruct (decide (i < length a)%nat) as [Hlt|Hge].
  - assert (Hlt' : (i < length b)%nat) by (unfold size in Hsz; lia).
    rewrite (list_lookup_lookup_total_lt a i Hlt).
    rewrite (list_lookup_lookup_total_lt b i Hlt'). f_equal.
    specialize (Hget (Z.of_nat i)). unfold get in Hget.
    rewrite Nat2Z.id in Hget. apply Hget. unfold size. lia.
  - rewrite !lookup_ge_None_2; [done| |]; unfold size in Hsz; lia.
Qed.

Lemma size_last_time_exact_coordinate x g k s :
  size (last_time (exact_coordinate x g k s)) = size (last_time s).
Proof.
  unfold exact_coordinate. cbn zeta. members. rewrite size_set.
  case_match; members; by rewrite last_time_catch_up.
Qed.

(** A coordinate without delay, under a prox that is not separable. *)
Lemma exact_coordinate_plain x g k s :
  is_prox_separable s = false ->
  delay (t s) (get (last_time s) (get (indices x) k)) = 0 ->
  0 <= get (indices x) k < size (iterate s) ->
  get (indices x) k < size (last_time s) ->
  get (iterate (exact_coordinate x g k s)) (get (indices x) k)
  = (get (iterate s) (get (indices x) k)
     - step s * (get (data x) k * g
                 + get (full_gradient s) (get (indices x) k)))%Qc
  /\ get (last_time (exact_coordinate x g k s)) (get (indices x) k) = t s.
Proof.
  intros Hsep Hd Hj Hl. unfold exact_coordinate. cbn zeta.
  rewrite Hd, catch_up_no_delay. members. rewrite Hsep. members.
  split; apply get_set_eq; lia.
Qed.

Lemma exact_loop_plain x g n :
  forall k0 s,
  is_prox_separable s = false -> 0 <= k0 ->
  (forall k, k0 <= k < k0 + Z.of_nat n -> get (indices x) k = k) ->
  (forall k, k0 <= k < k0 + Z.of_nat n ->
             delay (t s) (get (last_time s) k) = 0) ->
  k0 + Z.of_nat n <= size (iterate s) ->
  k0 + Z.of_nat n <= size (last_time s) ->
  forall j, k0 <= j < k0 + Z.of_nat n ->
  get (iterate (for_loop n k0 (exact_coordinate x g) s)) j
  = (get (iterate s) j
     - step s * (get (data x) j * g + get (full_gradient s) j))%Qc
  /\ get (last_time (for_loop n k0 (exact_coordinate x g) s)) j = t s.
Proof.
  induction n as [|n IH]; intros k0 s Hsep Hk0 Hidx Hdel Hsi Hsl j Hj; [lia|].
  rewrite for_loop_S. destruct (decide (j = k0)) as [->|Hne].
  - destruct (exact_loop_elsewhere x g n (k0 + 1)
                (exact_coordinate x g k0 s) k0) as [-> ->]; [lia| |].
    { intros k Hk. rewrite Hidx by lia. lia. }
    destruct (exact_coordinate_plain x g k0 s) as [Hv Hl];
      rewrite ?(Hidx k0) by lia; try done; try lia.
    + apply Hdel. lia.
    + rewrite (Hidx k0) in Hv, Hl by lia. done.
  - pose proof (frame_exact_coordinate x g k0 s) as Hf.
    destruct (separable_frame _ _ Hf) as (Hs1 & _ & _ & Hst & Hfg & _).
    destruct (exact_coordinate_elsewhere x g k0 s j) as [Hi1 _];
      [rewrite Hidx by lia; lia|lia|rewrite Hidx by lia; done|].
    destruct (IH (k0 + 1) (exact_coordinate x g k0 s)) with (j := j)
      as [-> ->].
    + congruence.
    + lia.
    + intros k Hk. apply Hidx. lia.
    + intros k Hk. rewrite (update_frame_t _ _ Hf).
      destruct (exact_coordinate_elsewhere x g k0 s k) as [_ ->];
        [rewrite Hidx by lia; lia|lia|rewrite Hidx by lia; lia|].
      apply Hdel. lia.
    + rewrite size_iterate_exact_coordinate. lia.
    + rewrite size_last_time_exact_coordinate. lia.
    + lia.
    + by rewrite Hi1, Hst, Hfg, (update_frame_t _ _ Hf).
Qed.

Lemma delay_just_touched k :
  1 <= k < ulong_modulus -> delay k (k - 1) = 0.
Proof.
  intros Hk. unfold delay. cbn zeta.
  replace (k - 1 + 1) with k by lia. rewrite wrap_small by lia.
  by rewrite bool_decide_eq_false_2 by lia.
Qed.

Lemma all_touched_no_delay n k a j :
  all_touched n k a -> 0 <= k < ulong_modulus -> 0 <= j < n ->
  delay (t a) (get (last_time a) j) = 0.
Proof.
  intros (Ht & _ & _ & Hl) Hk Hj. rewrite Ht.
  destruct (decide (k = 0)) as [->|Hne]; [apply delay_at_zero|].
  rewrite Hl by lia. apply delay_just_touched. lia.
Qed.

Lemma select_snapshot_same k a b :
  same_run a b -> same_run (select_snapshot k a) (select_snapshot k b).
Proof.
  intros (Hi & Hn & Hr & Hs).
  assert (Hv : variance_reduction a = variance_reduction b)
    by by_members Hs.
  assert (Hx : rand_index a = rand_index b) by by_members Hs.
  assert (He : epoch_size a = epoch_size b) by by_members Hs.
  destruct (select_snapshot_keeps k a) as (Hsa & _ & Hia & _).
  destruct (select_snapshot_keeps k b) as (Hsb & _ & Hib & _).
  unfold same_run. rewrite Hia, Hib, Hsa, Hsb, !rand_select_snapshot.
  split; [done|]. split; [|done].
  unfold select_snapshot. cbn zeta. rewrite Hv, Hx.
  destruct (bool_decide (variance_reduction b = Random)
            && bool_decide (k = rand_index b)); members;
    rewrite Hv; destruct (bool_decide (variance_reduction b = Average));
    members; by rewrite ?Hi, ?Hn, ?He.
Qed.

(** The dense iteration in parts: the state the snapshot statements start
    from. *)
Lemma dense_iteration_parts k b :
  exists v w,
    dense_iteration k b = select_snapshot k v
    /\ iterate v = Prox.call (prox b) w (step b)
    /\ size w = size (iterate b)
    /\ (forall j, 0 <= j < size (iterate b) ->
                  get w j = svrg_step b (next_sample b) j)
    /\ next_iterate v = next_iterate b
    /\ rand v = advance (rand b)
    /\ settings v = settings b.
Proof.
  unfold dense_iteration. cbn. eexists. eexists.
  split; [reflexivity|]. members. split; [reflexivity|]. split.
  - apply size_dense_coordinates.
  - split; [|done]. intros j Hj. by rewrite dense_coordinates_pointwise.
Qed.

(** The same for the exact routine, on a full row and without delay. *)
Lemma exact_iteration_parts n k a :
  all_touched n k a -> is_prox_separable a = false ->
  use_intercept a = false -> full_rows n (model a) ->
  0 <= k < ulong_modulus ->
  exists u w,
    exact_iteration a = select_snapshot k u
    /\ iterate u = Prox.call (prox a) w (step a)
    /\ size w = n
    /\ (forall j, 0 <= j < n ->
          get w j
          = (get (iterate a) j
             - step a
               * (get (data (Model.get_features (model a) (next_sample a))) j
                  * grad_i_diff_of a (next_sample a)
                  + get (full_gradient a) j))%Qc)
    /\ next_iterate u = next_iterate a
    /\ rand u = advance (rand a)
    /\ settings u = settings a
    /\ size (last_time u) = size (last_time a)
    /\ (forall j, 0 <= j < n -> get (last_time u) j = k)
    /\ t u = k.
Proof.
  intros Hall Hsep Hint Hfull Hk.
  pose proof Hall as (Ht & Hsi & Hsl & _).
  destruct (Hfull (next_sample a)) as [Hsz Hidx].
  unfold grad_i_diff_of.
  change (next_sample a) with (draw_i (rand a) (n_draws (rand a))) in *.
  unfold exact_iteration. cbn.
  match goal with |- context [prox_and_intercept ?g ?u0] =>
    remember u0 as u1 eqn:Hu1 end.
  assert (Hframe : update_frame u1
                   = update_frame (with_rand (advance (rand a)) a)).
  { subst u1. unfold for_range.
    apply (for_loop_invariant update_frame _ (frame_exact_coordinate _ _)). }
  pose proof (update_frame_settings _ _ Hframe) as Hset.
  pose proof (update_frame_t _ _ Hframe) as Ht1. members in Ht1.
  pose proof (update_frame_next_iterate _ _ Hframe) as Hn1.
  members in Hn1.
  assert (Hr1 : rand u1 = advance (rand a)).
  { subst u1. unfold for_range.
    by rewrite (for_loop_invariant rand _ (rand_exact_coordinate _ _)). }
  assert (Hsi1 : size (iterate u1) = n).
  { rewrite <- Hsi. subst u1. unfold for_range.
    transitivity (size (iterate (with_rand (advance (rand a)) a)));
      [|reflexivity].
    apply (for_loop_invariant (fun s => size (iterate s))).
    intros. apply size_iterate_exact_coordinate. }
  assert (Hsl1 : size (last_time u1) = size (last_time a)).
  { subst u1. unfold for_range.
    transitivity (size (last_time (with_rand (advance (rand a)) a)));
      [|reflexivity].
    apply (for_loop_invariant (fun s => size (last_time s))).
    intros. apply size_last_time_exact_coordinate. }
  assert (Hval : forall j, 0 <= j < n ->
    get (iterate u1) j
    = (get (iterate a) j
       - step a
         * (get (data (Model.get_features (model a)
                         (draw_i (rand a) (n_draws (rand a))))) j
            * (Model.grad_i_factor (model a)
                 (draw_i (rand a) (n_draws (rand a))) (iterate a)
               - Model.grad_i_factor (model a)
                   (draw_i (rand a) (n_draws (rand a))) (fixed_w a))
            + get (full_gradient a) j))%Qc
    /\ get (last_time u1) j = k).
  { intros j Hj. subst u1. unfold for_range. rewrite <- Ht.
    assert (Hnat : Z.of_nat (Z.to_nat (size_sparse
              (Model.get_features (model a)
                 (draw_i (rand a) (n_draws (rand a)))))) = n)
      by (unfold size in *; lia).
    apply (exact_loop_plain _ _ _ 0 (with_rand (advance (rand a)) a));
      members; rewrite ?Hnat.
    - done.
    - lia.
    - intros i Hi. apply Hidx. lia.
    - intros i Hi. apply (all_touched_no_delay n k); [done|done|lia].
    - lia.
    - lia.
    - lia. }
  exists (prox_and_intercept
            (Model.grad_i_factor (model a)
               (draw_i (rand a) (n_draws (rand a))) (iterate a)
             - Model.grad_i_factor (model a)
                 (draw_i (rand a) (n_draws (rand a))) (fixed_w a))%Qc u1).
  exists (iterate u1).
  assert (Hpi : forall g,
    prox_and_intercept g u1
    = with_iterate (Prox.call (prox u1) (iterate u1) (step u1)) u1).
  { intros g. unfold prox_and_intercept. cbn zeta.
    assert (is_prox_separable u1 = false) as ->
      by (rewrite <- Hsep; by_members Hset).
    cbn [negb]. members.
    assert (use_intercept u1 = false) as ->
      by (rewrite <- Hint; by_members Hset).
    done. }
  rewrite Hpi. members. split.
  { f_equal. congruence. }
  split.
  { f_equal; by_members Hset. }
  split; [done|]. split; [intros j Hj; by apply Hval|].
  split; [done|]. split; [done|]. split; [exact Hset|].
  split; [done|]. split; [intros j Hj; by apply Hval|]. congruence.
Qed.

Lemma exact_dense_step n k a b :
  same_run a b -> all_touched n k a -> is_prox_separable a = false ->
  use_intercept a = false -> full_rows n (model a) ->
  linear_gradients n (model a) -> prox_keeps_size (prox a) ->
  0 <= k < ulong_modulus ->
  same_run (with_t (t (exact_iteration a) + 1) (exact_iteration a))
    (dense_iteration k b)
  /\ all_touched n (k + 1)
       (with_t (t (exact_iteration a) + 1) (exact_iteration a)).
Proof.
  intros (Hi & Hn & Hr & Hs) Hall Hsep Hint Hfull Hlin Hprox Hk.
  pose proof Hall as (Ht & Hsi & Hsl & _).
  destruct (exact_iteration_parts n k a Hall Hsep Hint Hfull Hk)
    as (u & w & -> & Hiu & Hwz & Hw & Hnu & Hru & Hsu & Hlz & Hl & Htu).
  destruct (dense_iteration_parts k b)
    as (v & w' & -> & Hiv & Hwz' & Hw' & Hnv & Hrv & Hsv).
  assert (Hm : model a = model b) by by_members Hs.
  assert (Hp : prox a = prox b) by by_members Hs.
  assert (Hst : step a = step b) by by_members Hs.
  assert (Hfw : fixed_w a = fixed_w b) by by_members Hs.
  assert (Hfg : full_gradient a = full_gradient b) by by_members Hs.
  assert (Hns : next_sample a = next_sample b)
    by (unfold next_sample; by rewrite Hr).
  assert (Hww : w = w').
  { apply list_eq_get; [rewrite Hwz, Hwz', <- Hi; done|].
    intros j Hj. rewrite Hw, Hw' by (rewrite <- ?Hi; lia).
    unfold svrg_step, grad_i_diff_of.
    rewrite <- Hm, <- Hfw, <- Hfg, <- Hst, <- Hi, <- Hns.
    rewrite !Hlin by lia. ring. }
  assert (Hrun : same_run u v).
  { unfold same_run. rewrite Hiu, Hiv, Hnu, Hnv, Hru, Hrv, Hsu, Hsv.
    by rewrite Hww, Hp, Hst, Hn, Hr, Hs. }
  destruct (select_snapshot_keeps k u) as (Hsk & Htk & Hik & Hlk).
  split.
  - destruct (select_snapshot_same k u v Hrun) as (H1 & H2 & H3 & H4).
    unfold same_run. members. done.
  - unfold all_touched. members. rewrite Htk, Hik, Hlk, Hiu, Htu.
    split; [done|]. split; [by rewrite Hprox|]. split; [lia|].
    intros _ j Hj. rewrite Hl by done. lia.
Qed.

Lemma exact_dense_loop n m :
  forall k a b,
  same_run a b -> all_touched n k a -> is_prox_separable a = false ->
  use_intercept a = false -> full_rows n (model a) ->
  linear_gradients n (model a) -> prox_keeps_size (prox a) ->
  0 <= k -> k + Z.of_nat m <= ulong_modulus ->
  same_run (loop_t m exact_iteration a) (for_loop m k dense_iteration b)
  /\ all_touched n (k + Z.of_nat m) (loop_t m exact_iteration a).
Proof.
  induction m as [|m IH];
    intros k a b Hrun Hall Hsep Hint Hfull Hlin Hprox Hk Hkm.
  - cbn [loop_t for_loop Z.of_nat]. by rewrite Z.add_0_r.
  - rewrite loop_t_S, for_loop_S.
    destruct (exact_dense_step n k a b) as [Hrun1 Hall1];
      [done|done|done|done|done|done|done|lia|].
    pose proof (settings_exact_iteration a) as Hset.
    replace (k + Z.of_nat (S m)) with (k + 1 + Z.of_nat m) by lia.
    apply IH; [done|done| | | | | |lia|lia]; members.
    + rewrite <- Hsep. by_members Hset.
    + rewrite <- Hint. by_members Hset.
    + by rewrite (model_settings _ _ Hset).
    + by rewrite (model_settings _ _ Hset).
    + assert (prox (exact_iteration a) = prox a) as -> by by_members Hset.
      done.
Qed.

Lemma finalize_loop_no_delay m :
  forall k0 s,
  (forall j, k0 <= j < k0 + Z.of_nat m ->
             delay (t s) (get (last_time s) j) = 0) ->
  for_loop m k0 finalize_coordinate s = s.
Proof.
  induction m as [|m IH]; intros k0 s Hd; [done|].
  rewrite for_loop_S. unfold finalize_coordinate at 2.
  rewrite Hd by lia. rewrite catch_up_no_delay.
  apply IH. intros j Hj. apply Hd. lia.
Qed.

Lemma next_iterate_keep_last_same a b :
  iterate a = iterate b -> next_iterate a = next_iterate b ->
  variance_reduction a = variance_reduction b ->
  next_iterate (keep_last a) = next_iterate (keep_last b).
Proof.
  intros Hi Hn Hv. unfold keep_last. rewrite Hv.
  case_bool_decide; members; done.
Qed.

(** X12: for a model whose rows store every coordinate, whose sample
    gradients are the gradient factor times the row, without intercept,
    and a prox that is not separable and keeps the size of its argument,
    an epoch of the exact routine and an epoch of the dense routine
    started in the same solver leave the same iterate and the same
    snapshot: no delay is ever counted and the pass that ends the epoch
    writes nothing. *)
Theorem exact_on_full_rows_is_dense (s : SVRG) :
  is_prox_separable s = false -> use_intercept s = false ->
  n_features s = size (iterate s) ->
  size (iterate s) <= size (last_time s) ->
  full_rows (size (iterate s)) (model s) ->
  linear_gradients (size (iterate s)) (model s) ->
  prox_keeps_size (prox s) ->
  0 <= epoch_size s < ulong_modulus ->
  iterate (solve_sparse_exact_updates s) = iterate (solve_dense s)
  /\ next_iterate (solve_sparse_exact_updates s)
     = next_iterate (solve_dense s).
Proof.
  intros Hsep Hint Hnf Hsl Hfull Hlin Hprox He.
  destruct (exact_dense_loop (size (iterate s)) (Z.to_nat (epoch_size s))
              0 (with_t 0 s) s) as [(Hi & Hn & _ & Hs) Hall];
    [done|unfold all_touched; members; repeat split; [done|lia]
    |done|done|done|done|done|lia|lia|].
  fold (for_t exact_iteration s) in Hi, Hn, Hs, Hall.
  fold (for_range (epoch_size s) dense_iteration s) in Hi, Hn, Hs.
  rewrite Z.add_0_l, Z2Nat.id in Hall by lia.
  pose proof (settings_for_t _ s settings_exact_iteration) as Hset.
  assert (Hfin : for_range (n_features (for_t exact_iteration s))
                   finalize_coordinate (for_t exact_iteration s)
                 = for_t exact_iteration s).
  { unfold for_range at 1. apply finalize_loop_no_delay. intros j Hj.
    assert (n_features (for_t exact_iteration s) = n_features s)
      as Hnf' by by_members Hset.
    apply (all_touched_no_delay (size (iterate s)) (epoch_size s));
      [done|lia|]. rewrite Hnf', Hnf in Hj. unfold size in *. lia. }
  assert (Hv : variance_reduction (for_t exact_iteration s)
               = variance_reduction
                   (for_range (epoch_size s) dense_iteration s))
    by by_members Hs.
  unfold solve_sparse_exact_updates, solve_dense. cbn zeta.
  rewrite Hfin. unfold add_epoch. members. split.
  - by rewrite !iterate_keep_last.
  - apply next_iterate_keep_last_same; members; done.
Qed.

Lemma full_model_rows : full_rows 2 full_model.
Proof.
  intros i. cbn [Model.get_features full_model].
  case_bool_decide; (split; [reflexivity|]); intros k Hk;
    assert (k = 0 \/ k = 1) as [-> | ->] by lia; reflexivity.
Qed.

Lemma full_model_linear : linear_gradients 2 full_model.
Proof.
  intros i w j Hj.
  cbn [Model.grad_i Model.grad_i_factor Model.get_features full_model].
  case_bool_decide; assert (j = 0 \/ j = 1) as [-> | ->] by lia;
    reflexivity.
Qed.

Lemma prox_coupled_keeps_size : prox_keeps_size prox_coupled.
Proof.
  intros w step. cbn [Prox.call prox_coupled]. unfold size.
  by rewrite length_map.
Qed.

Lemma exact_on_full_rows_is_dense_witness :
  iterate (solve_sparse_exact_updates exact_full)
  = iterate (solve_dense exact_full)
  /\ next_iterate (solve_sparse_exact_updates exact_full)
     = next_iterate (solve_dense exact_full).
Proof.
  apply (exact_on_full_rows_is_dense exact_full);
    [reflexivity|reflexivity|reflexivity|by vm_compute
    |exact full_model_rows|exact full_model_linear
    |exact prox_coupled_keeps_size|by vm_compute].
Defined.

(** ** An iteration of the probabilistic routine on the support of its row *)

Lemma size_sparse_nat (x : SparseArray) :
  Z.of_nat (Z.to_nat (size_sparse x)) = size_sparse x.
Proof. unfold size_sparse, size. lia. Qed.

(** The loop of lines 133-145, run on the whole row. *)
Lemma proba_support_loop s x g :
  row_fits x (iterate s) ->
  update_frame (for_range (size_sparse x) (proba_coordinate x g) s)
  = update_frame s
  /\ size (iterate (for_range (size_sparse x) (proba_coordinate x g) s))
     = size (iterate s)
  /\ (forall k, 0 <= k < size_sparse x ->
        get (iterate (for_range (size_sparse x) (proba_coordinate x g) s))
            (get (indices x) k)
        = spec_proba_update s x g k)
  /\ (forall j, 0 <= j -> row_avoids x j ->
        get (iterate (for_range (size_sparse x) (proba_coordinate x g) s)) j
        = get (iterate s) j).
Proof.
  intros [Hin Hdis]. pose proof (size_sparse_nat x) as Hn.
  unfold for_range. repeat split.
  - apply (for_loop_invariant update_frame _ (frame_proba_coordinate _ _)).
  - apply (for_loop_invariant (fun s => size (iterate s))).
    intros. apply size_iterate_proba_coordinate.
  - intros k Hk. apply proba_loop_here.
    + intros k' Hk'. apply Hin. lia.
    + intros a b Ha Hb. apply Hdis; lia.
    + lia.
  - intros j Hj Hrow. apply proba_loop_elsewhere; [done|].
    intros k Hk. apply Hrow. lia.
Qed.

Lemma proba_iteration_unfold s :
  proba_iteration s
  = let s0 := with_rand (advance (rand s)) s in
    let u := for_range (size_sparse (sampled_row s))
               (proba_coordinate (sampled_row s)
                  (grad_i_diff_of s (next_sample s))) s0 in
    let u := prox_and_intercept (grad_i_diff_of s (next_sample s)) u in
    select_snapshot (t u) u.
Proof. reflexivity. Qed.

(** C8: an iteration of the probabilistic routine started in the solver [s]
    reads the row [x_i] of its sample and the difference [grad_i_diff] of
    the gradient factors of that sample at the iterate and at the reference
    point, both taken before any coordinate is written.  For every entry
    [k] of the row, at the coordinate [j], the update is
    [iterate[j] -= step * (x_ij * grad_i_diff + steps_correction[j] * full_gradient[j])].
    With a separable prox the iterate the iteration leaves holds at [j] the
    single-coordinate prox of that value, called with the step
    [step * steps_correction[j]]; with a prox that is not separable the
    vector handed to [prox->call] holds that value at [j] and the iterate
    elsewhere. *)
Theorem proba_support_update (s : SVRG) :
  row_fits (sampled_row s) (iterate s) ->
  let x_i := sampled_row s in
  let grad_i_diff :=
    (Model.grad_i_factor (model s) (next_sample s) (iterate s)
     - Model.grad_i_factor (model s) (next_sample s) (fixed_w s))%Qc in
  let updated k :=
    let j := get (indices x_i) k in
    (get (iterate s) j
     - step s * (get (data x_i) k * grad_i_diff
                 + get (steps_correction s) j * get (full_gradient s) j))%Qc in
  (is_prox_separable s = true ->
   forall k, 0 <= k < size_sparse x_i ->
             get (indices x_i) k < n_features s ->
     get (iterate (proba_iteration s)) (get (indices x_i) k)
     = Prox.call_single (casted_prox s) (updated k)
         (step s * get (steps_correction s) (get (indices x_i) k))%Qc)
  /\ (is_prox_separable s = false ->
      exists w,
        size w = size (iterate s)
        /\ (forall k, 0 <= k < size_sparse x_i ->
                      get w (get (indices x_i) k) = updated k)
        /\ (forall j, 0 <= j -> row_avoids x_i j ->
                      get w j = get (iterate s) j)
        /\ iterate (proba_iteration s)
           = intercept_step s grad_i_diff (Prox.call (prox s) w (step s))).
Proof.
  intros Hfit x_i grad_i_diff updated.
  rewrite proba_iteration_unfold. cbn zeta.
  fold x_i. change (grad_i_diff_of s (next_sample s)) with grad_i_diff.
  destruct (proba_support_loop (with_rand (advance (rand s)) s) x_i
              grad_i_diff Hfit) as (Hframe & Hsize & Hhere & Helse).
  revert Hframe Hsize Hhere Helse.
  generalize (for_range (size_sparse x_i) (proba_coordinate x_i grad_i_diff)
                (with_rand (advance (rand s)) s)).
  intros u Hframe Hsize Hhere Helse.
  destruct (separable_frame _ _ Hframe) as (Hs' & Hn' & Hi' & Hst & Hfg & _).
  members in Hs'. members in Hn'. members in Hi'. members in Hst.
  members in Hfg. members in Hsize.
  match goal with |- context [select_snapshot ?k ?v] =>
    destruct (select_snapshot_keeps k v) as (_ & _ & -> & _) end.
  split.
  - intros Hsep k Hk Hnf.
    destruct (prox_and_intercept_feature grad_i_diff u (get (indices x_i) k))
      as [-> _]; [congruence| |].
    + rewrite Hn'. split; [apply Hfit; done|done].
    + rewrite Hhere by done. unfold spec_proba_update. cbn zeta. members.
      by rewrite Hsep.
  - intros Hsep. exists (iterate u). repeat split.
    + done.
    + intros k Hk. rewrite Hhere by done. unfold spec_proba_update.
      cbn zeta. members. by rewrite Hsep.
    + done.
    + unfold prox_and_intercept, intercept_step. cbn zeta.
      rewrite Hs', Hsep. cbn [negb]. members.
      assert (prox u = prox s) as ->
        by (apply update_frame_settings in Hframe; by_members Hframe).
      rewrite Hi', Hst. by destruct (use_intercept s); members;
        rewrite ?Hn', ?Hst, ?Hfg.
Qed.


(** Closed equalities between rationals, lists of them and outcomes. *)
Ltac evaluated := apply (bool_decide_unpack _); by vm_compute.

Lemma prepared_returns s :
  no_division_by_zero s -> prepare_solve s = Returns (prepared s).
Proof.
  intros Hnz. destruct (prepare_solve_returns s Hnz) as [p Hp].
  unfold prepared. by rewrite Hp.
Qed.

Lemma proba_four_no_division_by_zero : no_division_by_zero proba_four.
Proof.
  intros _ _ _ _ j Hj. change (0 <= j < 2) in Hj.
  assert (j = 0 \/ j = 1) as [-> | ->] by lia; by vm_compute.
Qed.

Lemma proba_four_row_fits :
  row_fits (sampled_row (epoch_prefix 1 (prepared proba_four)))
    (iterate (epoch_prefix 1 (prepared proba_four))).
Proof.
  split.
  - intros k Hk. change (0 <= k < 2) in Hk.
    assert (k = 0 \/ k = 1) as [-> | ->] by lia; by vm_compute.
  - intros a b Ha Hb Hne. change (0 <= a < 2) in Ha.
    change (0 <= b < 2) in Hb.
    assert (a = 0 \/ a = 1) as [-> | ->] by lia;
      assert (b = 0 \/ b = 1) as [-> | ->] by lia; done.
Qed.

Lemma proba_four_coupled_row_fits :
  row_fits (sampled_row (epoch_prefix 1 (prepared proba_four_coupled)))
    (iterate (epoch_prefix 1 (prepared proba_four_coupled))).
Proof.
  split.
  - intros k Hk. change (0 <= k < 2) in Hk.
    assert (k = 0 \/ k = 1) as [-> | ->] by lia; by vm_compute.
  - intros a b Ha Hb Hne. change (0 <= a < 2) in Ha.
    change (0 <= b < 2) in Hb.
    assert (a = 0 \/ a = 1) as [-> | ->] by lia;
      assert (b = 0 \/ b = 1) as [-> | ->] by lia; done.
Qed.

(** The second iteration of the epoch of [proba_four], after
    [prepare_solve] and one iteration, samples the first row, which stores
    both features; the first feature has the correction [2].  The same
    iteration with the prox [prox_coupled], which is not separable. *)
Lemma proba_support_update_witness :
  (let s := epoch_prefix 1 (prepared proba_four) in
   let x_i := sampled_row s in
   let grad_i_diff :=
     (Model.grad_i_factor (model s) (next_sample s) (iterate s)
      - Model.grad_i_factor (model s) (next_sample s) (fixed_w s))%Qc in
   get (iterate (proba_iteration s)) (get (indices x_i) 0)
   = Prox.call_single (casted_prox s)
       (get (iterate s) (get (indices x_i) 0%Z)
        - step s * (get (data x_i) 0%Z * grad_i_diff
                    + get (steps_correction s) (get (indices x_i) 0%Z)
                      * get (full_gradient s) (get (indices x_i) 0%Z)))%Qc
       (step s * get (steps_correction s) (get (indices x_i) 0%Z))%Qc)
  /\ (let s := epoch_prefix 1 (prepared proba_four_coupled) in
      let x_i := sampled_row s in
      let grad_i_diff :=
        (Model.grad_i_factor (model s) (next_sample s) (iterate s)
         - Model.grad_i_factor (model s) (next_sample s) (fixed_w s))%Qc in
      exists w,
        size w = size (iterate s)
        /\ (forall k, 0 <= k < size_sparse x_i ->
              get w (get (indices x_i) k)
              = (get (iterate s) (get (indices x_i) k)
                 - step s
                   * (get (data x_i) k * grad_i_diff
                      + get (steps_correction s) (get (indices x_i) k)
                        * get (full_gradient s) (get (indices x_i) k)))%Qc)
        /\ (forall j, 0 <= j -> row_avoids x_i j ->
                      get w j = get (iterate s) j)
        /\ iterate (proba_iteration s)
           = intercept_step s grad_i_diff (Prox.call (prox s) w (step s))).
Proof.
  split.
  - intros s x_i grad_i_diff.
    destruct (proba_support_update s proba_four_row_fits) as [Hsep _].
    apply (Hsep eq_refl 0); by vm_compute.
  - intros s x_i grad_i_diff.
    destruct (proba_support_update s proba_four_coupled_row_fits)
      as [_ Hnot].
    apply (Hnot eq_refl).
Defined.

(** The values of that iteration.  The corrections are [2] and [1]; the
    iterate goes from [(0, 0)] to [(1/4, 4/3)]: the ridge prox of [1/2]
    with the step [1/2 * 2] and of [2] with the step [1/2 * 1].  With the
    plain step the first coordinate would be [1/3]. *)
Example proba_four_second_iteration :
  prepare_solve proba_four = Returns (prepared proba_four)
  /\ steps_correction (prepared proba_four) = [2%Qc; 1%Qc]
  /\ iterate (epoch_prefix 1 (prepared proba_four)) = [0%Qc; 0%Qc]
  /\ indices (sampled_row (epoch_prefix 1 (prepared proba_four))) = [0; 1]
  /\ iterate (proba_iteration (epoch_prefix 1 (prepared proba_four)))
     = [(1 / of_ulong 4)%Qc; (of_ulong 4 / of_ulong 3)%Qc]
  /\ Prox.call_single prox_ridge (1 / 2)%Qc 1%Qc = (1 / of_ulong 4)%Qc
  /\ Prox.call_single prox_ridge (1 / 2)%Qc (1 / 2)%Qc
     = (1 / of_ulong 3)%Qc.
Proof.
  split; [apply prepared_returns, proba_four_no_division_by_zero|].
  split; [evaluated|]. split; [evaluated|]. split; [evaluated|].
  split; [evaluated|]. split; evaluated.
Qed.

(** ** The first catch-up of a coordinate in an epoch of the exact routine *)

Lemma exact_late_touch_rows :
  row_avoids (sampled_row (epoch_prefix 0 (prepared exact_late_touch))) 1
  /\ row_avoids (sampled_row (epoch_prefix 1 (prepared exact_late_touch))) 1
  /\ stores_once (sampled_row (epoch_prefix 2 (prepared exact_late_touch)))
       0 1.
Proof.
  split; [|split].
  - intros k Hk. change (0 <= k < 1) in Hk.
    assert (k = 0) as -> by lia. by vm_compute.
  - intros k Hk. change (0 <= k < 1) in Hk.
    assert (k = 0) as -> by lia. by vm_compute.
  - split; [by vm_compute|]. split; [by vm_compute|].
    intros k Hk. change (0 <= k < 1) in Hk. lia.
Qed.

Lemma prox_zero_batched : batched_prox_contract prox_zero.
Proof.
  intros x step n Hn. cbn. induction (Z.to_nat n) as [|m IH]; [done|].
  by rewrite Nat.iter_succ, <- IH.
Qed.

(** C4: the epoch of [exact_late_touch] samples the first row at the
    iterations [0] and [1] and the second row at the iteration [2], so the
    second coordinate is left aside for two iterations and then met.  The
    claim gives it the value of two single decrements by
    [step * full_gradient[1]] and two single prox steps followed by the
    update on the support, that is [3/2].  The exact routine counts the
    delay from the zero [prepare_solve] wrote in [last_time], finds [1],
    and leaves the coordinate at [1], the value of the unbatched form for
    one missed iteration; the pass that ends the epoch adds nothing, and
    [solve] returns that value. *)
Theorem first_catch_up_is_one_short :
  let p := prepared exact_late_touch in
  let s := epoch_prefix 2 p in
  let x_i := sampled_row s in
  let grad_i_diff := grad_i_diff_of s (next_sample s) in
  prepare_solve exact_late_touch = Returns p
  /\ (is_prox_separable s = true /\ batched_prox_contract (casted_prox s))
  /\ (row_avoids (sampled_row (epoch_prefix 0 p)) 1
      /\ row_avoids (sampled_row (epoch_prefix 1 p)) 1
      /\ stores_once x_i 0 1)
  /\ (t s = 2 /\ last_time s = [1; 0] /\ iterate s = [0%Qc; 0%Qc]
      /\ full_gradient s = [0%Qc; (- (1 / 2))%Qc] /\ step s = 1%Qc)
  /\ delay (t s) (get (last_time s) 1) = 1
  /\ get (iterate (exact_iteration s)) 1 = 1%Qc
  /\ spec_sequential_update s x_i grad_i_diff 0 2 = (of_ulong 3 / 2)%Qc
  /\ spec_sequential_update s x_i grad_i_diff 0 1 = 1%Qc
  /\ iterate <$> solve exact_late_touch = Returns [0%Qc; 1%Qc].
Proof.
  intros p s x_i grad_i_diff.
  split; [apply prepared_returns; intros _ _ _ [=]|].
  split; [split; [reflexivity|apply prox_zero_batched]|].
  split; [apply exact_late_touch_rows|].
  split.
  { split; [evaluated|]. split; [evaluated|]. split; [evaluated|].
    split; evaluated. }
  split; [evaluated|]. split; [evaluated|]. split; [evaluated|].
  split; evaluated.
Qed.

(** ** A coordinate met again in an epoch of the exact routine *)

Lemma exact_iteration_unfold s :
  exact_iteration s
  = let s0 := with_rand (advance (rand s)) s in
    let u := for_range (size_sparse (sampled_row s))
               (exact_coordinate (sampled_row s)
                  (grad_i_diff_of s (next_sample s))) s0 in
    let u := prox_and_intercept (grad_i_diff_of s (next_sample s)) u in
    select_snapshot (t u) u.
Proof. reflexivity. Qed.

Lemma last_time_exact_coordinate_here x g k s :
  0 <= get (indices x) k < size (last_time s) ->
  get (last_time (exact_coordinate x g k s)) (get (indices x) k) = t s.
Proof.
  intros Hj. unfold exact_coordinate. cbn zeta. members.
  pose proof (update_frame_t _ _
                (frame_catch_up (get (indices x) k)
                   (delay (t s) (get (last_time s) (get (indices x) k))) s))
    as Ht.
  case_match; members; rewrite get_set_eq
    by (by rewrite last_time_catch_up); done.
Qed.

(** An iteration that stores the coordinate [j] leaves the counter of the
    iteration in [last_time[j]]. *)
Lemma exact_loop_last_time x g j n :
  forall k0 s,
  0 <= j < size (last_time s) ->
  (forall k, k0 <= k < k0 + Z.of_nat n -> 0 <= get (indices x) k) ->
  get (last_time s) j = t s
  \/ (exists k, k0 <= k < k0 + Z.of_nat n /\ get (indices x) k = j) ->
  get (last_time (for_loop n k0 (exact_coordinate x g) s)) j = t s.
Proof.
  induction n as [|n IH]; intros k0 s Hj Hpos Hcase.
  - destruct Hcase as [H|(k & Hk & _)]; [done|lia].
  - rewrite for_loop_S.
    pose proof (update_frame_t _ _ (frame_exact_coordinate x g k0 s)) as Ht.
    rewrite <- Ht. apply IH.
    + by rewrite size_last_time_exact_coordinate.
    + intros k Hk. apply Hpos. lia.
    + destruct (decide (get (indices x) k0 = j)) as [Heq|Hne].
      * left. rewrite Ht, <- Heq. apply last_time_exact_coordinate_here.
        by rewrite Heq.
      * destruct Hcase as [H|(k & Hk & Hkj)].
        -- left. rewrite Ht.
           destruct (exact_coordinate_elsewhere x g k0 s j) as [_ ->];
             [apply Hpos; lia|lia|done|done].
        -- right. exists k. split; [|done].
           assert (k <> k0) by congruence. lia.
Qed.

Lemma last_time_prox_and_intercept g s :
  last_time (prox_and_intercept g s) = last_time s.
Proof. unfold prox_and_intercept. by repeat case_match. Qed.

Lemma last_time_exact_iteration_stored s j :
  0 <= j < size (last_time s) -> row_stores (sampled_row s) j ->
  get (last_time (exact_iteration s)) j = t s.
Proof.
  intros Hj [Hpos (k & Hk & Hkj)]. rewrite exact_iteration_unfold.
  cbn zeta.
  match goal with |- context [select_snapshot ?k ?u] =>
    destruct (select_snapshot_keeps k u) as (_ & _ & _ & ->) end.
  rewrite last_time_prox_and_intercept. unfold for_range.
  pose proof (size_sparse_nat (sampled_row s)) as Hn.
  change (t s) with (t (with_rand (advance (rand s)) s)).
  apply exact_loop_last_time.
  - done.
  - intros k' Hk'. apply Hpos. lia.
  - right. exists k. split; [lia|done].
Qed.

Lemma spec_sequential_update_ext s s' x g k d :
  settings s' = settings s ->
  get (iterate s') (get (indices x) k) = get (iterate s) (get (indices x) k) ->
  spec_sequential_update s' x g k d = spec_sequential_update s x g k d.
Proof.
  intros Hs Hi. unfold spec_sequential_update. cbn zeta. rewrite Hi.
  assert (step s' = step s) as -> by by_members Hs.
  assert (full_gradient s' = full_gradient s) as -> by by_members Hs.
  assert (casted_prox s' = casted_prox s) as -> by by_members Hs.
  done.
Qed.

(** The loop of lines 186-214 on a row that stores the coordinate [j] once,
    [d] iterations after [j] was last written. *)
Lemma exact_loop_stored_once x g k j (d : nat) s :
  is_prox_separable s = true -> batched_prox_contract (casted_prox s) ->
  stores_once x k j -> 0 <= j < size (iterate s) ->
  0 <= get (last_time s) j ->
  t s = get (last_time s) j + 1 + Z.of_nat d -> t s < ulong_modulus ->
  get (iterate (for_range (size_sparse x) (exact_coordinate x g) s)) j
  = spec_sequential_update s x g k d.
Proof.
  intros Hsep Hp (Hk & Hkj & Hothers) Hj Hl Ht Hm.
  pose proof (size_sparse_nat x) as Hn. unfold for_range.
  replace (Z.to_nat (size_sparse x))
    with (Z.to_nat k + S (Z.to_nat (size_sparse x - k - 1)))%nat by lia.
  rewrite for_loop_app, for_loop_S.
  replace (0 + Z.of_nat (Z.to_nat k)) with k by lia.
  destruct (exact_loop_elsewhere x g (Z.to_nat k) 0 s j) as [Hi0 Hl0];
    [lia|intros k' Hk'; apply Hothers; lia|].
  pose proof (for_loop_invariant update_frame _ (frame_exact_coordinate x g)
                (Z.to_nat k) 0 s) as Hf0.
  pose proof (for_loop_invariant (fun s => size (iterate s)) _
                (size_iterate_exact_coordinate x g) (Z.to_nat k) 0 s) as Hz0.
  cbn beta in Hz0.
  revert Hi0 Hl0 Hf0 Hz0.
  generalize (for_loop (Z.to_nat k) 0 (exact_coordinate x g) s).
  intros s1 Hi0 Hl0 Hf0 Hz0.
  destruct (exact_loop_elsewhere x g (Z.to_nat (size_sparse x - k - 1))
              (k + 1) (exact_coordinate x g k s1) j) as [-> _];
    [lia|intros k' Hk'; apply Hothers; lia|].
  rewrite <- Hkj.
  rewrite (exact_coordinate_here x g k d s1).
  - apply spec_sequential_update_ext;
      [by apply update_frame_settings|by rewrite Hkj].
  - rewrite <- Hsep. apply update_frame_settings in Hf0. by_members Hf0.
  - assert (casted_prox s1 = casted_prox s) as ->; [|done].
    apply update_frame_settings in Hf0. by_members Hf0.
  - rewrite Hkj, Hz0. done.
  - by rewrite Hkj, Hl0.
  - rewrite Hkj, Hl0, (update_frame_t _ _ Hf0). done.
  - by rewrite (update_frame_t _ _ Hf0).
Qed.

Lemma settings_loop_t_exact n s :
  settings (loop_t n exact_iteration s) = settings s.
Proof.
  apply (loop_t_invariant settings); [apply settings_exact_iteration|].
  intros. apply settings_with_t.
Qed.

Lemma rand_loop_t_exact n :
  forall s, rand (loop_t n exact_iteration s)
            = Nat.iter n advance (rand s).
Proof.
  induction n as [|n IH]; intros s; [done|].
  rewrite loop_t_S, IH. members. rewrite rand_exact_iteration.
  by rewrite Nat.iter_succ_r.
Qed.

Lemma draws_iter_advance n r :
  draw_i (Nat.iter n advance r) = draw_i r
  /\ n_draws (Nat.iter n advance r) = (n_draws r + n)%nat.
Proof.
  induction n as [|n [IHd IHn]]; [split; [done|cbn; lia]|].
  rewrite Nat.iter_succ. cbn [advance draw_i n_draws].
  split; [done|lia].
Qed.

(** The sample of the iteration that follows [n] iterations. *)
Lemma sampled_row_loop_t_exact n s :
  sampled_row (loop_t n exact_iteration s)
  = Model.get_features (model s) (sample_of s n)
  /\ next_sample (loop_t n exact_iteration s) = sample_of s n.
Proof.
  unfold sampled_row. rewrite next_sample_sample_of.
  assert (sample_of (loop_t n exact_iteration s) 0 = sample_of s n) as ->.
  { unfold sample_of. rewrite rand_loop_t_exact.
    destruct (draws_iter_advance n (rand s)) as [-> ->].
    by rewrite Nat.add_0_r. }
  by rewrite (model_settings _ _ (settings_loop_t_exact n s)).
Qed.

(** An iteration whose row stores the coordinate [j] once, when the
    counter is [d] iterations past the one [last_time[j]] records. *)
Lemma exact_iteration_stored_once s k j (d : nat) :
  is_prox_separable s = true -> batched_prox_contract (casted_prox s) ->
  0 <= j < n_features s -> j < size (iterate s) ->
  stores_once (sampled_row s) k j ->
  0 <= get (last_time s) j ->
  t s = get (last_time s) j + 1 + Z.of_nat d -> t s < ulong_modulus ->
  get (iterate (exact_iteration s)) j
  = spec_sequential_update s (sampled_row s)
      (grad_i_diff_of s (next_sample s)) k d.
Proof.
  intros Hsep Hp Hj Hzi Hagain Hl Ht Hm.
  rewrite exact_iteration_unfold. cbn zeta.
  match goal with |- context [select_snapshot ?k ?u] =>
    destruct (select_snapshot_keeps k u) as (_ & _ & -> & _) end.
  match goal with |- context [prox_and_intercept ?g ?u] =>
    remember u as u' eqn:Hu end.
  assert (Hframe : update_frame u'
                   = update_frame (with_rand (advance (rand s)) s)).
  { subst u'. unfold for_range.
    apply (for_loop_invariant update_frame _ (frame_exact_coordinate _ _)). }
  destruct (separable_frame _ _ Hframe) as (Hs' & Hn' & _).
  members in Hs'. members in Hn'.
  destruct (prox_and_intercept_feature (grad_i_diff_of s (next_sample s))
              u' j) as [-> _]; [congruence|by rewrite Hn'|].
  subst u'.
  rewrite (exact_loop_stored_once _ _ k j d); [reflexivity| | | | | | |];
    members; try done. lia.
Qed.

(** X13: in the loop of the exact routine with a separable prox whose
    batched form is the equivalent of single steps, take an iteration that
    writes the feature coordinate [j], followed by [d] iterations whose
    rows do not store [j], and then by an iteration whose row stores [j]
    once.  During the [d] iterations the iterate keeps at [j] the value the
    first iteration left, the last iteration counts the delay [d] and
    gives [j] the value of
    the unbatched form for [d] missed iterations: [d] single decrements by
    [step * full_gradient[j]], [d] single prox steps, the update on the
    support and its prox step. *)
Theorem touched_again_is_sequential (s : SVRG) (d : nat) (j k : ulong) :
  is_prox_separable s = true -> batched_prox_contract (casted_prox s) ->
  0 <= j < n_features s -> j < size (iterate s) ->
  j < size (last_time s) ->
  0 <= t s -> t s + Z.of_nat d + 1 < ulong_modulus ->
  row_stores (sampled_row s) j ->
  never_sampled (exact_iteration s) d j ->
  let s' := loop_t (S d) exact_iteration s in
  stores_once (sampled_row s') k j ->
  t s' = t s + Z.of_nat d + 1
  /\ get (iterate s') j = get (iterate (exact_iteration s)) j
  /\ delay (t s') (get (last_time s') j) = Z.of_nat d
  /\ get (iterate (exact_iteration s')) j
     = spec_sequential_update s' (sampled_row s')
         (grad_i_diff_of s' (next_sample s')) k d.
Proof.
  intros Hsep Hp Hj Hzi Hzl Ht Hm Hfirst Hns s' Hagain.
  pose proof (settings_exact_iteration s) as Hset1.
  pose proof (settings_loop_t_exact (S d) s) as Hset. fold s' in Hset.
  assert (Hlast1 : get (last_time (exact_iteration s)) j = t s)
    by (apply last_time_exact_iteration_stored; [lia|done]).
  destruct (exact_loop_never_sampled j d
              (with_t (t (exact_iteration s) + 1) (exact_iteration s)))
    as (Hi & Hl & Hz).
  { members. rewrite <- Hsep. by_members Hset1. }
  { members. assert (n_features (exact_iteration s) = n_features s) as ->
      by by_members Hset1. done. }
  { exact Hns. }
  rewrite <- loop_t_S in Hi, Hl, Hz. fold s' in Hi, Hl, Hz.
  members in Hi. members in Hl. members in Hz.
  rewrite size_iterate_exact_iteration in Hz by done.
  assert (Hts : t s' = t s + Z.of_nat d + 1).
  { unfold s'. rewrite loop_t_S.
    rewrite (loop_t_counter _ t_exact_iteration). members.
    rewrite t_exact_iteration. lia. }
  split; [done|]. split; [done|].
  split; [apply delay_after; rewrite ?Hl, ?Hlast1; lia|].
  apply exact_iteration_stored_once.
  - rewrite <- Hsep. by_members Hset.
  - assert (casted_prox s' = casted_prox s) as -> by by_members Hset. done.
  - assert (n_features s' = n_features s) as -> by by_members Hset. done.
  - lia.
  - done.
  - rewrite Hl, Hlast1. done.
  - rewrite Hl, Hlast1. lia.
  - lia.
Qed.

Lemma exact_touched_again_rows :
  row_stores (sampled_row (with_t 0 (prepared exact_touched_again))) 1
  /\ never_sampled
       (exact_iteration (with_t 0 (prepared exact_touched_again))) 2 1
  /\ stores_once
       (sampled_row
          (loop_t 3 exact_iteration
             (with_t 0 (prepared exact_touched_again)))) 0 1.
Proof.
  split; [|split].
  - split.
    + intros k Hk. change (0 <= k < 1) in Hk.
      assert (k = 0) as -> by lia. by vm_compute.
    + exists 0. by vm_compute.
  - intros m Hm. assert (m = 0 \/ m = 1)%nat as [-> | ->] by lia;
      intros i Hi; change (0 <= i < 1) in Hi;
      assert (i = 0) as -> by lia; by vm_compute.
  - split; [by vm_compute|]. split; [by vm_compute|].
    intros k' Hk'. change (0 <= k' < 1) in Hk'. lia.
Qed.

(** The epoch of [exact_touched_again]: the second coordinate is written at
    the iteration [0], left aside at the iterations [1] and [2], and met
    again at the iteration [3]. *)
Lemma touched_again_is_sequential_witness :
  let s := with_t 0 (prepared exact_touched_again) in
  let s' := loop_t 3 exact_iteration s in
  t s' = 0 + Z.of_nat 2 + 1
  /\ get (iterate s') 1 = get (iterate (exact_iteration s)) 1
  /\ delay (t s') (get (last_time s') 1) = Z.of_nat 2
  /\ get (iterate (exact_iteration s')) 1
     = spec_sequential_update s' (sampled_row s')
         (grad_i_diff_of s' (next_sample s')) 0 2.
Proof.
  intros s s'.
  apply (touched_again_is_sequential s 2 1 0);
    [reflexivity|apply prox_ridge_batched|by vm_compute|by vm_compute
    |by vm_compute|by vm_compute|by vm_compute
    |apply exact_touched_again_rows|apply exact_touched_again_rows
    |apply exact_touched_again_rows].
Defined.

(** The values of that epoch: the first iteration leaves [5/3] at the
    second coordinate, the fourth one finds the delay [2] and leaves
    [25/81], the value of the unbatched form for two missed iterations;
    for one or three it would be [17/27] or [35/243]. *)
Example exact_touched_again_values :
  let s := with_t 0 (prepared exact_touched_again) in
  let s' := loop_t 3 exact_iteration s in
  let x_i := sampled_row s' in
  let grad_i_diff := grad_i_diff_of s' (next_sample s') in
  prepare_solve exact_touched_again = Returns (prepared exact_touched_again)
  /\ epoch_prefix 3 (prepared exact_touched_again) = s'
  /\ get (iterate (exact_iteration s)) 1 = (of_ulong 5 / of_ulong 3)%Qc
  /\ last_time s' = [2; 0]
  /\ get (iterate (exact_iteration s')) 1
     = (of_ulong 25 / of_ulong 81)%Qc
  /\ spec_sequential_update s' x_i grad_i_diff 0 1
     = (of_ulong 17 / of_ulong 27)%Qc
  /\ spec_sequential_update s' x_i grad_i_diff 0 3
     = (of_ulong 35 / of_ulong 243)%Qc.
Proof.
  intros s s' x_i grad_i_diff.
  split; [apply prepared_returns; intros _ _ _ [=]|].
  split; [reflexivity|].
  split; [evaluated|]. split; [evaluated|]. split; [evaluated|].
  split; evaluated.
Qed.

(** ** A coordinate met for the first time in an epoch of the exact
       routine *)

Lemma last_time_choose_rand_index s :
  last_time (choose_rand_index s) = last_time s.
Proof. unfold choose_rand_index. by repeat case_match. Qed.

(** [prepare_solve] leaves [last_time] filled with zeros on a sparse
    model. *)
Lemma prepare_solve_last_time s p j :
  is_model_sparse s = true -> prepare_solve s = Returns p ->
  0 <= j < n_features s ->
  get (last_time p) j = 0 /\ n_features p = n_features s.
Proof.
  intros Hs Hp Hj. pose proof (prepare_solve_bindings s p Hp) as Hb.
  split; [|by_members Hb]. revert Hp.
  rewrite prepare_solve_sparse by done.
  match goal with |- context [compute_step_corrections ?s0] =>
    destruct (compute_step_corrections s0) as [s'| |] eqn:Hc end;
    cbn; try done.
  intros [= <-]. rewrite last_time_choose_rand_index. members.
  apply compute_step_corrections_keeps_reference in Hc as (_ & _ & Hl).
  rewrite Hl. members. unfold get.
  apply lookup_total_replicate_2. lia.
Qed.

(** X14: [solve] starts the loop of the exact routine on the solver
    [prepare_solve] returns, with the counter at zero.  With a separable
    prox whose batched form is the equivalent of single steps, a feature
    coordinate [j] that the rows of the first [d >= 1] iterations do not
    store and the row of the next iteration stores once keeps its value
    during the [d] iterations; the next iteration counts the delay
    [d - 1] from the zero [prepare_solve] wrote in [last_time[j]] and
    gives [j] the value of the unbatched form for [d - 1] missed
    iterations. *)
Theorem first_window_counts_one_less (s p : SVRG) (d : nat) (j k : ulong) :
  is_model_sparse s = true -> prepare_solve s = Returns p ->
  is_prox_separable p = true -> batched_prox_contract (casted_prox p) ->
  0 <= j < n_features p -> j < size (iterate p) ->
  (1 <= d)%nat -> Z.of_nat d < ulong_modulus ->
  never_sampled p d j ->
  let s' := loop_t d exact_iteration (with_t 0 p) in
  stores_once (sampled_row s') k j ->
  t s' = Z.of_nat d
  /\ get (iterate s') j = get (iterate p) j
  /\ delay (t s') (get (last_time s') j) = Z.of_nat d - 1
  /\ get (iterate (exact_iteration s')) j
     = spec_sequential_update s' (sampled_row s')
         (grad_i_diff_of s' (next_sample s')) k (d - 1).
Proof.
  intros Hsparse Hprep Hsep Hp Hj Hzi Hd Hm Hns s' Hagain.
  assert (Hlast : get (last_time p) j = 0).
  { pose proof (prepare_solve_bindings s p Hprep) as Hb.
    apply (prepare_solve_last_time s p j Hsparse Hprep).
    assert (n_features s = n_features p) as -> by by_members Hb. done. }
  pose proof (settings_loop_t_exact d (with_t 0 p)) as Hset.
  fold s' in Hset. rewrite settings_with_t in Hset.
  destruct (exact_loop_never_sampled j d (with_t 0 p) Hsep Hj Hns)
    as (Hi & Hl & Hz).
  fold s' in Hi, Hl, Hz. members in Hi. members in Hl. members in Hz.
  assert (Hts : t s' = Z.of_nat d).
  { unfold s'. rewrite (loop_t_counter _ t_exact_iteration). members. lia. }
  assert (Hdelay : t s' = get (last_time s') j + 1 + Z.of_nat (d - 1))
    by (rewrite Hl, Hlast; lia).
  split; [done|]. split; [done|].
  split.
  { rewrite (delay_after _ _ (d - 1)); [lia|rewrite Hl; lia|done|lia]. }
  apply exact_iteration_stored_once.
  - rewrite <- Hsep. by_members Hset.
  - assert (casted_prox s' = casted_prox p) as -> by by_members Hset. done.
  - assert (n_features s' = n_features p) as -> by by_members Hset. done.
  - lia.
  - done.
  - rewrite Hl. lia.
  - done.
  - lia.
Qed.

Lemma exact_late_touch_never_sampled :
  never_sampled (with_t 0 (prepared exact_late_touch)) 2 1
  /\ stores_once
       (sampled_row
          (loop_t 2 exact_iteration (with_t 0 (prepared exact_late_touch))))
       0 1.
Proof.
  split.
  - intros m Hm. assert (m = 0 \/ m = 1)%nat as [-> | ->] by lia;
      intros i Hi; change (0 <= i < 1) in Hi;
      assert (i = 0) as -> by lia; by vm_compute.
  - split; [by vm_compute|]. split; [by vm_compute|].
    intros k' Hk'. change (0 <= k' < 1) in Hk'. lia.
Qed.

(** The epoch of [exact_late_touch]: the second coordinate is met at the
    iteration [2] for the first time. *)
Lemma first_window_counts_one_less_witness :
  let p := prepared exact_late_touch in
  let s' := loop_t 2 exact_iteration (with_t 0 p) in
  t s' = Z.of_nat 2
  /\ get (iterate s') 1 = get (iterate p) 1
  /\ delay (t s') (get (last_time s') 1) = Z.of_nat 2 - 1
  /\ get (iterate (exact_iteration s')) 1
     = spec_sequential_update s' (sampled_row s')
         (grad_i_diff_of s' (next_sample s')) 0 (2 - 1).
Proof.
  intros p s'.
  apply (first_window_counts_one_less exact_late_touch p 2 1 0);
    [reflexivity|apply prepared_returns; intros _ _ _ [=]|reflexivity
    |apply prox_zero_batched|by vm_compute|by vm_compute|lia|by vm_compute
    |apply exact_late_touch_never_sampled
    |apply exact_late_touch_never_sampled].
Defined.
